(** * FaceEmotionDetection: the evaluation script [evaluate.py]

    A shallow embedding of [src/evaluate.py]: the top-k counter
    [correct_count], the renderer [draw_confusion_matrix], the evaluation
    loop [evaluate] and the orchestrator [main].

    Modelling conventions.
    - A torch tensor is a shape together with its elements in row-major
      (contiguous) order.  Floating-point scalars are idealised as exact
      rationals ([Q]); equalities between computed scores are therefore
      stated up to [Qeq].  A rational model has no NaN and no infinities:
      where the Python code would produce one, the place is marked.
    - The order [torch.topk] gives to classes of equal score is left open
      (class [Torch]); the renderer formats the float64 value of a matrix
      entry ([float64]).
    - Integer tensors (labels, top-k indices) are lists of [Z].
    - Python exceptions are values of [exn]; code that prints, calls the
      network or draws runs in a writer-plus-error monad [M] whose log is
      the list of observable events in program order.
    - The network, the loss function and the loaders are arguments, as
      they are arguments (or imported collaborators) in the script. *)

From Stdlib Require Import String.
From Stdlib Require Import List ZArith QArith Qround Qabs Bool Arith Lia Lqa.
From Stdlib Require Import Permutation Sorted.
Import ListNotations.

Local Open Scope Z_scope.
Local Open Scope nat_scope.

(* ================================================================== *)
(** ** Exceptions, events and the monad *)

Inductive exn : Type :=
| ValueError          (* tuple unpacking of a shape of the wrong length *)
| RuntimeError        (* torch shape/size errors *)
| IndexError          (* index or dimension out of range *)
| KeyError            (* missing dictionary key *)
| ZeroDivisionError   (* Python float division by zero *)
| ExternalError (msg : string).  (* raised by a collaborator outside the script *)

Definition result (A : Type) : Type := (exn + A)%type.

(** A tensor of scalars. *)
Record tensor : Type := mkT { shape : list nat; data : list Q }.

(** What [print] is given.  Formatted numbers are kept as the number that
    is formatted. *)
Inductive line : Type :=
| LText (s : string)
| LModel (arch : string)
| LSeparator
| LTop1 (acc : Q)
| LTop2 (acc : Q)
| LLoss (loss : Q)
| LPrecision (p : Q)
| LRecall (r : Q)
| LF1 (f : Q)
| LConfusion (cm : list (list nat)).

Inductive color : Type := White | Black.

(** Calls on the process-wide pyplot canvas. *)
Inductive plt_call : Type :=
| Imshow (cm : list (list Q))
| Title (s : string)
| Xlabel (s : string)
| Ylabel (s : string)
| Yticks (n : nat) (names : list string)
| Xticks (n : nat) (names : list string) (rotation : Z)
| TightLayout
| Colorbar
| Text (x y : nat) (value : Q) (c : color)
| Savefig (path : string) (dpi : Z)
| Clf.

Inductive event : Type :=
| Print (l : line)
| Forward (input_shape : list nat)   (* one call [net(inputs)] *)
| Plt (c : plt_call).

Definition M (A : Type) : Type := (list event * result A)%type.

Definition ret {A} (a : A) : M A := ([], inr a).
Definition raise {A} (e : exn) : M A := ([], inl e).
Definition emit (e : event) : M unit := ([e], inr tt).
Definition lift {A} (r : result A) : M A := ([], r).

Definition bind {A B} (m : M A) (f : A -> M B) : M B :=
  match m with
  | (l, inl e) => (l, inl e)
  | (l, inr a) => let (l', r) := f a in (l ++ l', r)
  end.

Declare Scope monad_scope.
Delimit Scope monad_scope with monad.
Notation "x <- c1 ;; c2" := (bind c1 (fun x => c2))
  (at level 61, c1 at next level, right associativity) : monad_scope.
Notation "' pat <- c1 ;; c2" := (bind c1 (fun x => match x with pat => c2 end))
  (at level 61, pat pattern, c1 at next level, right associativity) : monad_scope.
Notation "c1 ;; c2" := (bind c1 (fun _ => c2))
  (at level 61, right associativity) : monad_scope.
Local Open Scope monad_scope.

Definition print (l : line) : M unit := emit (Print l).
Definition plt (c : plt_call) : M unit := emit (Plt c).

(** Monadic [for x in xs: st = body(st, x)]. *)
Fixpoint for_each {A S} (body : S -> A -> M S) (xs : list A) (st : S) : M S :=
  match xs with
  | [] => ret st
  | x :: xs' => st' <- body st x ;; for_each body xs' st'
  end.

(* ================================================================== *)
(** ** Tensor operations used by the script *)

Definition numel (s : list nat) : nat := fold_right Nat.mul 1 s.

(** The elements agree in number with the shape. *)
Definition wf (t : tensor) : Prop := length (data t) = numel (shape t).

Definition wfb (t : tensor) : bool := length (data t) =? numel (shape t).

(** [chunks n k l]: the first [k] consecutive blocks of [n] elements of [l]. *)
Fixpoint chunks {A} (n k : nat) (l : list A) : list (list A) :=
  match k with
  | O => []
  | S k' => firstn n l :: chunks n k' (skipn n l)
  end.

(** [Tensor.view] with a list of sizes, on a contiguous tensor: at most one [-1], which is
    inferred; torch's [infer_size] rejects a size that does not divide the
    number of elements and an inferred dimension over a zero product. *)
Definition is_infer (d : Z) : bool := (d =? -1)%Z.

Definition known_product (dims : list Z) : Z :=
  fold_right (fun d acc => if is_infer d then acc else (d * acc)%Z) 1%Z dims.

Definition view (t : tensor) (dims : list Z) : result tensor :=
  let n := Z.of_nat (numel (shape t)) in
  let infers := List.length (filter is_infer dims) in
  if existsb (fun d => (d <? -1)%Z) dims then inl RuntimeError
  else if 1 <? infers then inl RuntimeError
  else
    let newsize := known_product dims in
    if infers =? 0 then
      if (n =? newsize)%Z
      then inr (mkT (map Z.to_nat dims) (data t))
      else inl RuntimeError
    else
      if ((n =? newsize) || ((0 <? newsize) && (n mod newsize =? 0)))%Z
      then
        if (newsize =? 0)%Z then inl RuntimeError
        else inr (mkT (map (fun d => if is_infer d then Z.to_nat (n / newsize)
                                     else Z.to_nat d) dims)
                      (data t))
      else inl RuntimeError.

(** Element-wise sum of two rows. *)
Fixpoint vadd (u v : list Q) : list Q :=
  match u, v with
  | x :: u', y :: v' => (x + y)%Q :: vadd u' v'
  | _, _ => []
  end.

(** [torch.sum(t, dim=1)]: the dimension of index 1 is reduced away. *)
Definition sum_dim1 (t : tensor) : result tensor :=
  match shape t with
  | d0 :: d1 :: rest =>
      let r := numel rest in
      inr (mkT (d0 :: rest)
               (flat_map (fun block => fold_left vadd (chunks r d1 block) (repeat 0%Q r))
                         (chunks (d1 * r) d0 (data t))))
  | _ => inl IndexError
  end.

(** [t / n] for a Python integer [n]. *)
Definition div_scalar (t : tensor) (n : nat) : tensor :=
  mkT (shape t) (map (fun x => (x / inject_Z (Z.of_nat n))%Q) (data t)).

(** The rows of a 2-D tensor. *)
Definition rows (t : tensor) : result (list (list Q)) :=
  match shape t with
  | [b; k] => inr (chunks k b (data t))
  | _ => inl RuntimeError
  end.

(** The order in which [torch.topk] returns classes of equal score is not
    specified by the library.  It is a parameter of the embedding:
    [topk_tie output k r i j] tells whether, in row [r] of the call
    [output.topk(k, ...)], class [i] comes before class [j] when both have
    the same score.  Every theorem holds for every such order. *)
Class Torch : Type := {
  topk_tie : tensor -> nat -> nat -> nat -> nat -> bool
}.

Section Embedding.

Context {T : Torch}.

(** [output.topk(k, 1, True, True)] on one row: the indices of the [k]
    largest scores, largest first; [tie] orders the classes of equal
    score. *)
Fixpoint insert_desc (tie : nat -> nat -> bool) (x : nat * Q)
    (l : list (nat * Q)) : list (nat * Q) :=
  match l with
  | [] => [x]
  | y :: l' =>
      if negb (Qle_bool (snd y) (snd x))            (* y strictly above x *)
      then y :: insert_desc tie x l'
      else if negb (Qle_bool (snd x) (snd y))       (* x strictly above y *)
      then x :: l
      else if tie (fst x) (fst y) then x :: l       (* equal scores *)
      else y :: insert_desc tie x l'
  end.

Definition sort_desc (tie : nat -> nat -> bool) (l : list (nat * Q))
  : list (nat * Q) :=
  fold_right (insert_desc tie) [] l.

Definition topk_row (tie : nat -> nat -> bool) (k : nat) (row : list Q) : list Z :=
  map (fun p => Z.of_nat (fst p))
      (firstn k (sort_desc tie (combine (seq 0 (length row)) row))).

(** The index tensor returned by [output.topk(maxk, 1, True, True)]: one row
    of [maxk] indices per sample.  A tensor without a dimension 1 is an
    [IndexError]; fewer than [maxk] classes is a [RuntimeError].  Only 2-D
    score tensors go on: [pred.t()] on line 29 rejects more dimensions. *)
Definition topk (output : tensor) (maxk : nat) : result (list (list Z)) :=
  match shape output with
  | [] | [_] => inl IndexError
  | [b; k] =>
      if k <? maxk then inl RuntimeError
      else inr (map (fun r => topk_row (topk_tie output maxk r) maxk
                                 (nth r (chunks k b (data output)) []))
                    (seq 0 b))
  | _ => inl RuntimeError
  end.

(** [pred.t()] for [b] rows of [maxk] indices: [maxk] rows of [b]. *)
Definition transpose (maxk : nat) (pred : list (list Z)) : list (list Z) :=
  map (fun r => map (fun row => nth r row 0%Z) pred) (seq 0 maxk).

(** [target.view(1, -1).expand_as(pred)], one row of it: a target of the
    batch's length is used as it is, a single target is broadcast. *)
Definition expand_target (target : list Z) (b : nat) : result (list Z) :=
  if length target =? b then inr target
  else match target with
       | [y] => inr (repeat y b)
       | _ => inl RuntimeError
       end.

Definition row_eq (pred_row target_row : list Z) : list bool :=
  map (fun p => (fst p =? snd p)%Z) (combine pred_row target_row).

Definition count_true (l : list bool) : nat := length (filter (fun b => b) l).

(** [correct[:k].contiguous().view(-1).float().sum(0, keepdim=True)]. *)
Definition correct_k (correct : list (list bool)) (k : nat) : nat :=
  count_true (concat (firstn k correct)).

(** Lines 24-36. *)
Definition correct_count (output : tensor) (target : list Z) (topk_ks : list nat)
  : result (list Q) :=
  match topk_ks with
  | [] => inl ValueError                     (* max() of an empty tuple *)
  | k0 :: ks =>
      let maxk := fold_left Nat.max ks k0 in
      match topk output maxk with
      | inl e => inl e
      | inr pred =>
          let bsz := length pred in
          let pred := transpose maxk pred in
          match expand_target target bsz with
          | inl e => inl e
          | inr tgt =>
              let correct := map (fun pr => row_eq pr tgt) pred in
              inr (map (fun k => inject_Z (Z.of_nat (correct_k correct k))) topk_ks)
          end
      end
  end.

(** [torch.max(outputs.data, 1)], the index part, on one row: the first
    position holding the largest score. *)
Fixpoint argmax_from (i best_i : nat) (best : Q) (l : list Q) : nat :=
  match l with
  | [] => best_i
  | x :: l' =>
      if Qle_bool x best then argmax_from (S i) best_i best l'
      else argmax_from (S i) i x l'
  end.

Definition argmax (row : list Q) : nat :=
  match row with
  | [] => 0
  | x :: l => argmax_from 1 0 x l
  end.

(** One predicted class per sample.  The call on line 112 is only reached
    with a 2-D tensor of at least two classes: [correct_count] has raised
    otherwise. *)
Definition max_dim1 (outputs : tensor) : result (list Z) :=
  match shape outputs with
  | [b; k] =>
      if k =? 0 then inl IndexError
      else inr (map (fun row => Z.of_nat (argmax row)) (chunks k b (data outputs)))
  | _ => inl RuntimeError
  end.

(* ================================================================== *)
(** ** The scikit-learn functions the script calls *)

Definition Qsum (l : list Q) : Q := fold_right Qplus 0%Q l.

Definition Qnat (n : nat) : Q := inject_Z (Z.of_nat n).

(** Both label sequences must have one entry per sample. *)
Definition check_consistent_length {A} (y_true y_pred : list Z) (a : A) : result A :=
  if length y_true =? length y_pred then inr a else inl ValueError.

Definition matches (y_true y_pred : list Z) : nat :=
  count_true (row_eq y_true y_pred).

(** [precision_score], [recall_score] and [f1_score] with [average='micro']
    on single-label data: every sample is one true positive (labels agree)
    or one false positive and one false negative, so all three are the
    fraction of agreeing samples. *)
Definition micro_score (y_true y_pred : list Z) : result Q :=
  check_consistent_length y_true y_pred
    (Qnat (matches y_true y_pred) / Qnat (length y_true))%Q.

Definition precision_score := micro_score.
Definition recall_score := micro_score.
Definition f1_score := micro_score.

(** [unique_labels(y_true, y_pred)]: the labels that occur, ascending. *)
Fixpoint insert_uniq (x : Z) (l : list Z) : list Z :=
  match l with
  | [] => [x]
  | y :: l' =>
      if (x <? y)%Z then x :: l
      else if (x =? y)%Z then l
      else y :: insert_uniq x l'
  end.

Definition unique_labels (y_true y_pred : list Z) : list Z :=
  fold_right insert_uniq [] (y_true ++ y_pred).

Definition count_pair (a b : Z) (y_true y_pred : list Z) : nat :=
  count_true (map (fun p => (fst p =? a)%Z && (snd p =? b)%Z) (combine y_true y_pred)).

(** The input check of [confusion_matrix]: the two sequences must have
    one entry per sample, and there must be a sample (the library raises
    [ValueError] on empty input). *)
Definition check_targets {A} (y_true y_pred : list Z) (a : A) : result A :=
  if length y_true =? length y_pred then
    if length y_true =? 0 then inl ValueError else inr a
  else inl ValueError.

(** [confusion_matrix(y_true, y_pred)] with [labels=None]: rows and columns
    are indexed by the labels that occur in either sequence, not by class
    number. *)
Definition confusion_counts (y_true y_pred : list Z) : list (list nat) :=
  let labels := unique_labels y_true y_pred in
  map (fun a => map (fun b => count_pair a b y_true y_pred) labels) labels.

Definition confusion_matrix (y_true y_pred : list Z) : result (list (list nat)) :=
  check_targets y_true y_pred (confusion_counts y_true y_pred).

(** [normalize='true']: each row is divided by its sum; the library then
    applies [nan_to_num], which turns the 0/0 entries of a row without
    samples into 0. *)
Definition normalize_row (row : list nat) : list Q :=
  let s := fold_right Nat.add 0 row in
  if s =? 0 then map (fun _ => 0%Q) row
  else map (fun c => (Qnat c / Qnat s)%Q) row.

Definition confusion_matrix_true (y_true y_pred : list Z) : result (list (list Q)) :=
  check_targets y_true y_pred
    (map normalize_row (confusion_counts y_true y_pred)).

(* ================================================================== *)
(** ** The renderer (lines 39-71) *)

(** [float(format('%.2f' % x))]: the nearest multiple of 1/100, an exact
    tie going to the even one. *)
Definition round2 (x : Q) : Q :=
  let y := (x * 100)%Q in
  let f := Qfloor y in
  let r := (y - inject_Z f)%Q in
  let n := match (r ?= 1 # 2)%Q with
           | Lt => f
           | Gt => (f + 1)%Z
           | Eq => if Z.even f then f else (f + 1)%Z
           end in
  (inject_Z n / 100)%Q.

(** The matrix handed to the renderer is a float64 array: each entry is
    the double nearest to the exact quotient (ties to the even mantissa).
    [float64 x] is that double, as a rational, for [x] in the range of
    normal doubles. *)
Definition round_half_even (y : Q) : Z :=
  let f := Qfloor y in
  match (y - inject_Z f ?= 1 # 2)%Q with
  | Lt => f
  | Gt => (f + 1)%Z
  | Eq => if Z.even f then f else (f + 1)%Z
  end.

Definition float64 (x : Q) : Q :=
  if Qeq_bool x 0 then 0%Q
  else
    let ax := Qabs x in
    let e0 := (Z.log2 (Z.abs (Qnum x)) - Z.log2 (Zpos (Qden x)))%Z in
    (* 2^e <= |x| < 2^(e+1) *)
    let e := if Qle_bool (Qpower 2 e0) ax then e0 else (e0 - 1)%Z in
    let ulp := Qpower 2 (e - 52) in
    let r := (inject_Z (round_half_even (ax / ulp)) * ulp)%Q in
    if Qle_bool 0 x then r else (- r)%Q.

(** [cm[j, i]] on a numpy matrix. *)
Definition cm_get (cm : list (list Q)) (j i : nat) : result Q :=
  match nth_error cm j with
  | None => inl IndexError
  | Some row =>
      match nth_error row i with
      | None => inl IndexError
      | Some v => inr v
      end
  end.

Definition draw_cell (cm : list (list Q)) (i j : nat) : M unit :=
  let color := if i =? j then White else Black in
  value <- lift (cm_get cm j i) ;;
  plt (Text i j (round2 (float64 value)) color).

Definition draw_cells (cm : list (list Q)) (n : nat) : M unit :=
  for_each (fun _ i => for_each (fun _ j => draw_cell cm i j) (seq 0 n) tt)
           (seq 0 n) tt.

Definition draw_confusion_matrix (label_true label_pred : list Z)
    (label_name : list string) (title : string)
    (pdf_save_path : option string) (dpi : Z) : M unit :=
  cm <- lift (confusion_matrix_true label_true label_pred) ;;
  plt (Imshow cm) ;;
  plt (Title title) ;;
  plt (Xlabel "Predict label") ;;
  plt (Ylabel "Truth label") ;;
  plt (Yticks (length label_name) label_name) ;;
  plt (Xticks (length label_name) label_name 45) ;;
  plt TightLayout ;;
  plt Colorbar ;;
  draw_cells cm (length label_name) ;;
  match pdf_save_path with
  | Some path => plt (Savefig path dpi)
  | None => ret tt
  end.

(* ================================================================== *)
(** ** The evaluation loop (lines 74-130) *)

Inductive device : Type := Cpu | Cuda0.

Definition net_t : Type := tensor -> result tensor.
Definition loss_t : Type := tensor -> list Z -> result Q.
Definition batch : Type := (tensor * list Z)%type.
Definition dataloader : Type := list batch.

(** The accumulators of the loop. *)
Record counters : Type := mkCounters {
  loss_tr : Q;
  n_samples : Q;
  y_pred : list Z;
  y_gt : list Z;
  correct_count1 : Q;
  correct_count2 : Q
}.

Definition init_counters : counters := mkCounters 0 0 [] [] 0 0.

(** [net(inputs)]: one forward pass. *)
Definition call (net : net_t) (inputs : tensor) : M tensor :=
  emit (Forward (shape inputs)) ;; lift (net inputs).

(** Lines 88-100: the scores of one batch. *)
Definition evaluate_outputs (net : net_t) (Ncrop : bool) (inputs : tensor) : M tensor :=
  if Ncrop then
    match shape inputs with
    | [bs; ncrops; c; h; w] =>
        inputs <- lift (view inputs [-1; Z.of_nat c; Z.of_nat h; Z.of_nat w]%Z) ;;
        outputs <- call net inputs ;;
        outputs <- lift (view outputs [Z.of_nat bs; Z.of_nat ncrops; -1]%Z) ;;
        outputs <- lift (sum_dim1 outputs) ;;
        ret (div_scalar outputs ncrops)
    | _ => raise ValueError
    end
  else call net inputs.

(** Lines 102-116: loss, top-k counts and label sequences of one batch,
    all from the same [outputs]. *)
Definition evaluate_metrics (loss_fn : loss_t) (st : counters)
    (outputs : tensor) (labels : list Z) : M counters :=
  loss <- lift (loss_fn outputs labels) ;;
  counts <- lift (correct_count outputs labels [1; 2]) ;;
  match counts with
  | [c1; c2] =>
      preds <- lift (max_dim1 outputs) ;;
      ret (mkCounters (loss_tr st + loss)
                      (n_samples st + Qnat (length labels))
                      (y_pred st ++ preds)
                      (y_gt st ++ labels)
                      (correct_count1 st + c1)
                      (correct_count2 st + c2))
  | _ => raise IndexError
  end.

(** Lines 85-116: the body of the loop. *)
Definition evaluate_batch (net : net_t) (loss_fn : loss_t) (Ncrop : bool)
    (st : counters) (data : batch) : M counters :=
  let '(inputs, labels) := data in
  outputs <- evaluate_outputs net Ncrop inputs ;;
  evaluate_metrics loss_fn st outputs labels.

(** Python's [x / y] on floats. *)
Definition py_div (x y : Q) : result Q :=
  if Qeq_bool y 0 then inl ZeroDivisionError else inr (x / y)%Q.

(** Lines 118-130. *)
Definition evaluate_report (st : counters) : M (list Z * list Z) :=
  acc1 <- lift (py_div (100 * correct_count1 st) (n_samples st)) ;;
  acc2 <- lift (py_div (100 * correct_count2 st) (n_samples st)) ;;
  loss <- lift (py_div (loss_tr st) (n_samples st)) ;;
  print LSeparator ;;
  print (LTop1 acc1) ;;
  print (LTop2 acc2) ;;
  print (LLoss loss) ;;
  p <- lift (precision_score (y_gt st) (y_pred st)) ;;
  print (LPrecision p) ;;
  r <- lift (recall_score (y_gt st) (y_pred st)) ;;
  print (LRecall r) ;;
  f <- lift (f1_score (y_gt st) (y_pred st)) ;;
  print (LF1 f) ;;
  cm <- lift (confusion_matrix (y_gt st) (y_pred st)) ;;
  print (LConfusion cm) ;;
  ret (y_gt st, y_pred st).

Definition evaluate (net : net_t) (dl : dataloader) (loss_fn : loss_t)
    (Ncrop : bool) (dev : device) : M (list Z * list Z) :=
  st <- for_each (evaluate_batch net loss_fn Ncrop) dl init_counters ;;
  evaluate_report st.

(* ================================================================== *)
(** ** The orchestrator (lines 15-21 and 132-178) *)

(** The parsed command line. *)
Record args_t : Type := mkArgs {
  batch_size : Z;
  seed : Z;
  data_path : string;
  checkpoint : string;
  arch : string;
  Ncrop : bool
}.

(** The defaults of lines 16-21. *)
Definition default_args : args_t :=
  mkArgs 128 0 "./fer2013.csv" "./best_checkpoint.tar" "ResNet18" true.

(** What the script imports and does not define: [utils.get_model],
    [torch.load], [Module.load_state_dict], the forward pass of a module,
    [nn.CrossEntropyLoss()], [dataset.get_dataloaders] and
    [torch.cuda.is_available]. *)
Record world : Type := mkWorld {
  module : Type;
  state_dict : Type;
  cuda_is_available : bool;
  get_model : string -> result module;
  describe : module -> string;                      (* what [print(model)] shows *)
  torch_load : string -> result (list (string * state_dict));
  load_state_dict : module -> state_dict -> result module;
  forward : module -> net_t;
  cross_entropy : loss_t;
  get_dataloaders : bool -> result (dataloader * dataloader * dataloader)
}.

(** [d[key]] on a Python dict. *)
Fixpoint dict_get {V} (d : list (string * V)) (key : string) : result V :=
  match d with
  | [] => inl KeyError
  | (k, v) :: d' => if String.eqb k key then inr v else dict_get d' key
  end.

Definition label_name : list string := ["Angry"; "Happy"; "Sad"; "Neutral"]%string.

(** One split: lines 147-154, 159-166 and 171-178. *)
Definition evaluate_and_draw (net : net_t) (dl : dataloader) (loss_fn : loss_t)
    (ncrop : bool) (dev : device) (title path : string) : M unit :=
  '(y_gt, y_pred) <- evaluate net dl loss_fn ncrop dev ;;
  draw_confusion_matrix y_gt y_pred label_name title (Some path) 300.

Definition main (w : world) (args : args_t) : M unit :=
  let dev := if cuda_is_available w then Cuda0 else Cpu in
  let loss_fn := cross_entropy w in
  model <- lift (get_model w (arch args)) ;;
  print (LModel (describe w model)) ;;
  ckpt <- lift (torch_load w (checkpoint args)) ;;
  sd <- lift (dict_get ckpt "model_state_dict") ;;
  model <- lift (load_state_dict w model sd) ;;
  '(train_loader, val_loader, test_loader) <- lift (get_dataloaders w false) ;;
  print (LText "Train") ;;
  evaluate_and_draw (forward w model) train_loader loss_fn (Ncrop args) dev
    "Confusion Matrix on Training Set" "Confusion Matrix on Training Set.png" ;;
  plt Clf ;;
  print (LText "Val") ;;
  evaluate_and_draw (forward w model) val_loader loss_fn (Ncrop args) dev
    "Confusion Matrix on Val Set" "Confusion Matrix on Val Set.png" ;;
  plt Clf ;;
  print (LText "Test") ;;
  evaluate_and_draw (forward w model) test_loader loss_fn (Ncrop args) dev
    "Confusion Matrix on Test Set" "Confusion Matrix on Test Set.png".

(** What one pass through the loop body computes. *)
Record batch_stat : Type := mkStat {
  b_out : tensor;      (* the scores the metrics are computed from *)
  b_loss : Q;          (* [loss.item()] *)
  b_c1 : Q;            (* [counts[0].item()] *)
  b_c2 : Q;            (* [counts[1].item()] *)
  b_preds : list Z     (* the arg-max classes *)
}.

(** The statistics of one batch, read off a run of the loop body. *)
Definition observed_stat (net : net_t) (loss_fn : loss_t) (ncrop : bool)
    (b : batch) : batch_stat :=
  let out := match snd (evaluate_outputs net ncrop (fst b)) with
             | inr o => o
             | inl _ => mkT [] []
             end in
  let cs := match correct_count out (snd b) [1; 2] with
            | inr [c1; c2] => (c1, c2)
            | _ => (0%Q, 0%Q)
            end in
  mkStat out
         (match loss_fn out (snd b) with inr l => l | inl _ => 0%Q end)
         (fst cs) (snd cs)
         (match max_dim1 out with inr p => p | inl _ => [] end).

(* ================================================================== *)
(** ** Predicates and auxiliary definitions of the statements *)

(** A property of every event of a computation's log. *)
Definition logs {A} (P : event -> Prop) (m : M A) : Prop := Forall P (fst m).

Definition is_forward (e : event) : Prop :=
  match e with Forward _ => True | _ => False end.

Definition is_print (e : event) : Prop :=
  match e with Print _ => True | _ => False end.

Definition total_samples (dl : dataloader) : nat :=
  fold_right (fun b acc => length (snd b) + acc) 0 dl.

Definition all_labels (dl : dataloader) : list Z := flat_map snd dl.

Definition batch_run (net : net_t) (loss_fn : loss_t) (ncrop : bool)
    (b : batch) (s : batch_stat) : Prop :=
  snd (evaluate_outputs net ncrop (fst b)) = inr (b_out s) /\
  loss_fn (b_out s) (snd b) = inr (b_loss s) /\
  correct_count (b_out s) (snd b) [1; 2] = inr [b_c1 s; b_c2 s] /\
  max_dim1 (b_out s) = inr (b_preds s).

Definition step (st : counters) (b : batch) (s : batch_stat) : counters :=
  mkCounters (loss_tr st + b_loss s)
             (n_samples st + Qnat (length (snd b)))
             (y_pred st ++ b_preds s)
             (y_gt st ++ snd b)
             (correct_count1 st + b_c1 s)
             (correct_count2 st + b_c2 s).

Fixpoint accumulate (st : counters) (dl : dataloader) (stats : list batch_stat)
  : counters :=
  match dl, stats with
  | b :: dl', s :: stats' => accumulate (step st b s) dl' stats'
  | _, _ => st
  end.

(** The lines that follow the loss line, and the value returned. *)
Definition report_tail (st : counters) : M (list Z * list Z) :=
  p <- lift (precision_score (y_gt st) (y_pred st)) ;;
  print (LPrecision p) ;;
  r <- lift (recall_score (y_gt st) (y_pred st)) ;;
  print (LRecall r) ;;
  f <- lift (f1_score (y_gt st) (y_pred st)) ;;
  print (LF1 f) ;;
  cm <- lift (confusion_matrix (y_gt st) (y_pred st)) ;;
  print (LConfusion cm) ;;
  ret (y_gt st, y_pred st).

Definition report_head (a1 a2 l : Q) : list event :=
  [Print LSeparator; Print (LTop1 a1); Print (LTop2 a2); Print (LLoss l)].

(** The lines printed after the loss line. *)
Definition is_tail_line (e : event) : Prop :=
  match e with
  | Print (LPrecision _) | Print (LRecall _) | Print (LF1 _)
  | Print (LConfusion _) => True
  | _ => False
  end.

Definition in_range (k : nat) (y : Z) : Prop := (0 <= y < Z.of_nat k)%Z.

(** The predicted classes of a batch of scores: the arg-max of each row. *)
Definition argmax_rows (k b : nat) (out : tensor) : list Z :=
  map (fun row => Z.of_nat (argmax row)) (chunks k b (data out)).

(** A batch whose scores are computed, have one row per label over [k]
    classes, and are accepted by the loss function. *)
Definition batch_scored (net : net_t) (loss_fn : loss_t) (ncrop : bool) (k : nat)
    (b : batch) (out : tensor) : Prop :=
  snd (evaluate_outputs net ncrop (fst b)) = inr out /\
  shape out = [length (snd b); k] /\
  wf out /\
  exists l, loss_fn out (snd b) = inr l.

(** Class [c] is the arg-max of sample [i] of the scores [out] over [k]
    classes: no class scores higher, and every class before [c] scores
    strictly lower. *)
Definition first_largest (k : nat) (out : tensor) (i c : nat) : Prop :=
  c < k /\
  forall j, j < k ->
    (nth (i * k + j) (data out) 0 <= nth (i * k + c) (data out) 0)%Q /\
    (j < c -> (nth (i * k + j) (data out) 0 < nth (i * k + c) (data out) 0)%Q).

(** [ps] holds, sample by sample, the arg-max class of the scores of one
    batch. *)
Definition batch_predictions (k : nat) (bo : batch * tensor) (ps : list Z) : Prop :=
  length ps = length (snd (fst bo)) /\
  forall i, i < length (snd (fst bo)) ->
    exists c, nth_error ps i = Some (Z.of_nat c) /\ first_largest k (snd bo) i c.

Definition predictions (k : nat) (dl : dataloader) (outs : list tensor) : list Z :=
  concat (map (fun p => argmax_rows k (length (snd (fst p))) (snd p))
              (combine dl outs)).

(** The images written by a run, in order. *)
Definition saved_images (tr : list event) : list (string * Z) :=
  flat_map (fun e => match e with
                     | Plt (Savefig path dpi) => [(path, dpi)]
                     | _ => []
                     end) tr.

(** The run up to the first split (lines 133-146). *)
Definition setup (w : world) (args : args_t)
  : M (module w * (dataloader * dataloader * dataloader)) :=
  model <- lift (get_model w (arch args)) ;;
  print (LModel (describe w model)) ;;
  ckpt <- lift (torch_load w (checkpoint args)) ;;
  sd <- lift (dict_get ckpt "model_state_dict") ;;
  model <- lift (load_state_dict w model sd) ;;
  loaders <- lift (get_dataloaders w false) ;;
  ret (model, loaders).

(** The three splits (lines 146-178), after [setup]. *)
Definition splits (w : world) (args : args_t) (model : module w)
    (loaders : dataloader * dataloader * dataloader) : M unit :=
  let dev := if cuda_is_available w then Cuda0 else Cpu in
  let '(train_loader, val_loader, test_loader) := loaders in
  print (LText "Train") ;;
  evaluate_and_draw (forward w model) train_loader (cross_entropy w) (Ncrop args) dev
    "Confusion Matrix on Training Set" "Confusion Matrix on Training Set.png" ;;
  plt Clf ;;
  print (LText "Val") ;;
  evaluate_and_draw (forward w model) val_loader (cross_entropy w) (Ncrop args) dev
    "Confusion Matrix on Val Set" "Confusion Matrix on Val Set.png" ;;
  plt Clf ;;
  print (LText "Test") ;;
  evaluate_and_draw (forward w model) test_loader (cross_entropy w) (Ncrop args) dev
    "Confusion Matrix on Test Set" "Confusion Matrix on Test Set.png".

(** Events of the renderer other than saving and clearing. *)
Definition is_drawing (e : event) : Prop :=
  match e with
  | Plt (Savefig _ _) | Plt Clf => False
  | Plt _ => True
  | _ => False
  end.

(** Events of [evaluate]: forward passes and report lines. *)
Definition is_metric (e : event) : Prop :=
  match e with
  | Forward _ => True
  | Print (LText _) | Print (LModel _) => False
  | Print _ => True
  | Plt _ => False
  end.

(** One split: the report of [evaluate], then the drawing, then the save. *)
Definition split_log (path : string) (s : list event) : Prop :=
  exists report body,
    s = report ++ body ++ [Plt (Savefig path 300)] /\
    Forall is_metric report /\ Forall is_drawing body.

(** Lines 146-178 as a sequence of three stages. *)
Definition in_order (x1 x2 x3 : M unit) : M unit :=
  print (LText "Train") ;; x1 ;;
  plt Clf ;; print (LText "Val") ;; x2 ;;
  plt Clf ;; print (LText "Test") ;; x3.

(** The report of a split of [n] batches: one forward pass per batch,
    then the eight lines of lines 121-128. *)
Definition evaluation_log (n : nat) (e : list event) : Prop :=
  exists fwd a1 a2 l p rc f cm,
    e = fwd ++ [Print LSeparator; Print (LTop1 a1); Print (LTop2 a2);
                Print (LLoss l); Print (LPrecision p); Print (LRecall rc);
                Print (LF1 f); Print (LConfusion cm)] /\
    Forall is_forward fwd /\
    length fwd = n.

Definition is_text (e : event) : Prop :=
  match e with Plt (Text _ _ _ _) => True | _ => False end.

(** The heat map of the matrix [cm]: the image of the matrix, the title,
    the axis labels and the four class names on both axes, the colour bar,
    one text per cell of the 4 x 4 grid, and the file written at 300 DPI. *)
Definition heat_map_log (cm : list (list Q)) (title path : string)
    (d : list event) : Prop :=
  exists cells,
    d = [Plt (Imshow cm); Plt (Title title); Plt (Xlabel "Predict label");
         Plt (Ylabel "Truth label"); Plt (Yticks 4 label_name);
         Plt (Xticks 4 label_name 45); Plt TightLayout; Plt Colorbar]
        ++ cells ++ [Plt (Savefig path 300)] /\
    Forall is_text cells /\
    length cells = 16.

(** The log [s] of one split: [evaluate] has run on the loader and
    returned the label sequences, and the renderer has drawn and saved the
    heat map of their row-normalized confusion matrix. *)
Definition split_evaluated (net : net_t) (loader : dataloader) (loss_fn : loss_t)
    (ncrop : bool) (dev : device) (title path : string) (s : list event) : Prop :=
  exists e d gt pr cm,
    evaluate net loader loss_fn ncrop dev = (e, inr (gt, pr)) /\
    confusion_matrix_true gt pr = inr cm /\
    draw_confusion_matrix gt pr label_name title (Some path) 300 = (d, inr tt) /\
    s = e ++ d /\
    evaluation_log (length loader) e /\
    heat_map_log cm title path d.

(** A pair of the sorted list carries the score of its index. *)
Definition scored (row : list Q) (p : nat * Q) : Prop := snd p = nth (fst p) row 0%Q.

(** The order of the sorted list: scores do not increase. *)
Definition by_score (x y : nat * Q) : Prop := (snd y <= snd x)%Q.

(** Classes of a row that score strictly higher than class [y]. *)
Definition above (row : list Q) (y : nat) : nat :=
  length (filter (fun j => negb (Qle_bool (nth j row 0%Q) (nth y row 0%Q)))
                 (seq 0 (length row))).

(** Classes of a row other than [y] that score at least as high as [y]. *)
Definition not_below (row : list Q) (y : nat) : nat :=
  length (filter (fun j => negb (j =? y) && Qle_bool (nth y row 0%Q) (nth j row 0%Q))
                 (seq 0 (length row))).

Definition is_class (row : list Q) (y : Z) : bool :=
  (0 <=? y)%Z && (Z.to_nat y <? length row).

(** Label [y] is among the [k] best classes whatever the order among
    equal scores: fewer than [k] other classes score at least as high. *)
Definition surely_in_topk (k : nat) (row : list Q) (y : Z) : bool :=
  is_class row y && (not_below row (Z.to_nat y) <? k).

(** Label [y] is among the [k] best classes for some order among equal
    scores: fewer than [k] classes score strictly higher. *)
Definition possibly_in_topk (k : nat) (row : list Q) (y : Z) : bool :=
  is_class row y && (above row (Z.to_nat y) <? k).

Definition count_samples (f : list Q -> Z -> bool) (rows : list (list Q))
    (labels : list Z) : nat :=
  count_true (map (fun p => f (fst p) (snd p)) (combine rows labels)).

Definition three_images : list (string * Z) :=
  [("Confusion Matrix on Training Set.png"%string, 300%Z);
   ("Confusion Matrix on Val Set.png"%string, 300%Z);
   ("Confusion Matrix on Test Set.png"%string, 300%Z)].

(** The specification's reading of lines 97-98, entry by entry: the score
    of class [j] for sample [b] is the sum over the [C] crops of the score
    the network gave to crop [i] of sample [b] (row [b*C + i] of the
    flattened batch), divided by [C]. *)
Definition crop_average (C K : nat) (out : list Q) (b j : nat) : Q :=
  (Qsum (map (fun i => nth ((b * C + i) * K + j) out 0%Q) (seq 0 C)) / Qnat C)%Q.

Definition tensor_eq (t1 t2 : tensor) : Prop :=
  shape t1 = shape t2 /\ Forall2 Qeq (data t1) (data t2).

Definition nat_sum (l : list nat) : nat := fold_right Nat.add 0 l.

Inductive increasing : list Z -> Prop :=
| inc_nil : increasing []
| inc_cons x l : Forall (Z.lt x) l -> increasing l -> increasing (x :: l).

End Embedding.

(* ================================================================== *)
(** ** A small concrete world, for running the definitions *)

Module Demo.

(** Classes of equal score in index order. *)
#[global] Instance index_order : Torch :=
  {| topk_tie := fun _ _ _ i j => i <? j |}.

(** A network on 1x2x2 images whose four class scores are the four
    pixels of the image. *)
Definition pixel_net : net_t := fun t =>
  match shape t with
  | [n; c; h; w] => inr (mkT [n; c * h * w] (data t))
  | _ => inl RuntimeError
  end.

(** A loss with mean reduction: the mean over the batch of one minus the
    score of the true class. *)
Definition margin_loss : loss_t := fun outputs labels =>
  match rows outputs with
  | inl e => inl e
  | inr rs =>
      if length rs =? length labels then
        inr (Qsum (map (fun p => (1 - nth (Z.to_nat (snd p)) (fst p) 0)%Q)
                       (combine rs labels))
             / Qnat (length labels))%Q
      else inl ValueError
  end.

(** Two crops per sample; the classes 0, 1, 2, 3 in turn. *)
Definition crops_batch_a : batch :=
  (mkT [2; 2; 1; 2; 2]
       [ 1; 0; 0; 0;   (3#4); 0; (1#4); 0;
         0; 1; 0; 0;   0; (1#2); (1#2); 0 ]%Q,
   [0; 1]%Z).

Definition crops_batch_b : batch :=
  (mkT [2; 2; 1; 2; 2]
       [ 0; 0; 1; 0;   0; (1#4); (3#4); 0;
         (1#2); 0; 0; (1#4);   (1#2); 0; 0; (1#4) ]%Q,
   [2; 3]%Z).

Definition crops_loader : dataloader := [crops_batch_a; crops_batch_b].

(** The same split with a single view of each sample (4-D batches). *)
Definition plain_batch_a : batch :=
  (mkT [2; 1; 2; 2] [ 1; 0; 0; 0;   0; 1; 0; 0 ]%Q, [0; 1]%Z).

Definition plain_batch_b : batch :=
  (mkT [2; 1; 2; 2] [ 0; 0; 1; 0;   (1#2); 0; 0; (1#4) ]%Q, [2; 3]%Z).

Definition plain_loader : dataloader := [plain_batch_a; plain_batch_b].

(** What the loop body computes on each batch of [crops_loader]. *)
Definition crops_stats : list batch_stat :=
  map (observed_stat pixel_net margin_loss true) crops_loader.

Definition plain_stats : list batch_stat :=
  map (observed_stat pixel_net margin_loss false) plain_loader.

Definition demo_world (loaders : dataloader * dataloader * dataloader) : world :=
  {| module := unit;
     state_dict := unit;
     cuda_is_available := false;
     get_model := fun _ => inr tt;
     describe := fun _ => "PixelNet"%string;
     torch_load := fun _ => inr [("model_state_dict"%string, tt)];
     load_state_dict := fun m _ => inr m;
     forward := fun _ => pixel_net;
     cross_entropy := margin_loss;
     get_dataloaders := fun _ => inr loaders |}.

(** Scores of two samples over four classes. *)
Definition two_rows : tensor :=
  mkT [2; 4] [1; 0; 0; 0; 0; (1 # 2); (1 # 4); 0]%Q.

(** One sample whose two best classes have the same score. *)
Definition tied_row : tensor := mkT [1; 4] [1; 1; 0; 0]%Q.

(** A world whose checkpoint file holds an optimizer state only. *)
Definition keyless_world : world :=
  {| module := unit;
     state_dict := unit;
     cuda_is_available := false;
     get_model := fun _ => inr tt;
     describe := fun _ => "PixelNet"%string;
     torch_load := fun _ => inr [("optimizer_state_dict"%string, tt)];
     load_state_dict := fun m _ => inr m;
     forward := fun _ => pixel_net;
     cross_entropy := margin_loss;
     get_dataloaders := fun _ => inr (crops_loader, crops_loader, crops_loader) |}.

End Demo.

(* ================================================================== *)
(** * Properties *)

Section Properties.

Context {T : Torch}.

(** ** The monad *)

Lemma bind_inr_inv {A B} (m : M A) (f : A -> M B) tr b :
  bind m f = (tr, inr b) ->
  exists tr1 a tr2, m = (tr1, inr a) /\ f a = (tr2, inr b) /\ tr = tr1 ++ tr2.
Proof.
  unfold bind. destruct m as [tr1 [e | a]]; [discriminate |].
  destruct (f a) as [tr2 r] eqn:Hf. intros H. inversion H; subst.
  exists tr1, a, tr2. auto.
Qed.

Lemma bind_ok {A B} (m : M A) (f : A -> M B) tr1 a :
  m = (tr1, inr a) -> bind m f = (tr1 ++ fst (f a), snd (f a)).
Proof. intros ->. unfold bind. destruct (f a); reflexivity. Qed.

Lemma bind_err {A B} (m : M A) (f : A -> M B) tr1 e :
  m = (tr1, inl e) -> bind m f = (tr1, inl e).
Proof. intros ->. reflexivity. Qed.

Lemma bind_lift_inr {A B} (a : A) (f : A -> M B) : bind (lift (inr a)) f = f a.
Proof. unfold bind, lift. destruct (f a); reflexivity. Qed.

Lemma bind_lift_inl {A B} e (f : A -> M B) : bind (lift (inl e)) f = ([], inl e).
Proof. reflexivity. Qed.

Lemma bind_emit {B} ev (f : unit -> M B) :
  bind (emit ev) f = (ev :: fst (f tt), snd (f tt)).
Proof. unfold bind, emit. destruct (f tt); reflexivity. Qed.

Lemma fst_bind {A B} (m : M A) (f : A -> M B) :
  fst (bind m f) =
  fst m ++ match snd m with inl _ => [] | inr a => fst (f a) end.
Proof.
  unfold bind. destruct m as [tr [e | a]]; simpl.
  - now rewrite app_nil_r.
  - destruct (f a); reflexivity.
Qed.

Lemma snd_bind {A B} (m : M A) (f : A -> M B) :
  snd (bind m f) = match snd m with inl e => inl e | inr a => snd (f a) end.
Proof.
  unfold bind. destruct m as [tr [e | a]]; simpl; [reflexivity |].
  destruct (f a); reflexivity.
Qed.

Lemma logs_bind {A B} P (m : M A) (f : A -> M B) :
  logs P m -> (forall a, logs P (f a)) -> logs P (bind m f).
Proof.
  unfold logs. intros Hm Hf. rewrite fst_bind. apply Forall_app. split; auto.
  destruct (snd m); auto.
Qed.

Lemma logs_lift {A} P (r : result A) : logs P (lift r).
Proof. constructor. Qed.

Lemma logs_ret {A} P (a : A) : logs P (ret a).
Proof. constructor. Qed.

Lemma logs_raise {A} P e : logs P (@raise A e).
Proof. constructor. Qed.

Lemma logs_emit P ev : P ev -> logs P (emit ev).
Proof. intros H. constructor; [exact H | constructor]. Qed.

Lemma logs_for_each {A S} P (body : S -> A -> M S) xs :
  (forall st x, logs P (body st x)) -> forall st, logs P (for_each body xs st).
Proof.
  intros Hb. induction xs as [| x xs IH]; intros st; simpl.
  - apply logs_ret.
  - apply logs_bind; auto.
Qed.

Create HintDb logs.
#[local] Hint Resolve logs_lift logs_ret logs_raise logs_emit : logs.

(** ** The loop: what the accumulators hold *)

Lemma length_all_labels dl : length (all_labels dl) = total_samples dl.
Proof.
  induction dl as [| [i l] dl IH]; simpl; [reflexivity |].
  unfold all_labels in *. simpl. rewrite length_app, IH. reflexivity.
Qed.

Lemma logs_call net inputs : logs is_forward (call net inputs).
Proof. unfold call. apply logs_bind; auto with logs. intros; apply logs_emit; exact I. Qed.

Lemma logs_evaluate_outputs net ncrop inputs :
  logs is_forward (evaluate_outputs net ncrop inputs).
Proof.
  unfold evaluate_outputs. destruct ncrop; [| apply logs_call].
  destruct (shape inputs) as [| ? [| ? [| ? [| ? [| ? [| ? ?]]]]]]; auto with logs.
  repeat (apply logs_bind; auto using logs_call with logs; intros).
Qed.

Lemma evaluate_metrics_no_log loss_fn st outputs labels :
  fst (evaluate_metrics loss_fn st outputs labels) = [].
Proof.
  unfold evaluate_metrics.
  destruct (loss_fn outputs labels) as [e | l]; [reflexivity |].
  rewrite bind_lift_inr.
  destruct (correct_count outputs labels [1; 2]) as [e | cs]; [reflexivity |].
  rewrite bind_lift_inr.
  destruct cs as [| c1 [| c2 [| ? ?]]]; try reflexivity.
  destruct (max_dim1 outputs) as [e | p]; reflexivity.
Qed.

Lemma logs_evaluate_batch net loss_fn ncrop st b :
  logs is_forward (evaluate_batch net loss_fn ncrop st b).
Proof.
  destruct b as [inputs labels]. unfold evaluate_batch.
  apply logs_bind; [apply logs_evaluate_outputs |].
  intros out. unfold logs. rewrite evaluate_metrics_no_log. constructor.
Qed.

Lemma logs_loop net loss_fn ncrop dl st :
  logs is_forward (for_each (evaluate_batch net loss_fn ncrop) dl st).
Proof. apply logs_for_each. intros; apply logs_evaluate_batch. Qed.

Lemma evaluate_metrics_run loss_fn st out labels s :
  loss_fn out labels = inr (b_loss s) ->
  correct_count out labels [1; 2] = inr [b_c1 s; b_c2 s] ->
  max_dim1 out = inr (b_preds s) ->
  evaluate_metrics loss_fn st out labels =
  ([], inr (mkCounters (loss_tr st + b_loss s)
                       (n_samples st + Qnat (length labels))
                       (y_pred st ++ b_preds s)
                       (y_gt st ++ labels)
                       (correct_count1 st + b_c1 s)
                       (correct_count2 st + b_c2 s))).
Proof.
  intros Hl Hc Hm. unfold evaluate_metrics.
  rewrite Hl, bind_lift_inr, Hc, bind_lift_inr, Hm, bind_lift_inr. reflexivity.
Qed.

Lemma evaluate_metrics_inv loss_fn st out labels st' :
  snd (evaluate_metrics loss_fn st out labels) = inr st' ->
  exists l c1 c2 preds,
    loss_fn out labels = inr l /\
    correct_count out labels [1; 2] = inr [c1; c2] /\
    max_dim1 out = inr preds /\
    st' = mkCounters (loss_tr st + l) (n_samples st + Qnat (length labels))
                     (y_pred st ++ preds) (y_gt st ++ labels)
                     (correct_count1 st + c1) (correct_count2 st + c2).
Proof.
  unfold evaluate_metrics.
  destruct (loss_fn out labels) as [e | l]; [discriminate |].
  rewrite bind_lift_inr.
  destruct (correct_count out labels [1; 2]) as [e | cs]; [discriminate |].
  rewrite bind_lift_inr.
  destruct cs as [| c1 [| c2 [| ? ?]]]; try discriminate.
  destruct (max_dim1 out) as [e | preds]; [discriminate |].
  rewrite bind_lift_inr. simpl. intros H. inversion H; subst.
  exists l, c1, c2, preds. auto.
Qed.

Lemma evaluate_batch_run net loss_fn ncrop st b s :
  batch_run net loss_fn ncrop b s ->
  snd (evaluate_batch net loss_fn ncrop st b) = inr (step st b s).
Proof.
  destruct b as [inputs labels]. intros (Ho & Hl & Hc & Hm). simpl in *.
  unfold evaluate_batch. rewrite snd_bind, Ho.
  rewrite (evaluate_metrics_run _ _ _ _ s Hl Hc Hm). reflexivity.
Qed.

Lemma evaluate_batch_inv net loss_fn ncrop st b st' :
  snd (evaluate_batch net loss_fn ncrop st b) = inr st' ->
  exists s, batch_run net loss_fn ncrop b s /\ st' = step st b s.
Proof.
  destruct b as [inputs labels]. unfold evaluate_batch. rewrite snd_bind.
  destruct (snd (evaluate_outputs net ncrop inputs)) as [e | out] eqn:Ho;
    [discriminate |].
  intros H. apply evaluate_metrics_inv in H.
  destruct H as (l & c1 & c2 & preds & Hl & Hc & Hm & ->).
  exists (mkStat out l c1 c2 preds). split; [| reflexivity].
  repeat split; assumption.
Qed.

Lemma snd_for_each_cons {A S} (body : S -> A -> M S) x xs st :
  snd (for_each body (x :: xs) st) =
  match snd (body st x) with
  | inl e => inl e
  | inr st' => snd (for_each body xs st')
  end.
Proof. simpl. apply snd_bind. Qed.

Lemma loop_run net loss_fn ncrop dl stats :
  Forall2 (batch_run net loss_fn ncrop) dl stats ->
  forall st,
    snd (for_each (evaluate_batch net loss_fn ncrop) dl st)
    = inr (accumulate st dl stats).
Proof.
  induction 1 as [| b s dl stats Hb _ IH]; intros st; [reflexivity |].
  rewrite snd_for_each_cons, (evaluate_batch_run _ _ _ _ _ _ Hb). apply IH.
Qed.

Lemma loop_inv net loss_fn ncrop dl :
  forall st st',
    snd (for_each (evaluate_batch net loss_fn ncrop) dl st) = inr st' ->
    exists stats,
      Forall2 (batch_run net loss_fn ncrop) dl stats /\
      st' = accumulate st dl stats.
Proof.
  induction dl as [| b dl IH]; intros st st' H.
  - simpl in H. inversion H; subst. exists []. split; constructor.
  - rewrite snd_for_each_cons in H.
    destruct (snd (evaluate_batch net loss_fn ncrop st b)) as [e | st1] eqn:Hb;
      [discriminate |].
    apply evaluate_batch_inv in Hb. destruct Hb as (s & Hs & ->).
    apply IH in H. destruct H as (stats & HF & ->).
    exists (s :: stats). split; [constructor; assumption | reflexivity].
Qed.

(** The accumulators after the loop, field by field. *)
Lemma accumulate_y_gt dl : forall stats st,
  length dl = length stats ->
  y_gt (accumulate st dl stats) = y_gt st ++ all_labels dl.
Proof.
  induction dl as [| b dl IH]; intros [| s stats] st Hlen; simpl in *;
    try discriminate; try (now rewrite app_nil_r).
  rewrite IH by lia. simpl. unfold all_labels. simpl. now rewrite app_assoc.
Qed.

Lemma accumulate_y_pred dl : forall stats st,
  length dl = length stats ->
  y_pred (accumulate st dl stats) = y_pred st ++ flat_map b_preds stats.
Proof.
  induction dl as [| b dl IH]; intros [| s stats] st Hlen; simpl in *;
    try discriminate; try (now rewrite app_nil_r).
  rewrite IH by lia. simpl. now rewrite app_assoc.
Qed.

Lemma Qnat_add a b : (Qnat (a + b) == Qnat a + Qnat b)%Q.
Proof. unfold Qnat. rewrite Nat2Z.inj_add, inject_Z_plus. reflexivity. Qed.

Lemma accumulate_n_samples dl : forall stats st,
  length dl = length stats ->
  (n_samples (accumulate st dl stats) == n_samples st + Qnat (total_samples dl))%Q.
Proof.
  induction dl as [| b dl IH]; intros [| s stats] st Hlen; simpl in *;
    try discriminate.
  - unfold Qnat. simpl. ring.
  - rewrite IH by lia. simpl. rewrite Qnat_add. ring.
Qed.

Lemma accumulate_loss dl : forall stats st,
  length dl = length stats ->
  (loss_tr (accumulate st dl stats) == loss_tr st + Qsum (map b_loss stats))%Q.
Proof.
  induction dl as [| b dl IH]; intros [| s stats] st Hlen; simpl in *;
    try discriminate.
  - ring.
  - rewrite IH by lia. simpl. ring.
Qed.

Lemma accumulate_c1 dl : forall stats st,
  length dl = length stats ->
  (correct_count1 (accumulate st dl stats)
   == correct_count1 st + Qsum (map b_c1 stats))%Q.
Proof.
  induction dl as [| b dl IH]; intros [| s stats] st Hlen; simpl in *;
    try discriminate.
  - ring.
  - rewrite IH by lia. simpl. ring.
Qed.

Lemma accumulate_c2 dl : forall stats st,
  length dl = length stats ->
  (correct_count2 (accumulate st dl stats)
   == correct_count2 st + Qsum (map b_c2 stats))%Q.
Proof.
  induction dl as [| b dl IH]; intros [| s stats] st Hlen; simpl in *;
    try discriminate.
  - ring.
  - rewrite IH by lia. simpl. ring.
Qed.

(** ** The report at the end of the loop *)

Lemma evaluate_report_zero st :
  (n_samples st == 0)%Q -> evaluate_report st = ([], inl ZeroDivisionError).
Proof.
  intros H. unfold evaluate_report, py_div.
  apply Qeq_bool_iff in H. rewrite H. reflexivity.
Qed.

Lemma evaluate_report_nonzero st :
  ~ (n_samples st == 0)%Q ->
  evaluate_report st =
  ([Print LSeparator;
    Print (LTop1 (100 * correct_count1 st / n_samples st));
    Print (LTop2 (100 * correct_count2 st / n_samples st));
    Print (LLoss (loss_tr st / n_samples st))] ++ fst (report_tail st),
   snd (report_tail st)).
Proof.
  intros H. unfold evaluate_report, py_div.
  destruct (Qeq_bool (n_samples st) 0) eqn:E.
  - apply Qeq_bool_iff in E. contradiction.
  - rewrite !bind_lift_inr. unfold print. rewrite !bind_emit. reflexivity.
Qed.

Lemma report_tail_ok st :
  length (y_gt st) = length (y_pred st) ->
  0 < length (y_gt st) ->
  exists tr, report_tail st = (tr, inr (y_gt st, y_pred st)) /\ Forall is_print tr.
Proof.
  intros H Hpos. unfold report_tail, precision_score, recall_score, f1_score,
    micro_score, confusion_matrix, check_consistent_length, check_targets.
  apply Nat.eqb_eq in H. rewrite H.
  destruct (length (y_gt st) =? 0) eqn:E0; [apply Nat.eqb_eq in E0; lia |].
  rewrite !bind_lift_inr. unfold print. rewrite !bind_emit. simpl.
  eexists. split; [reflexivity |]. repeat constructor.
Qed.

Lemma logs_report_tail st : logs is_print (report_tail st).
Proof.
  unfold report_tail, print.
  repeat (apply logs_bind; [auto with logs | intros]); auto with logs.
  all: try (apply logs_emit; exact I).
Qed.

Lemma evaluate_unfold net dl loss_fn ncrop dev :
  evaluate net dl loss_fn ncrop dev =
  bind (for_each (evaluate_batch net loss_fn ncrop) dl init_counters)
       evaluate_report.
Proof. reflexivity. Qed.

Lemma Qnat_0 : (Qnat 0 == 0)%Q.
Proof. reflexivity. Qed.

Lemma Qnat_pos n : 0 < n -> (0 < Qnat n)%Q.
Proof.
  intros H. unfold Qnat, Qlt. simpl. lia.
Qed.

(** C7. [evaluate] has no handler: on a split without samples the run ends
    in an exception, and nothing has been printed and nothing is returned.
    When the loop itself runs through (as it does on a loader that yields
    no batch), the exception is the [ZeroDivisionError] of line 118. *)
Theorem evaluate_empty_split net dl loss_fn ncrop dev :
  total_samples dl = 0 ->
  exists tr e,
    evaluate net dl loss_fn ncrop dev = (tr, inl e) /\
    Forall is_forward tr /\
    (forall st,
        snd (for_each (evaluate_batch net loss_fn ncrop) dl init_counters) = inr st ->
        e = ZeroDivisionError) /\
    (dl = [] -> tr = [] /\ e = ZeroDivisionError).
Proof.
  intros Hn. rewrite evaluate_unfold.
  pose proof (logs_loop net loss_fn ncrop dl init_counters) as Hlog.
  destruct (for_each (evaluate_batch net loss_fn ncrop) dl init_counters)
    as [tr [e | st]] eqn:Hloop; unfold logs in Hlog; simpl in Hlog.
  - exists tr, e. split; [reflexivity |]. split; [assumption |].
    split; [intros st H; simpl in H; discriminate |].
    intros ->. simpl in Hloop. discriminate.
  - assert (Hst : (n_samples st == 0)%Q).
    { assert (H : snd (for_each (evaluate_batch net loss_fn ncrop) dl init_counters)
                  = inr st) by now rewrite Hloop.
      apply loop_inv in H. destruct H as (stats & HF & ->).
      rewrite accumulate_n_samples by (eapply Forall2_length; eauto).
      rewrite Hn. simpl. reflexivity. }
    exists tr, ZeroDivisionError.
    unfold bind. rewrite (evaluate_report_zero st Hst), app_nil_r.
    split; [reflexivity |]. split; [assumption |]. split; [reflexivity |].
    intros ->. simpl in Hloop. inversion Hloop. auto.
Qed.

(** ** Top-k counts *)

Lemma count_true_app l1 l2 : count_true (l1 ++ l2) = count_true l1 + count_true l2.
Proof. unfold count_true. now rewrite filter_app, length_app. Qed.

Lemma correct_k_mono (correct : list (list bool)) k k' :
  k <= k' -> correct_k correct k <= correct_k correct k'.
Proof.
  intros Hk. unfold correct_k.
  rewrite <- (firstn_skipn k (firstn k' correct)).
  rewrite firstn_firstn, Nat.min_l by assumption.
  rewrite concat_app, count_true_app. lia.
Qed.

Lemma Qnat_le a b : a <= b -> (Qnat a <= Qnat b)%Q.
Proof. intros H. unfold Qnat. rewrite <- Zle_Qle. lia. Qed.

Lemma Qnat_nonneg a : (0 <= Qnat a)%Q.
Proof. apply (Qnat_le 0 a). lia. Qed.

(** The matrix [correct] of line 30, when [correct_count] returns. *)
Lemma correct_count_12 out labels c1 c2 :
  correct_count out labels [1; 2] = inr [c1; c2] ->
  exists correct : list (list bool),
    c1 = Qnat (correct_k correct 1) /\ c2 = Qnat (correct_k correct 2).
Proof.
  unfold correct_count. simpl fold_left.
  destruct (topk out 2) as [e | pred]; [discriminate |].
  destruct (expand_target labels (length pred)) as [e | tgt]; [discriminate |].
  intros H. inversion H; subst. eexists. split; reflexivity.
Qed.

(** Every sample counted at top-1 is counted at top-2. *)
Lemma correct_count_top1_le_top2 out labels c1 c2 :
  correct_count out labels [1; 2] = inr [c1; c2] ->
  (0 <= c1 /\ c1 <= c2)%Q.
Proof.
  intros H. apply correct_count_12 in H. destruct H as (correct & -> & ->).
  split; [apply Qnat_nonneg | apply Qnat_le, correct_k_mono; lia].
Qed.

Lemma Qsum_le_pointwise {A} (f g : A -> Q) l :
  Forall (fun x => (f x <= g x)%Q) l -> (Qsum (map f l) <= Qsum (map g l))%Q.
Proof.
  induction 1 as [| x l Hx _ IH]; simpl; [apply Qle_refl |].
  apply Qplus_le_compat; assumption.
Qed.

Lemma batch_run_counts net loss_fn ncrop dl stats :
  Forall2 (batch_run net loss_fn ncrop) dl stats ->
  Forall (fun s => (b_c1 s <= b_c2 s)%Q) stats.
Proof.
  induction 1 as [| b s dl stats Hb _ IH]; constructor; [| assumption].
  destruct Hb as (_ & _ & Hc & _).
  now apply correct_count_top1_le_top2 in Hc.
Qed.

(** ** The printed means *)

Lemma accumulate_init_n dl stats :
  length dl = length stats ->
  (n_samples (accumulate init_counters dl stats) == Qnat (total_samples dl))%Q.
Proof. intros H. rewrite accumulate_n_samples by assumption. simpl. ring. Qed.

Lemma accumulate_init_loss dl stats :
  length dl = length stats ->
  (loss_tr (accumulate init_counters dl stats) == Qsum (map b_loss stats))%Q.
Proof. intros H. rewrite accumulate_loss by assumption. simpl. ring. Qed.

Lemma accumulate_init_c1 dl stats :
  length dl = length stats ->
  (correct_count1 (accumulate init_counters dl stats) == Qsum (map b_c1 stats))%Q.
Proof. intros H. rewrite accumulate_c1 by assumption. simpl. ring. Qed.

Lemma accumulate_init_c2 dl stats :
  length dl = length stats ->
  (correct_count2 (accumulate init_counters dl stats) == Qsum (map b_c2 stats))%Q.
Proof. intros H. rewrite accumulate_c2 by assumption. simpl. ring. Qed.

Lemma Qnat_nonzero n : 0 < n -> ~ (Qnat n == 0)%Q.
Proof.
  intros H E. apply Qnat_pos in H. rewrite E in H. now apply Qlt_irrefl in H.
Qed.

(** C2. When every batch of the split is evaluated and the split has a
    sample, the report is printed after the forward passes, and in it the
    loss is the sum of the per-batch losses over the number of samples and
    the top-k accuracy is 100 times the top-k count over the number of
    samples. *)
Theorem evaluate_prints_means net dl loss_fn ncrop dev stats :
  Forall2 (batch_run net loss_fn ncrop) dl stats ->
  0 < total_samples dl ->
  exists fwd a1 a2 l rest r,
    evaluate net dl loss_fn ncrop dev = (fwd ++ report_head a1 a2 l ++ rest, r) /\
    Forall is_forward fwd /\
    Forall is_print rest /\
    (l == Qsum (map b_loss stats) / Qnat (total_samples dl))%Q /\
    (a1 == 100 * Qsum (map b_c1 stats) / Qnat (total_samples dl))%Q /\
    (a2 == 100 * Qsum (map b_c2 stats) / Qnat (total_samples dl))%Q.
Proof.
  intros HF Hpos. rewrite evaluate_unfold.
  pose proof (logs_loop net loss_fn ncrop dl init_counters) as Hlog.
  pose proof (loop_run _ _ _ _ _ HF init_counters) as Hrun.
  pose proof (Forall2_length HF) as Hlen.
  destruct (for_each (evaluate_batch net loss_fn ncrop) dl init_counters)
    as [fwd res] eqn:Hloop.
  unfold logs in Hlog. simpl in Hlog, Hrun. subst res.
  set (st := accumulate init_counters dl stats).
  assert (Hn : (n_samples st == Qnat (total_samples dl))%Q)
    by (apply accumulate_init_n; assumption).
  assert (Hnz : ~ (n_samples st == 0)%Q).
  { rewrite Hn. apply Qnat_nonzero. assumption. }
  unfold bind. rewrite (evaluate_report_nonzero st Hnz).
  exists fwd, (100 * correct_count1 st / n_samples st)%Q,
    (100 * correct_count2 st / n_samples st)%Q,
    (loss_tr st / n_samples st)%Q, (fst (report_tail st)), (snd (report_tail st)).
  split; [reflexivity |]. split; [assumption |].
  split; [apply logs_report_tail |].
  unfold st in *.
  rewrite Hn.
  rewrite (accumulate_init_loss dl stats Hlen),
          (accumulate_init_c1 dl stats Hlen),
          (accumulate_init_c2 dl stats Hlen).
  repeat split; reflexivity.
Qed.

Lemma logs_report_tail_lines st : logs is_tail_line (report_tail st).
Proof.
  unfold report_tail, print.
  repeat (apply logs_bind; [auto with logs | intros]); auto with logs.
  all: try (apply logs_emit; exact I).
Qed.

Lemma accuracy_le (c1 c2 n : Q) :
  (c1 <= c2)%Q -> (0 < n)%Q -> (100 * c1 / n <= 100 * c2 / n)%Q.
Proof.
  intros Hc Hn. unfold Qdiv. apply Qmult_le_compat_r.
  - apply Qmult_le_l; [reflexivity | assumption].
  - apply Qlt_le_weak, Qinv_lt_0_compat, Hn.
Qed.

(** C3. Whenever [evaluate] prints the two accuracies, top-1 is at most
    top-2: batch by batch the rows of [correct] summed for top-1 are among
    those summed for top-2 ([correct_count_top1_le_top2]), and both totals
    are divided by the same positive sample count. *)
Theorem evaluate_top1_le_top2 net dl loss_fn ncrop dev tr r a1 a2 :
  evaluate net dl loss_fn ncrop dev = (tr, r) ->
  In (Print (LTop1 a1)) tr ->
  In (Print (LTop2 a2)) tr ->
  (a1 <= a2)%Q.
Proof.
  rewrite evaluate_unfold. intros Hev H1 H2.
  pose proof (logs_loop net loss_fn ncrop dl init_counters) as Hlog.
  destruct (for_each (evaluate_batch net loss_fn ncrop) dl init_counters)
    as [fwd [e | st]] eqn:Hloop; unfold logs in Hlog; simpl in Hlog.
  - simpl in Hev. inversion Hev; subst.
    rewrite Forall_forall in Hlog. apply Hlog in H1. contradiction.
  - assert (Hst : snd (for_each (evaluate_batch net loss_fn ncrop) dl init_counters)
                  = inr st) by now rewrite Hloop.
    apply loop_inv in Hst. destruct Hst as (stats & HF & Hacc).
    pose proof (Forall2_length HF) as Hlen.
    unfold bind in Hev.
    destruct (Qeq_dec (n_samples st) 0) as [Hz | Hnz].
    + rewrite (evaluate_report_zero st Hz), app_nil_r in Hev.
      inversion Hev; subst tr.
      rewrite Forall_forall in Hlog. apply Hlog in H1. contradiction.
    + rewrite (evaluate_report_nonzero st Hnz) in Hev. inversion Hev; subst tr r.
      clear Hev.
      pose proof (logs_report_tail_lines st) as Htail. unfold logs in Htail.
      rewrite Forall_forall in Hlog, Htail.
      assert (E1 : a1 = (100 * correct_count1 st / n_samples st)%Q).
      { apply in_app_or in H1. destruct H1 as [H1 | H1];
          [apply Hlog in H1; contradiction |].
        simpl in H1.
        destruct H1 as [H1 | [H1 | [H1 | [H1 | H1]]]]; try discriminate.
        - now inversion H1.
        - apply Htail in H1. contradiction. }
      assert (E2 : a2 = (100 * correct_count2 st / n_samples st)%Q).
      { apply in_app_or in H2. destruct H2 as [H2 | H2];
          [apply Hlog in H2; contradiction |].
        simpl in H2.
        destruct H2 as [H2 | [H2 | [H2 | [H2 | H2]]]]; try discriminate.
        - now inversion H2.
        - apply Htail in H2. contradiction. }
      subst a1 a2. apply accuracy_le.
      * rewrite Hacc, (accumulate_init_c1 dl stats Hlen),
          (accumulate_init_c2 dl stats Hlen).
        apply Qsum_le_pointwise. eapply batch_run_counts; eassumption.
      * assert (Hn : (n_samples st == Qnat (total_samples dl))%Q)
          by (rewrite Hacc; apply accumulate_init_n; assumption).
        rewrite Hn.
        destruct (total_samples dl) as [| n] eqn:En.
        -- exfalso. apply Hnz. rewrite Hn. reflexivity.
        -- apply Qnat_pos. lia.
Qed.

(** ** Rows, blocks and the crop average *)

Lemma chunks_seq {A} n k : forall l : list A,
  chunks n k l = map (fun i => firstn n (skipn (i * n) l)) (seq 0 k).
Proof.
  induction k as [| k IH]; intros l; [reflexivity |].
  cbn [chunks]. rewrite IH. cbn [seq map]. f_equal.
  rewrite <- seq_shift, map_map. apply map_ext. intros i.
  rewrite skipn_skipn. f_equal. f_equal. simpl. lia.
Qed.

Lemma nth_chunks {A} n k (l : list A) i :
  i < k -> nth i (chunks n k l) [] = firstn n (skipn (i * n) l).
Proof.
  intros H. rewrite chunks_seq.
  set (f := fun i => firstn n (skipn (i * n) l)).
  transitivity (nth i (map f (seq 0 k)) (f 0)).
  - apply nth_indep. now rewrite length_map, length_seq.
  - rewrite (map_nth f), seq_nth by assumption. reflexivity.
Qed.

Lemma nth_block {A} n m (l : list A) j d :
  j < n -> nth j (firstn n (skipn m l)) d = nth (m + j) l d.
Proof.
  intros H. rewrite nth_firstn.
  destruct (j <? n) eqn:E; [apply nth_skipn |].
  apply Nat.ltb_ge in E. lia.
Qed.

Lemma length_block {A} n m (l : list A) :
  m + n <= length l -> length (firstn n (skipn m l)) = n.
Proof. intros H. rewrite length_firstn, length_skipn. lia. Qed.

Lemma length_vadd u v : length (vadd u v) = Nat.min (length u) (length v).
Proof.
  revert v. induction u as [| x u IH]; intros [| y v]; simpl; auto.
Qed.

Lemma nth_vadd u v j :
  j < length u -> j < length v ->
  nth j (vadd u v) 0%Q = (nth j u 0 + nth j v 0)%Q.
Proof.
  revert v j. induction u as [| x u IH]; intros [| y v] [| j] Hu Hv;
    simpl in *; try lia; try reflexivity.
  apply IH; lia.
Qed.

Lemma length_fold_vadd n rows : forall acc,
  length acc = n -> Forall (fun row => length row = n) rows ->
  length (fold_left vadd rows acc) = n.
Proof.
  induction rows as [| row rows IH]; intros acc Ha Hr; simpl; [assumption |].
  inversion Hr; subst. apply IH; [| assumption].
  rewrite length_vadd. lia.
Qed.

Lemma nth_fold_vadd n rows j : forall acc,
  j < n -> length acc = n -> Forall (fun row => length row = n) rows ->
  (nth j (fold_left vadd rows acc) 0
   == nth j acc 0 + Qsum (map (fun row => nth j row 0%Q) rows))%Q.
Proof.
  induction rows as [| row rows IH]; intros acc Hj Ha Hr; simpl.
  - ring.
  - inversion Hr as [| ? ? Hrow Hrows]; subst.
    rewrite IH; try assumption.
    + rewrite nth_vadd by lia. ring.
    + rewrite length_vadd. lia.
Qed.

Lemma nth_repeat_zero n j : nth j (repeat 0%Q n) 0%Q = 0%Q.
Proof.
  revert j. induction n as [| n IH]; intros [| j]; simpl; auto.
Qed.

Lemma nth_flat_map_uniform {A} (f : A -> list Q) n l : forall b j a0,
  Forall (fun a => length (f a) = n) l ->
  b < length l -> j < n ->
  nth (b * n + j) (flat_map f l) 0%Q = nth j (f (nth b l a0)) 0%Q.
Proof.
  induction l as [| a l IH]; intros b j a0 Hf Hb Hj; simpl in Hb; [lia |].
  apply Forall_cons_iff in Hf. destruct Hf as [Ha Hl]. cbn [flat_map].
  destruct b as [| b].
  - cbn [Nat.mul Nat.add nth]. rewrite app_nth1 by lia. reflexivity.
  - rewrite app_nth2 by (rewrite Ha; simpl; lia).
    replace (S b * n + j - length (f a)) with (b * n + j)
      by (rewrite Ha; simpl; lia).
    cbn [nth]. apply IH; try assumption; lia.
Qed.

Lemma length_flat_map_uniform {A B} (f : A -> list B) n l :
  Forall (fun a => length (f a) = n) l ->
  length (flat_map f l) = length l * n.
Proof.
  induction 1 as [| a l Ha _ IH]; simpl; [reflexivity |].
  rewrite length_app, Ha, IH. reflexivity.
Qed.

(** The blocks of a full tensor all have full length. *)
Lemma chunks_full {A} n k (l : list A) :
  k * n <= length l -> Forall (fun row => length row = n) (chunks n k l).
Proof.
  intros H. rewrite chunks_seq. apply Forall_map, Forall_forall.
  intros i Hi. apply in_seq in Hi. apply length_block. nia.
Qed.

(** ** Arg-max and the label sequences *)

Lemma length_chunks {A} n k (l : list A) : length (chunks n k l) = k.
Proof. revert l. induction k; intros l; simpl; auto. Qed.

Lemma chunks_row_length {A} n k (l : list A) :
  Forall (fun row => length row <= n) (chunks n k l).
Proof.
  revert l. induction k as [| k IH]; intros l; simpl; constructor; auto.
  rewrite length_firstn. lia.
Qed.

Lemma argmax_from_spec l : forall i bi best,
  let r := argmax_from i bi best l in
  (r = bi /\ Forall (fun x => (x <= best)%Q) l) \/
  (exists j, r = i + j /\ j < length l /\ (best <= nth j l 0)%Q /\
             Forall (fun x => (x <= nth j l 0)%Q) l).
Proof.
  induction l as [| x l IH]; intros i bi best; simpl.
  - left. split; [reflexivity | constructor].
  - destruct (Qle_bool x best) eqn:E.
    + apply Qle_bool_iff in E.
      destruct (IH (S i) bi best) as [[Hr Hall] | (j & Hr & Hj & Hb & Hall)].
      * left. split; [assumption | constructor; assumption].
      * right. exists (S j). simpl. repeat split; try assumption; try lia.
        constructor; [eapply Qle_trans; eassumption | assumption].
    + assert (Hlt : (best <= x)%Q).
      { destruct (Qlt_le_dec best x) as [H | H]; [apply Qlt_le_weak, H |].
        apply Qle_bool_iff in H. congruence. }
      destruct (IH (S i) i x) as [[Hr Hall] | (j & Hr & Hj & Hb & Hall)].
      * right. exists 0. simpl. repeat split; try assumption; try lia.
        constructor; [apply Qle_refl | assumption].
      * right. exists (S j). simpl. repeat split; try assumption; try lia.
        -- eapply Qle_trans; eassumption.
        -- constructor; assumption.
Qed.

(** [argmax] picks a position of the row that holds a largest score. *)
Lemma argmax_is_max row :
  row <> [] ->
  argmax row < length row /\
  Forall (fun x => (x <= nth (argmax row) row 0)%Q) row.
Proof.
  destruct row as [| x l]; [congruence | intros _]. unfold argmax.
  destruct (argmax_from_spec l 1 0 x) as [[Hr Hall] | (j & Hr & Hj & Hb & Hall)];
    rewrite Hr; simpl.
  - split; [lia |]. constructor; [apply Qle_refl | assumption].
  - split; [lia |]. constructor; assumption.
Qed.

Lemma argmax_bound row n : length row <= n -> 0 < n -> argmax row < n.
Proof.
  intros Hl Hn. destruct row as [| x l]; [simpl; lia |].
  assert (H : x :: l <> []) by congruence.
  apply argmax_is_max in H. lia.
Qed.

Lemma argmax_rows_in_range k b out :
  0 < k -> Forall (in_range k) (argmax_rows k b out).
Proof.
  intros Hk. unfold argmax_rows. apply Forall_map.
  eapply Forall_impl; [| apply chunks_row_length].
  intros row Hrow. simpl. unfold in_range.
  pose proof (argmax_bound row k Hrow Hk). lia.
Qed.

Lemma length_argmax_rows k b out : length (argmax_rows k b out) = b.
Proof. unfold argmax_rows. now rewrite length_map, length_chunks. Qed.

Lemma correct_count_ok out labels k :
  shape out = [length labels; k] -> 2 <= k ->
  exists c1 c2, correct_count out labels [1; 2] = inr [c1; c2].
Proof.
  intros Hs Hk. unfold correct_count, topk. simpl fold_left. rewrite Hs.
  destruct (k <? 2) eqn:E; [apply Nat.ltb_lt in E; lia |].
  rewrite length_map, length_seq.
  unfold expand_target. rewrite Nat.eqb_refl.
  eexists _, _. reflexivity.
Qed.

Lemma max_dim1_ok out b k :
  shape out = [b; k] -> 0 < k -> max_dim1 out = inr (argmax_rows k b out).
Proof.
  intros Hs Hk. unfold max_dim1. rewrite Hs.
  destruct (k =? 0) eqn:E; [apply Nat.eqb_eq in E; lia | reflexivity].
Qed.

Lemma batch_scored_run net loss_fn ncrop k dl outs :
  2 <= k ->
  Forall2 (batch_scored net loss_fn ncrop k) dl outs ->
  exists stats,
    Forall2 (batch_run net loss_fn ncrop) dl stats /\
    flat_map b_preds stats
    = concat (map (fun p => argmax_rows k (length (snd (fst p))) (snd p))
                  (combine dl outs)).
Proof.
  intros Hk. induction 1 as [| b out dl outs Hb _ (stats & HF & Hp)].
  - exists []. split; constructor.
  - destruct Hb as (Ho & Hs & _ & l & Hl).
    destruct (correct_count_ok out (snd b) k Hs Hk) as (c1 & c2 & Hc).
    exists (mkStat out l c1 c2 (argmax_rows k (length (snd b)) out) :: stats).
    split.
    + constructor; [| assumption].
      repeat split; simpl; try assumption. apply max_dim1_ok; [assumption | lia].
    + simpl. now rewrite Hp.
Qed.

Lemma length_predictions k dl outs :
  length dl = length outs -> length (predictions k dl outs) = total_samples dl.
Proof.
  revert outs. induction dl as [| b dl IH]; intros [| o outs] H; simpl in *;
    try discriminate; [reflexivity |].
  unfold predictions in *. simpl.
  rewrite length_app, length_argmax_rows, IH by lia. reflexivity.
Qed.

Lemma predictions_in_range k dl outs :
  0 < k -> Forall (in_range k) (predictions k dl outs).
Proof.
  intros Hk. unfold predictions. apply Forall_concat, Forall_map.
  apply Forall_forall. intros p _. now apply argmax_rows_in_range.
Qed.

Lemma argmax_from_first l : forall i bi best,
  let r := argmax_from i bi best l in
  (r = bi /\ Forall (fun x => (x <= best)%Q) l) \/
  (exists j, r = i + j /\ j < length l /\ (best < nth j l 0)%Q /\
             forall j', j' < j -> (nth j' l 0 < nth j l 0)%Q).
Proof.
  induction l as [| x l IH]; intros i bi best; simpl.
  - left. split; [reflexivity | constructor].
  - destruct (Qle_bool x best) eqn:E.
    + apply Qle_bool_iff in E.
      destruct (IH (S i) bi best) as [[Hr Hall] | (j & Hr & Hj & Hb & Hfirst)].
      * left. split; [assumption | constructor; assumption].
      * right. exists (S j). simpl. repeat split; try assumption; try lia.
        intros [| j'] Hj'; [eapply Qle_lt_trans; eassumption |].
        apply Hfirst. lia.
    + assert (Hlt : (best < x)%Q).
      { destruct (Qlt_le_dec best x) as [H | H]; [exact H |].
        apply Qle_bool_iff in H. congruence. }
      destruct (IH (S i) i x) as [[Hr Hall] | (j & Hr & Hj & Hb & Hfirst)].
      * right. exists 0. simpl. repeat split; try assumption; try lia.
      * right. exists (S j). simpl. repeat split; try assumption; try lia.
        -- eapply Qlt_trans; eassumption.
        -- intros [| j'] Hj'; [exact Hb |]. apply Hfirst. lia.
Qed.

(** Every position before [argmax row] holds a strictly smaller score. *)
Lemma argmax_is_first row j :
  j < argmax row -> (nth j row 0 < nth (argmax row) row 0)%Q.
Proof.
  destruct row as [| x l]; [simpl; lia |]. unfold argmax.
  destruct (argmax_from_first l 1 0 x) as [[Hr _] | (j0 & Hr & Hj0 & Hb & Hfirst)];
    rewrite Hr; [lia |].
  intros Hj. destruct j as [| j']; simpl; [exact Hb |]. apply Hfirst. lia.
Qed.

Lemma argmax_rows_first_largest out b k i :
  shape out = [b; k] -> wf out -> 0 < k -> i < b ->
  exists c,
    nth_error (argmax_rows k b out) i = Some (Z.of_nat c) /\
    first_largest k out i c.
Proof.
  intros Hs Hwf Hk Hi.
  set (row := firstn k (skipn (i * k) (data out))).
  assert (Hlen : i * k + k <= length (data out)).
  { unfold wf in Hwf. rewrite Hwf, Hs. cbn [numel fold_right]. nia. }
  assert (Hrow : length row = k) by (apply length_block; exact Hlen).
  assert (Hne : row <> []) by (intros E; rewrite E in Hrow; simpl in Hrow; lia).
  destruct (argmax_is_max row Hne) as [Hp Hmax].
  assert (Hnth : forall j, j < k -> nth j row 0%Q = nth (i * k + j) (data out) 0%Q)
    by (intros j Hj; apply (nth_block k (i * k) (data out) j 0%Q); lia).
  exists (argmax row). split.
  - unfold argmax_rows.
    assert (E : nth_error (chunks k b (data out)) i = Some row).
    { rewrite (nth_error_nth' _ []) by now rewrite length_chunks.
      now rewrite nth_chunks. }
    now rewrite (map_nth_error _ _ _ E).
  - split; [lia |]. intros j Hj.
    rewrite <- (Hnth j Hj), <- (Hnth (argmax row)) by lia. split.
    + rewrite Forall_forall in Hmax. apply Hmax, nth_In. lia.
    + apply argmax_is_first.
Qed.

Lemma Forall2_combine {A B} (R : A -> B -> Prop) l1 l2 :
  Forall2 R l1 l2 -> Forall (fun p => R (fst p) (snd p)) (combine l1 l2).
Proof. induction 1; simpl; constructor; auto. Qed.

Lemma Forall2_map_self {A B} (R : A -> B -> Prop) (f : A -> B) l :
  Forall (fun x => R x (f x)) l -> Forall2 R l (map f l).
Proof. induction 1; simpl; constructor; auto. Qed.

(** C4. On a split of [N > 0] samples whose batches are all scored, with
    one row of [k >= 2] class scores per sample, [evaluate] returns the
    ground truth first and the predictions second.  The ground truth is the
    labels of the batches, unchanged and in iteration order.  The
    predictions are, batch after batch and sample after sample in the same
    order, the arg-max class of the sample's row of the scores the batch's
    metrics are computed from (the crop averages when crops are fused): no
    class of the row scores higher and every class before it scores
    strictly lower.  Both sequences have length [N]; the predictions have
    values in [[0, k)], and so has the ground truth of a split whose labels
    are among the [k] classes. *)
Theorem evaluate_label_sequences net dl loss_fn ncrop dev k outs :
  Forall2 (batch_scored net loss_fn ncrop k) dl outs ->
  2 <= k ->
  0 < total_samples dl ->
  exists tr gt preds,
    evaluate net dl loss_fn ncrop dev = (tr, inr (gt, concat preds)) /\
    gt = all_labels dl /\
    Forall2 (batch_predictions k) (combine dl outs) preds /\
    length gt = total_samples dl /\
    length (concat preds) = total_samples dl /\
    Forall (in_range k) (concat preds) /\
    (Forall (in_range k) (all_labels dl) -> Forall (in_range k) gt).
Proof.
  intros HS Hk Hpos.
  destruct (batch_scored_run _ _ _ _ _ _ Hk HS) as (stats & HF & Hp).
  pose proof (Forall2_length HF) as Hlen.
  pose proof (Forall2_length HS) as Hlen'.
  rewrite evaluate_unfold.
  pose proof (loop_run _ _ _ _ _ HF init_counters) as Hrun.
  destruct (for_each (evaluate_batch net loss_fn ncrop) dl init_counters)
    as [fwd res]. simpl in Hrun. subst res.
  set (st := accumulate init_counters dl stats).
  assert (Hgt : y_gt st = all_labels dl)
    by (unfold st; rewrite accumulate_y_gt by assumption; reflexivity).
  assert (Hpr : y_pred st = predictions k dl outs)
    by (unfold st; rewrite accumulate_y_pred by assumption; simpl; exact Hp).
  assert (Hnz : ~ (n_samples st == 0)%Q).
  { unfold st. rewrite accumulate_init_n by assumption.
    now apply Qnat_nonzero. }
  assert (Hsame : length (y_gt st) = length (y_pred st)).
  { rewrite Hgt, Hpr, length_all_labels, length_predictions; auto. }
  assert (Hne : 0 < length (y_gt st))
    by (rewrite Hgt, length_all_labels; exact Hpos).
  destruct (report_tail_ok st Hsame Hne) as (tl & Htl & _).
  unfold bind. rewrite (evaluate_report_nonzero st Hnz), Htl. simpl.
  rewrite Hgt, Hpr.
  exists (fwd ++ report_head (100 * correct_count1 st / n_samples st)
                             (100 * correct_count2 st / n_samples st)
                             (loss_tr st / n_samples st) ++ tl).
  exists (all_labels dl).
  exists (map (fun p => argmax_rows k (length (snd (fst p))) (snd p))
              (combine dl outs)).
  fold (predictions k dl outs).
  split; [reflexivity |].
  split; [reflexivity |].
  split.
  { apply Forall2_map_self.
    eapply Forall_impl; [| apply (Forall2_combine _ _ _ HS)].
    intros [b out] (_ & Hs & Hwf & _). cbn [fst snd] in *.
    split; [apply length_argmax_rows |].
    intros i Hi. apply argmax_rows_first_largest; try assumption; lia. }
  split; [apply length_all_labels |].
  split; [apply length_predictions; assumption |].
  split; [apply predictions_in_range; lia | exact (fun H => H)].
Qed.

(** ** The crop count is read from a five-dimensional shape *)

Lemma for_each_app {A S} (body : S -> A -> M S) xs ys st :
  for_each body (xs ++ ys) st
  = bind (for_each body xs st) (for_each body ys).
Proof.
  revert st. induction xs as [| x xs IH]; intros st; simpl.
  - unfold bind, ret. destruct (for_each body ys st); reflexivity.
  - unfold bind at 1 3. destruct (body st x) as [tr [e | st1]]; [reflexivity |].
    rewrite IH. unfold bind.
    destruct (for_each body xs st1) as [tr1 [e | st2]]; [reflexivity |].
    destruct (for_each body ys st2) as [tr2 r]. now rewrite app_assoc.
Qed.

Lemma evaluate_outputs_bad_rank net inputs :
  length (shape inputs) <> 5 ->
  evaluate_outputs net true inputs = ([], inl ValueError).
Proof.
  intros H. unfold evaluate_outputs.
  destruct (shape inputs) as [| ? [| ? [| ? [| ? [| ? [| ? ?]]]]]];
    try reflexivity.
  simpl in H. congruence.
Qed.

Lemma evaluate_batch_bad_rank net loss_fn st inputs labels :
  length (shape inputs) <> 5 ->
  evaluate_batch net loss_fn true st (inputs, labels) = ([], inl ValueError).
Proof.
  intros H. unfold evaluate_batch.
  now rewrite (evaluate_outputs_bad_rank net inputs H).
Qed.

Lemma evaluate_bad_rank net loss_fn dev pre inputs labels post :
  length (shape inputs) <> 5 ->
  exists tr e,
    evaluate net (pre ++ (inputs, labels) :: post) loss_fn true dev = (tr, inl e) /\
    Forall is_forward tr /\
    (forall st,
        snd (for_each (evaluate_batch net loss_fn true) pre init_counters) = inr st ->
        e = ValueError).
Proof.
  intros H. rewrite evaluate_unfold, for_each_app.
  pose proof (logs_loop net loss_fn true pre init_counters) as Hlog.
  destruct (for_each (evaluate_batch net loss_fn true) pre init_counters)
    as [tr [e | st]]; unfold logs in Hlog; simpl in Hlog.
  - exists tr, e. split; [reflexivity |]. split; [assumption |].
    intros st Hst. simpl in Hst. discriminate.
  - exists tr, ValueError. cbn [for_each].
    rewrite (bind_ok _ _ tr st eq_refl).
    rewrite (evaluate_batch_bad_rank net loss_fn st inputs labels H).
    simpl. rewrite app_nil_r. split; [reflexivity |]. split; [assumption |].
    reflexivity.
Qed.

Lemma saved_images_app tr1 tr2 :
  saved_images (tr1 ++ tr2) = saved_images tr1 ++ saved_images tr2.
Proof. unfold saved_images. apply flat_map_app. Qed.

Lemma saved_images_forward tr : Forall is_forward tr -> saved_images tr = [].
Proof.
  induction 1 as [| e tr He _ IH]; [reflexivity |].
  destruct e; try contradiction. exact IH.
Qed.

Lemma saved_images_print tr : Forall is_print tr -> saved_images tr = [].
Proof.
  induction 1 as [| e tr He _ IH]; [reflexivity |].
  destruct e; try contradiction. exact IH.
Qed.

Lemma evaluate_and_draw_err net dl loss_fn ncrop dev title path tr e :
  evaluate net dl loss_fn ncrop dev = (tr, inl e) ->
  evaluate_and_draw net dl loss_fn ncrop dev title path = (tr, inl e).
Proof. intros H. unfold evaluate_and_draw. now rewrite (bind_err _ _ _ _ H). Qed.

Lemma main_setup_splits w args :
  main w args = bind (setup w args) (fun p => splits w args (fst p) (snd p)).
Proof.
  unfold main, setup.
  destruct (get_model w (arch args)) as [e | m0]; [reflexivity |].
  rewrite !bind_lift_inr. unfold print. rewrite !bind_emit.
  destruct (torch_load w (checkpoint args)) as [e | ckpt]; [reflexivity |].
  rewrite !bind_lift_inr.
  destruct (dict_get ckpt "model_state_dict") as [e | sd]; [reflexivity |].
  rewrite !bind_lift_inr.
  destruct (load_state_dict w m0 sd) as [e | m]; [reflexivity |].
  rewrite !bind_lift_inr.
  destruct (get_dataloaders w false) as [e | [[tl vl] sl]]; [reflexivity |].
  rewrite !bind_lift_inr. unfold splits, ret. cbn [fst snd].
  rewrite (bind_ok _ _ _ _ eq_refl). cbn [fst snd].
  repeat match goal with
         | |- context [evaluate_and_draw ?a ?b ?c ?d ?e ?f ?g] =>
             generalize (evaluate_and_draw a b c d e f g)
         end.
  intros [t3 [e3 | []]] [t2 [e2 | []]] [t1 [e1 | []]]; reflexivity.
Qed.

Lemma logs_setup w args : logs is_print (setup w args).
Proof.
  unfold setup, print.
  repeat (apply logs_bind; [auto with logs | intros]); auto with logs.
  all: try (apply logs_emit; exact I).
Qed.

Lemma setup_loaders w args tr m loaders :
  setup w args = (tr, inr (m, loaders)) -> get_dataloaders w false = inr loaders.
Proof.
  unfold setup.
  destruct (get_model w (arch args)) as [e | m0]; [discriminate |].
  rewrite !bind_lift_inr. unfold print. rewrite !bind_emit.
  destruct (torch_load w (checkpoint args)) as [e | ckpt]; [discriminate |].
  rewrite !bind_lift_inr.
  destruct (dict_get ckpt "model_state_dict") as [e | sd]; [discriminate |].
  rewrite !bind_lift_inr.
  destruct (load_state_dict w m0 sd) as [e | m1]; [discriminate |].
  rewrite !bind_lift_inr.
  destruct (get_dataloaders w false) as [e | l]; [discriminate |].
  rewrite !bind_lift_inr. simpl. intros H. inversion H; subst. reflexivity.
Qed.

Lemma setup_ok w args tr m loaders :
  setup w args = (tr, inr (m, loaders)) ->
  exists m0 ckpt sd,
    get_model w (arch args) = inr m0 /\
    torch_load w (checkpoint args) = inr ckpt /\
    dict_get ckpt "model_state_dict" = inr sd /\
    load_state_dict w m0 sd = inr m /\
    get_dataloaders w false = inr loaders /\
    tr = [Print (LModel (describe w m0))].
Proof.
  unfold setup.
  destruct (get_model w (arch args)) as [e | m0]; [discriminate |].
  rewrite !bind_lift_inr. unfold print. rewrite !bind_emit.
  destruct (torch_load w (checkpoint args)) as [e | ckpt]; [discriminate |].
  rewrite !bind_lift_inr.
  destruct (dict_get ckpt "model_state_dict") as [e | sd] eqn:Hsd; [discriminate |].
  rewrite !bind_lift_inr.
  destruct (load_state_dict w m0 sd) as [e | m1] eqn:Hm; [discriminate |].
  rewrite !bind_lift_inr.
  destruct (get_dataloaders w false) as [e | l]; [discriminate |].
  rewrite !bind_lift_inr. simpl. intros H. inversion H; subst.
  exists m0, ckpt, sd. repeat split; assumption.
Qed.

Lemma splits_train_err w args m tl vl sl tr e :
  evaluate (forward w m) tl (cross_entropy w) (Ncrop args)
           (if cuda_is_available w then Cuda0 else Cpu) = (tr, inl e) ->
  splits w args m (tl, vl, sl) = (Print (LText "Train") :: tr, inl e).
Proof.
  intros H. unfold splits, print. rewrite bind_emit.
  rewrite (bind_err _ _ _ _ (evaluate_and_draw_err _ _ _ _ _ _ _ _ _ H)).
  reflexivity.
Qed.

(** C10. With the crop flag on, a batch whose input tensor does not have
    five dimensions makes [evaluate] raise: the exception is the
    [ValueError] of the shape unpacking on line 90 once the batches before it
    have passed, and nothing is printed.  The flag is on by default, and a
    run of [main] whose training loader (obtained with [augment=False])
    holds such a batch aborts before any image is saved. *)
Theorem ncrop_requires_five_dims net loss_fn dev pre inputs labels post :
  length (shape inputs) <> 5 ->
  (exists tr e,
      evaluate net (pre ++ (inputs, labels) :: post) loss_fn true dev = (tr, inl e) /\
      Forall is_forward tr /\
      (forall st,
          snd (for_each (evaluate_batch net loss_fn true) pre init_counters) = inr st ->
          e = ValueError)) /\
  Ncrop default_args = true /\
  (forall w args val test,
      Ncrop args = true ->
      get_dataloaders w false = inr (pre ++ (inputs, labels) :: post, val, test) ->
      exists tr e, main w args = (tr, inl e) /\ saved_images tr = []).
Proof.
  intros H. split; [now apply evaluate_bad_rank |]. split; [reflexivity |].
  intros w args val test Hn Hl. rewrite main_setup_splits.
  pose proof (logs_setup w args) as Hlog.
  destruct (setup w args) as [tr0 [e | [m loaders]]] eqn:Hs;
    unfold logs in Hlog; simpl in Hlog.
  - exists tr0, e. split; [reflexivity | now apply saved_images_print].
  - apply setup_loaders in Hs. rewrite Hl in Hs. inversion Hs; subst loaders.
    destruct (evaluate_bad_rank (forward w m) (cross_entropy w)
                (if cuda_is_available w then Cuda0 else Cpu)
                pre inputs labels post H) as (tr & e & Hev & Hfw & _).
    rewrite <- Hn in Hev.
    rewrite (bind_ok _ _ _ _ eq_refl). cbn [fst snd].
    rewrite (splits_train_err _ _ _ _ _ _ _ _ Hev). cbn [fst snd].
    exists (tr0 ++ Print (LText "Train") :: tr), e. split; [reflexivity |].
    rewrite saved_images_app. simpl.
    rewrite (saved_images_print _ Hlog), (saved_images_forward _ Hfw).
    reflexivity.
Qed.

(** ** Flags that are parsed and not read *)

(** C9. Two runs whose command lines agree on [--checkpoint], [--arch] and
    [--Ncrop] have the same log and the same outcome, whatever the values of
    [--batch_size], [--seed] and [--data_path]: [main] never reads these
    three, and the loaders come from [get_dataloaders(augment=False)]. *)
Theorem main_ignores_unused_flags w args1 args2 :
  checkpoint args1 = checkpoint args2 ->
  arch args1 = arch args2 ->
  Ncrop args1 = Ncrop args2 ->
  main w args1 = main w args2.
Proof.
  destruct args1 as [b1 s1 d1 c1 a1 n1], args2 as [b2 s2 d2 c2 a2 n2].
  simpl. intros -> -> ->. reflexivity.
Qed.

(** ** The three splits in order *)

Lemma logs_weaken {A} (P Q : event -> Prop) (m : M A) :
  (forall e, P e -> Q e) -> logs P m -> logs Q m.
Proof. intros H. unfold logs. apply Forall_impl. exact H. Qed.

Lemma logs_evaluate_report st : logs is_metric (evaluate_report st).
Proof.
  unfold evaluate_report, print.
  repeat (apply logs_bind; [auto with logs | intros]); auto with logs.
  all: try (apply logs_emit; exact I).
Qed.

Lemma logs_evaluate net dl loss_fn ncrop dev :
  logs is_metric (evaluate net dl loss_fn ncrop dev).
Proof.
  rewrite evaluate_unfold. apply logs_bind.
  - eapply logs_weaken; [| apply logs_loop]. intros [] H; try contradiction; exact I.
  - intros st. apply logs_evaluate_report.
Qed.

Lemma logs_draw_cell cm i j : logs is_drawing (draw_cell cm i j).
Proof.
  unfold draw_cell, plt. apply logs_bind; auto with logs.
  intros v. apply logs_emit. exact I.
Qed.

Lemma logs_draw_cells cm n : logs is_drawing (draw_cells cm n).
Proof.
  unfold draw_cells. apply logs_for_each. intros _ i.
  apply logs_for_each. intros _ j. apply logs_draw_cell.
Qed.

(** The renderer draws, and saves as its last action. *)
Lemma draw_confusion_matrix_trace y_true y_pred names title path dpi :
  exists body,
    Forall is_drawing body /\
    (draw_confusion_matrix y_true y_pred names title (Some path) dpi
     = (body ++ [Plt (Savefig path dpi)], inr tt)
     \/ exists e,
        draw_confusion_matrix y_true y_pred names title (Some path) dpi
        = (body, inl e)).
Proof.
  unfold draw_confusion_matrix.
  destruct (confusion_matrix_true y_true y_pred) as [e | cm].
  - exists []. split; [constructor | right; exists e; reflexivity].
  - rewrite bind_lift_inr. unfold plt. rewrite !bind_emit.
    pose proof (logs_draw_cells cm (length names)) as Hc. unfold logs in Hc.
    generalize dependent (draw_cells cm (length names)).
    intros [cells [e | []]] Hc; cbn [fst snd bind emit app] in *.
    + eexists. split; [| right; exists e; reflexivity].
      repeat (apply Forall_cons; [exact I |]). exact Hc.
    + exists ([Plt (Imshow cm); Plt (Title title); Plt (Xlabel "Predict label");
               Plt (Ylabel "Truth label"); Plt (Yticks (length names) names);
               Plt (Xticks (length names) names 45); Plt TightLayout;
               Plt Colorbar] ++ cells).
      split; [| left; reflexivity].
      apply Forall_app. split; [| exact Hc].
      repeat (apply Forall_cons; [exact I |]). apply Forall_nil.
Qed.

Lemma saved_images_drawing tr : Forall is_drawing tr -> saved_images tr = [].
Proof.
  induction 1 as [| e tr He _ IH]; [reflexivity |].
  destruct e as [| | []]; try contradiction; exact IH.
Qed.

Lemma saved_images_metric tr : Forall is_metric tr -> saved_images tr = [].
Proof.
  induction 1 as [| e tr He _ IH]; [reflexivity |].
  destruct e as [| | []]; try contradiction; exact IH.
Qed.

Lemma evaluate_and_draw_trace net dl loss_fn ncrop dev title path :
  (snd (evaluate_and_draw net dl loss_fn ncrop dev title path) = inr tt /\
   split_log path (fst (evaluate_and_draw net dl loss_fn ncrop dev title path)))
  \/
  ((exists e, snd (evaluate_and_draw net dl loss_fn ncrop dev title path) = inl e) /\
   saved_images (fst (evaluate_and_draw net dl loss_fn ncrop dev title path)) = []).
Proof.
  unfold evaluate_and_draw.
  pose proof (logs_evaluate net dl loss_fn ncrop dev) as Hev. unfold logs in Hev.
  destruct (evaluate net dl loss_fn ncrop dev) as [rep [e | [gt pr]]];
    simpl in Hev.
  - right. simpl. split; [exists e; reflexivity | now apply saved_images_metric].
  - rewrite (bind_ok _ _ _ _ eq_refl).
    destruct (draw_confusion_matrix_trace gt pr label_name title path 300)
      as (body & Hb & [Hd | [e Hd]]); rewrite Hd; cbn [fst snd].
    + left. split; [reflexivity |]. exists rep, body. auto.
    + right. split; [exists e; reflexivity |].
      rewrite saved_images_app, (saved_images_metric _ Hev),
        (saved_images_drawing _ Hb). reflexivity.
Qed.

Lemma split_log_saved path s : split_log path s -> saved_images s = [(path, 300%Z)].
Proof.
  intros (rep & body & -> & Hr & Hb).
  rewrite !saved_images_app, (saved_images_metric _ Hr),
    (saved_images_drawing _ Hb). reflexivity.
Qed.

Lemma in_order_ok x1 x2 x3 :
  snd (in_order x1 x2 x3) = inr tt ->
  snd x1 = inr tt /\ snd x2 = inr tt /\ snd x3 = inr tt /\
  fst (in_order x1 x2 x3)
  = [Print (LText "Train")] ++ fst x1 ++
    [Plt Clf; Print (LText "Val")] ++ fst x2 ++
    [Plt Clf; Print (LText "Test")] ++ fst x3.
Proof.
  unfold in_order.
  destruct x1 as [t1 [e1 | []]], x2 as [t2 [e2 | []]], x3 as [t3 [e3 | []]];
    simpl; intros H; try discriminate.
  repeat split.
Qed.

(** Whatever happens, the images written are the first few of the three. *)
Lemma in_order_saved x1 x2 x3 p1 p2 p3 :
  (forall x p, In (x, p) [(x1, p1); (x2, p2); (x3, p3)] ->
     (snd x = inr tt /\ saved_images (fst x) = [p]) \/
     ((exists e, snd x = inl e) /\ saved_images (fst x) = [])) ->
  exists n, saved_images (fst (in_order x1 x2 x3)) = firstn n [p1; p2; p3].
Proof.
  intros H.
  assert (H1 := H x1 p1 (or_introl eq_refl)).
  assert (H2 := H x2 p2 (or_intror (or_introl eq_refl))).
  assert (H3 := H x3 p3 (or_intror (or_intror (or_introl eq_refl)))).
  clear H. unfold in_order.
  destruct x1 as [t1 r1], x2 as [t2 r2], x3 as [t3 r3]. simpl in *.
  destruct H1 as [[-> S1] | [[e1 ->] S1]]; simpl.
  2:{ exists 0. rewrite S1. reflexivity. }
  destruct H2 as [[-> S2] | [[e2 ->] S2]]; simpl.
  2:{ exists 1. rewrite saved_images_app. simpl. rewrite S1, S2. reflexivity. }
  destruct H3 as [[-> S3] | [[e3 ->] S3]]; simpl.
  - exists 3. rewrite !saved_images_app. simpl. rewrite saved_images_app. simpl.
    rewrite S1, S2, S3. reflexivity.
  - exists 2. rewrite !saved_images_app. simpl. rewrite saved_images_app. simpl.
    rewrite S1, S2, S3. reflexivity.
Qed.

Lemma splits_in_order w args m tl vl sl :
  splits w args m (tl, vl, sl)
  = in_order
      (evaluate_and_draw (forward w m) tl (cross_entropy w) (Ncrop args)
         (if cuda_is_available w then Cuda0 else Cpu)
         "Confusion Matrix on Training Set" "Confusion Matrix on Training Set.png")
      (evaluate_and_draw (forward w m) vl (cross_entropy w) (Ncrop args)
         (if cuda_is_available w then Cuda0 else Cpu)
         "Confusion Matrix on Val Set" "Confusion Matrix on Val Set.png")
      (evaluate_and_draw (forward w m) sl (cross_entropy w) (Ncrop args)
         (if cuda_is_available w then Cuda0 else Cpu)
         "Confusion Matrix on Test Set" "Confusion Matrix on Test Set.png").
Proof. reflexivity. Qed.

Lemma evaluate_and_draw_split_log net dl loss_fn ncrop dev title path :
  snd (evaluate_and_draw net dl loss_fn ncrop dev title path) = inr tt ->
  split_log path (fst (evaluate_and_draw net dl loss_fn ncrop dev title path)).
Proof.
  intros H.
  destruct (evaluate_and_draw_trace net dl loss_fn ncrop dev title path)
    as [[_ Hs] | [[e He] _]]; [exact Hs | congruence].
Qed.

(** In every run, also one that aborts, the images written so far are the
    first few of the three, in order. *)
Lemma main_saved_prefix w args :
  exists n, saved_images (fst (main w args)) = firstn n three_images.
Proof.
  rewrite main_setup_splits.
  pose proof (logs_setup w args) as Hlog. unfold logs in Hlog.
  destruct (setup w args) as [pre [e | [m [[tl vl] sl]]]]; simpl in Hlog.
  - exists 0. simpl. now apply saved_images_print.
  - rewrite (bind_ok _ _ _ _ eq_refl). cbn [fst snd].
    rewrite splits_in_order, saved_images_app, (saved_images_print _ Hlog).
    cbn [app]. apply in_order_saved.
    intros x p [H | [H | [H | []]]]; inversion H; subst x p;
      match goal with
      | |- context [evaluate_and_draw ?a ?b ?c ?d ?e ?f ?g] =>
          destruct (evaluate_and_draw_trace a b c d e f g) as [[Hs Hl] | [He Hl]]
      end;
      solve [ left; split; [exact Hs | apply split_log_saved, Hl]
            | right; split; [exact He | exact Hl] ].
Qed.


(** ** [view] with one inferred dimension *)

Lemma is_infer_of_nat n : is_infer (Z.of_nat n) = false.
Proof. unfold is_infer. apply Z.eqb_neq. lia. Qed.

Lemma existsb_negative_of_nat dims :
  existsb (fun d => (d <? -1)%Z) (map Z.of_nat dims) = false.
Proof.
  induction dims as [| d dims IH]; simpl; [reflexivity |].
  rewrite IH, orb_false_r. apply Z.ltb_ge. lia.
Qed.

Lemma filter_infer_of_nat dims : filter is_infer (map Z.of_nat dims) = [].
Proof.
  induction dims as [| d dims IH]; simpl; [reflexivity |].
  now rewrite is_infer_of_nat.
Qed.

Lemma known_product_of_nat dims :
  known_product (map Z.of_nat dims) = Z.of_nat (numel dims).
Proof.
  induction dims as [| d dims IH]; [reflexivity |].
  change (known_product (map Z.of_nat (d :: dims)))
    with (if is_infer (Z.of_nat d) then known_product (map Z.of_nat dims)
          else (Z.of_nat d * known_product (map Z.of_nat dims))%Z).
  rewrite is_infer_of_nat, IH. cbn [numel fold_right].
  now rewrite Nat2Z.inj_mul.
Qed.

Lemma map_infer_of_nat q dims :
  map (fun d => if is_infer d then q else Z.to_nat d) (map Z.of_nat dims) = dims.
Proof.
  induction dims as [| d dims IH]; simpl; [reflexivity |].
  rewrite is_infer_of_nat, Nat2Z.id, IH. reflexivity.
Qed.

(** The general shape of the two calls of [view] in the loop: known sizes
    [pre] before the [-1] and [post] after it. *)
Lemma view_infer t (pre post : list nat) q :
  numel (shape t) = q * (numel pre * numel post) ->
  0 < numel pre * numel post ->
  view t (map Z.of_nat pre ++ (-1)%Z :: map Z.of_nat post)
  = inr (mkT (pre ++ q :: post) (data t)).
Proof.
  intros Hn Hpos. unfold view.
  assert (He : existsb (fun d => (d <? -1)%Z)
                 (map Z.of_nat pre ++ (-1)%Z :: map Z.of_nat post) = false).
  { rewrite existsb_app. simpl.
    now rewrite !existsb_negative_of_nat. }
  assert (Hf : filter is_infer (map Z.of_nat pre ++ (-1)%Z :: map Z.of_nat post)
               = [(-1)%Z]).
  { rewrite filter_app. simpl. now rewrite !filter_infer_of_nat. }
  assert (Hk : known_product (map Z.of_nat pre ++ (-1)%Z :: map Z.of_nat post)
               = Z.of_nat (numel pre * numel post)).
  { clear. induction pre as [| d pre IH].
    - change (known_product (map Z.of_nat [] ++ (-1)%Z :: map Z.of_nat post))
        with (known_product (map Z.of_nat post)).
      rewrite known_product_of_nat. cbn [numel fold_right]. f_equal. lia.
    - change (known_product (map Z.of_nat (d :: pre) ++ (-1)%Z :: map Z.of_nat post))
        with (if is_infer (Z.of_nat d)
              then known_product (map Z.of_nat pre ++ (-1)%Z :: map Z.of_nat post)
              else (Z.of_nat d
                    * known_product (map Z.of_nat pre ++ (-1)%Z :: map Z.of_nat post))%Z).
      rewrite is_infer_of_nat, IH. cbn [numel fold_right].
      rewrite <- Nat2Z.inj_mul. f_equal. apply Nat.mul_assoc. }
  rewrite He, Hf, Hk, Hn. simpl length. cbn [Nat.ltb Nat.leb Nat.eqb].
  set (p := numel pre * numel post) in *.
  assert (Hmod : (Z.of_nat (q * p) mod Z.of_nat p = 0)%Z).
  { rewrite Nat2Z.inj_mul. apply Z.mod_mul. lia. }
  assert (Hdiv : (Z.of_nat (q * p) / Z.of_nat p = Z.of_nat q)%Z).
  { rewrite Nat2Z.inj_mul. apply Z.div_mul. lia. }
  assert (Hp : (0 <? Z.of_nat p)%Z = true) by (apply Z.ltb_lt; lia).
  assert (Hz : (Z.of_nat p =? 0)%Z = false) by (apply Z.eqb_neq; lia).
  rewrite Hp, Hmod, Hz, Hdiv. simpl andb. rewrite orb_true_r.
  f_equal. f_equal. rewrite map_app. simpl. rewrite !map_infer_of_nat.
  rewrite Nat2Z.id. reflexivity.
Qed.

Lemma view_flatten_crops t bs ncrops c h w :
  shape t = [bs; ncrops; c; h; w] ->
  0 < c * h * w ->
  view t [-1; Z.of_nat c; Z.of_nat h; Z.of_nat w]%Z
  = inr (mkT [bs * ncrops; c; h; w] (data t)).
Proof.
  intros Hs Hpos.
  apply (view_infer t [] [c; h; w] (bs * ncrops)).
  - rewrite Hs. cbn [numel fold_right]. ring.
  - cbn [numel fold_right]. nia.
Qed.

Lemma view_split_crops t bs ncrops k :
  shape t = [bs * ncrops; k] ->
  0 < bs * ncrops ->
  view t [Z.of_nat bs; Z.of_nat ncrops; -1]%Z
  = inr (mkT [bs; ncrops; k] (data t)).
Proof.
  intros Hs Hpos.
  apply (view_infer t [bs; ncrops] [] k).
  - rewrite Hs. cbn [numel fold_right]. ring.
  - cbn [numel fold_right]. nia.
Qed.

(** ** The crop average *)

Lemma sum_dim1_3d d bs C K :
  bs * (C * K) <= length d ->
  exists d',
    sum_dim1 (mkT [bs; C; K] d) = inr (mkT [bs; K] d') /\
    length d' = bs * K /\
    forall b j, b < bs -> j < K ->
      (nth (b * K + j) d' 0
       == Qsum (map (fun i => nth ((b * C + i) * K + j) d 0%Q) (seq 0 C)))%Q.
Proof.
  intros Hlen. unfold sum_dim1. cbn [shape data numel fold_right].
  rewrite Nat.mul_1_r.
  set (F := fun block : list Q => fold_left vadd (chunks K C block) (repeat 0%Q K)).
  set (blocks := chunks (C * K) bs d).
  assert (Hblocks : Forall (fun block => length block = C * K) blocks)
    by (apply chunks_full; exact Hlen).
  assert (HF : Forall (fun block => length (F block) = K) blocks).
  { eapply Forall_impl; [| exact Hblocks]. intros block Hb. unfold F.
    apply length_fold_vadd; [apply repeat_length |].
    apply chunks_full. rewrite Hb. apply Nat.le_refl. }
  exists (flat_map F blocks). split; [reflexivity |]. split.
  - rewrite (length_flat_map_uniform F K blocks HF).
    unfold blocks. now rewrite length_chunks.
  - intros b j Hb Hj.
    rewrite (nth_flat_map_uniform F K blocks b j [] HF)
      by (unfold blocks; rewrite ?length_chunks; assumption).
    unfold blocks. rewrite nth_chunks by assumption.
    set (block := firstn (C * K) (skipn (b * (C * K)) d)).
    assert (Hbl : length block = C * K).
    { unfold block. apply length_block. nia. }
    assert (Hrows : Forall (fun row => length row = K) (chunks K C block))
      by (apply chunks_full; rewrite Hbl; apply Nat.le_refl).
    unfold F.
    rewrite (nth_fold_vadd K (chunks K C block) j (repeat 0%Q K) Hj
               (repeat_length _ _) Hrows).
    rewrite nth_repeat_zero, Qplus_0_l.
    rewrite chunks_seq, map_map.
    assert (E : map (fun i => nth j (firstn K (skipn (i * K) block)) 0%Q) (seq 0 C)
                = map (fun i => nth ((b * C + i) * K + j) d 0%Q) (seq 0 C)).
    { apply map_ext_in. intros i Hi. apply in_seq in Hi.
      rewrite nth_block by assumption.
      unfold block. rewrite nth_block by nia.
      f_equal. nia. }
    rewrite E. reflexivity.
Qed.

Lemma nth_map_in_range {A B} (f : A -> B) l i d d' :
  i < length l -> nth i (map f l) d = f (nth i l d').
Proof.
  intros H. rewrite (nth_indep _ d (f d')) by now rewrite length_map.
  apply map_nth.
Qed.

Lemma crop_outputs net inputs bs C c h w K out :
  shape inputs = [bs; C; c; h; w] ->
  0 < bs -> 0 < C -> 0 < c * h * w ->
  net (mkT [bs * C; c; h; w] (data inputs)) = inr out ->
  shape out = [bs * C; K] ->
  wf out ->
  exists avg,
    evaluate_outputs net true inputs
    = ([Forward [bs * C; c; h; w]], inr avg) /\
    shape avg = [bs; K] /\
    length (data avg) = bs * K /\
    (forall b j, b < bs -> j < K ->
        (nth (b * K + j) (data avg) 0 == crop_average C K (data out) b j)%Q).
Proof.
  intros Hs Hbs HC Hchw Hnet Hso Hwf.
  assert (Hlen : bs * (C * K) <= length (data out)).
  { unfold wf in Hwf. rewrite Hwf, Hso. cbn [numel fold_right]. nia. }
  destruct (sum_dim1_3d (data out) bs C K Hlen) as (d' & Hsum & Hd' & Hnth).
  set (avg := div_scalar (mkT [bs; K] d') C).
  assert (Hout : evaluate_outputs net true inputs
                 = ([Forward [bs * C; c; h; w]], inr avg)).
  { unfold evaluate_outputs. rewrite Hs.
    rewrite (view_flatten_crops inputs bs C c h w Hs Hchw), bind_lift_inr.
    unfold call. rewrite bind_emit. cbn [shape]. rewrite Hnet.
    erewrite bind_ok by reflexivity.
    rewrite (view_split_crops out bs C K Hso) by nia.
    rewrite bind_lift_inr, Hsum, bind_lift_inr.
    reflexivity. }
  exists avg. split; [exact Hout |]. split; [reflexivity |].
  split; [unfold avg, div_scalar; cbn [data]; now rewrite length_map |].
  intros b j Hb Hj. unfold avg, div_scalar, crop_average. cbn [data].
  rewrite (nth_map_in_range _ d' _ _ 0%Q) by (rewrite Hd'; nia).
  rewrite (Hnth b j Hb Hj). reflexivity.
Qed.

(** C1. With the crop flag on and a batch of shape
    [[bs; C; c; h; w]], the loop body flattens the batch to
    [[bs*C; c; h; w]], calls the network once on it, and from its
    [[bs*C; K]] scores builds the [[bs; K]] tensor of crop averages; the
    loss, the top-k counts and the arg-max of the batch are those of
    [evaluate_metrics] on that averaged tensor. *)
Theorem evaluate_outputs_crop_average net inputs bs C c h w K out :
  shape inputs = [bs; C; c; h; w] ->
  0 < bs -> 0 < C -> 0 < c * h * w ->
  net (mkT [bs * C; c; h; w] (data inputs)) = inr out ->
  shape out = [bs * C; K] ->
  wf out ->
  exists avg,
    evaluate_outputs net true inputs
    = ([Forward [bs * C; c; h; w]], inr avg) /\
    shape avg = [bs; K] /\
    length (data avg) = bs * K /\
    (forall b j, b < bs -> j < K ->
        (nth (b * K + j) (data avg) 0 == crop_average C K (data out) b j)%Q) /\
    (forall loss_fn st labels,
        evaluate_batch net loss_fn true st (inputs, labels)
        = (Forward [bs * C; c; h; w] :: fst (evaluate_metrics loss_fn st avg labels),
           snd (evaluate_metrics loss_fn st avg labels))).
Proof.
  intros Hs Hbs HC Hchw Hnet Hso Hwf.
  destruct (crop_outputs net inputs bs C c h w K out Hs Hbs HC Hchw Hnet Hso Hwf)
    as (avg & Hout & Hsh & Hlen & Hnth).
  exists avg. repeat (split; [assumption |]).
  intros loss_fn st labels. unfold evaluate_batch.
  rewrite (bind_ok _ _ _ _ Hout). reflexivity.
Qed.

(** ** A single crop *)

Lemma Forall2_Qeq_nth (l1 l2 : list Q) :
  length l1 = length l2 ->
  (forall i, i < length l1 -> (nth i l1 0 == nth i l2 0)%Q) ->
  Forall2 Qeq l1 l2.
Proof.
  revert l2. induction l1 as [| x l1 IH]; intros [| y l2] Hlen Hn;
    simpl in Hlen; try discriminate; constructor.
  - apply (Hn 0). simpl. lia.
  - apply IH; [lia |]. intros i Hi. apply (Hn (S i)). simpl. lia.
Qed.

(** C5. With one crop per sample the crop path computes, from the same
    pixels, the scores of the plain path: both call the network once on the
    same [[bs; c; h; w]] batch, and the crop path's reshape, sum over the
    one crop and division by 1 leave every score unchanged. *)
Theorem single_crop_equals_plain net bs c h w K d out :
  0 < bs -> 0 < c * h * w ->
  net (mkT [bs; c; h; w] d) = inr out ->
  shape out = [bs; K] ->
  wf out ->
  exists out1,
    evaluate_outputs net true (mkT [bs; 1; c; h; w] d)
    = ([Forward [bs; c; h; w]], inr out1) /\
    evaluate_outputs net false (mkT [bs; c; h; w] d)
    = ([Forward [bs; c; h; w]], inr out) /\
    tensor_eq out1 out.
Proof.
  intros Hbs Hchw Hnet Hso Hwf.
  assert (Hnet' : net (mkT [bs * 1; c; h; w] (data (mkT [bs; 1; c; h; w] d)))
                  = inr out) by (rewrite Nat.mul_1_r; exact Hnet).
  assert (Hso' : shape out = [bs * 1; K]) by (rewrite Nat.mul_1_r; exact Hso).
  destruct (crop_outputs net (mkT [bs; 1; c; h; w] d) bs 1 c h w K out
              eq_refl Hbs Nat.lt_0_1 Hchw Hnet' Hso' Hwf)
    as (avg & Hout & Hsh & Hlen & Hnth).
  rewrite Nat.mul_1_r in Hout.
  exists avg. split; [exact Hout |]. split.
  - unfold evaluate_outputs, call. rewrite bind_emit. cbn [shape]. rewrite Hnet.
    reflexivity.
  - assert (Hlo : length (data out) = bs * K).
    { unfold wf in Hwf. rewrite Hwf, Hso. cbn [numel fold_right]. lia. }
    split; [congruence |].
    apply Forall2_Qeq_nth; [congruence |].
    intros i Hi. rewrite Hlen in Hi.
    assert (HK : 0 < K) by nia.
    assert (Ei : i = (i / K) * K + i mod K).
    { rewrite (Nat.div_mod_eq i K) at 1. lia. }
    assert (Hb : i / K < bs) by (apply Nat.Div0.div_lt_upper_bound; lia).
    assert (Hj : i mod K < K) by (apply Nat.mod_upper_bound; lia).
    rewrite Ei at 1. rewrite (Hnth _ _ Hb Hj).
    unfold crop_average. cbn [seq map Qsum fold_right].
    replace ((i / K * 1 + 0) * K + i mod K) with i by lia.
    unfold Qnat. simpl inject_Z. field.
Qed.

(** ** The confusion matrix of the renderer *)

Lemma count_true_cons b l :
  count_true (b :: l) = (if b then 1 else 0) + count_true l.
Proof. unfold count_true. destruct b; reflexivity. Qed.

Lemma nat_sum_map_add {A} (f g : A -> nat) l :
  nat_sum (map (fun x => f x + g x) l) = nat_sum (map f l) + nat_sum (map g l).
Proof.
  induction l as [| x l IH]; simpl; [reflexivity |]. rewrite IH. lia.
Qed.

Lemma nat_sum_map_zero {A} (l : list A) : nat_sum (map (fun _ => 0) l) = 0.
Proof. induction l; simpl; auto. Qed.

Lemma nat_sum_indicator (y : Z) labels :
  NoDup labels -> In y labels ->
  nat_sum (map (fun b => if (y =? b)%Z then 1 else 0) labels) = 1.
Proof.
  induction 1 as [| b labels Hnin Hnd IH]; intros Hin; [contradiction |].
  simpl. destruct (Z.eqb_spec y b) as [-> | Hne].
  - assert (E : nat_sum (map (fun b' => if (b =? b')%Z then 1 else 0) labels) = 0).
    { clear IH Hin Hnd. induction labels as [| c labels IH]; [reflexivity |].
      simpl. destruct (Z.eqb_spec b c) as [-> | _].
      - exfalso. apply Hnin. now left.
      - apply IH. intros H. apply Hnin. now right. }
    rewrite E. reflexivity.
  - destruct Hin as [-> | Hin]; [congruence |]. now rewrite IH.
Qed.

(** Summed over the columns, a row of counts is the number of samples of
    the row's true label. *)
Lemma row_sum_counts a labels : forall y_true y_pred,
  NoDup labels ->
  (forall y, In y y_pred -> In y labels) ->
  length y_true = length y_pred ->
  nat_sum (map (fun b => count_pair a b y_true y_pred) labels)
  = count_true (map (fun x => (x =? a)%Z) y_true).
Proof.
  induction y_true as [| x y_true IH]; intros [| y y_pred] Hnd Hin Hlen;
    simpl in Hlen; try discriminate.
  - unfold count_pair. simpl. apply nat_sum_map_zero.
  - unfold count_pair in *. cbn [combine map fst snd].
    rewrite count_true_cons.
    rewrite (map_ext _ (fun b =>
               (if ((x =? a)%Z && (y =? b)%Z)%bool then 1 else 0)
               + count_true (map (fun p => ((fst p =? a)%Z && (snd p =? b)%Z)%bool)
                                 (combine y_true y_pred))))
      by (intros b; apply count_true_cons).
    rewrite nat_sum_map_add, IH; auto; [| intros z Hz; apply Hin; now right].
    f_equal. destruct (x =? a)%Z; simpl.
    + apply nat_sum_indicator; [assumption | apply Hin; now left].
    + apply nat_sum_map_zero.
Qed.

Lemma count_true_pos a y_true :
  In a y_true -> 0 < count_true (map (fun x => (x =? a)%Z) y_true).
Proof.
  induction y_true as [| x l IH]; intros H; [contradiction |].
  cbn [map]. rewrite count_true_cons.
  destruct H as [-> | H]; [rewrite Z.eqb_refl; lia |].
  specialize (IH H). lia.
Qed.

Lemma count_true_zero a y_true :
  ~ In a y_true -> count_true (map (fun x => (x =? a)%Z) y_true) = 0.
Proof.
  induction y_true as [| x l IH]; intros H; [reflexivity |].
  cbn [map]. rewrite count_true_cons.
  destruct (Z.eqb_spec x a) as [-> | _]; [exfalso; apply H; now left |].
  apply IH. intros Hin. apply H. now right.
Qed.

(** The labels of the matrix: every label that occurs, once. *)
Lemma in_insert_uniq x y l : In y (insert_uniq x l) <-> y = x \/ In y l.
Proof.
  induction l as [| z l IH]; simpl; [intuition |].
  destruct (Z.ltb_spec x z); simpl; [intuition |].
  destruct (Z.eqb_spec x z) as [-> | Hne]; simpl; [intuition |].
  rewrite IH. intuition.
Qed.

Lemma in_unique_labels y y_true y_pred :
  In y (unique_labels y_true y_pred) <-> In y (y_true ++ y_pred).
Proof.
  unfold unique_labels. induction (y_true ++ y_pred) as [| x l IH]; simpl;
    [reflexivity |].
  rewrite in_insert_uniq, IH. intuition.
Qed.

Lemma insert_uniq_lower x z l :
  (z < x)%Z -> Forall (Z.lt z) l -> Forall (Z.lt z) (insert_uniq x l).
Proof.
  intros Hz Hl. apply Forall_forall. intros y Hy.
  apply in_insert_uniq in Hy. rewrite Forall_forall in Hl.
  destruct Hy as [-> | Hy]; auto.
Qed.

Lemma increasing_insert_uniq x l : increasing l -> increasing (insert_uniq x l).
Proof.
  induction 1 as [| z l Hz Hl IH]; simpl.
  - constructor; constructor.
  - destruct (Z.ltb_spec x z) as [Hlt | Hge].
    + constructor; [| constructor; assumption].
      constructor; [assumption |].
      eapply Forall_impl; [| exact Hz]. intros; lia.
    + destruct (Z.eqb_spec x z) as [-> | Hne]; [constructor; assumption |].
      constructor; [| assumption]. apply insert_uniq_lower; [lia | assumption].
Qed.

Lemma increasing_unique_labels y_true y_pred :
  increasing (unique_labels y_true y_pred).
Proof.
  unfold unique_labels. induction (y_true ++ y_pred) as [| x l IH]; simpl.
  - constructor.
  - now apply increasing_insert_uniq.
Qed.

Lemma increasing_NoDup l : increasing l -> NoDup l.
Proof.
  induction 1 as [| x l Hx _ IH]; constructor; [| assumption].
  intros Hin. rewrite Forall_forall in Hx. apply Hx in Hin. lia.
Qed.

Lemma Qsum_scaled row (q : Q) :
  ~ (q == 0)%Q ->
  (Qsum (map (fun c => Qnat c / q) row) == Qnat (nat_sum row) / q)%Q.
Proof.
  intros Hq. induction row as [| c row IH]; cbn [map Qsum fold_right nat_sum].
  - unfold Qnat. simpl inject_Z. field. exact Hq.
  - fold (Qsum (map (fun c => Qnat c / q) row))%Q. rewrite IH.
    fold (nat_sum row). rewrite Qnat_add. field. exact Hq.
Qed.

Lemma normalize_row_sum row :
  0 < nat_sum row -> (Qsum (normalize_row row) == 1)%Q.
Proof.
  intros H. unfold normalize_row. fold (nat_sum row).
  destruct (nat_sum row =? 0) eqn:E; [apply Nat.eqb_eq in E; lia |].
  rewrite Qsum_scaled by (apply Qnat_nonzero; assumption).
  field. apply Qnat_nonzero. assumption.
Qed.

Lemma normalize_row_zero row :
  nat_sum row = 0 -> Forall (fun v => v = 0%Q) (normalize_row row).
Proof.
  intros H. unfold normalize_row. fold (nat_sum row). rewrite H. simpl.
  apply Forall_map, Forall_forall. reflexivity.
Qed.

Lemma length_normalize_row row : length (normalize_row row) = length row.
Proof.
  unfold normalize_row. destruct (_ =? 0); apply length_map.
Qed.

Lemma confusion_matrix_true_inv y_true y_pred cm :
  confusion_matrix_true y_true y_pred = inr cm ->
  length y_true = length y_pred /\
  cm = map normalize_row (confusion_counts y_true y_pred).
Proof.
  unfold confusion_matrix_true, check_targets.
  destruct (length y_true =? length y_pred) eqn:E; [| discriminate].
  destruct (length y_true =? 0); [discriminate |].
  apply Nat.eqb_eq in E. intros H. inversion H. auto.
Qed.

(** The matrix is square, with one row and one column per occurring label. *)
Lemma confusion_matrix_true_square y_true y_pred cm :
  confusion_matrix_true y_true y_pred = inr cm ->
  length cm = length (unique_labels y_true y_pred) /\
  Forall (fun row => length row = length (unique_labels y_true y_pred)) cm.
Proof.
  intros H. apply confusion_matrix_true_inv in H. destruct H as [_ ->].
  unfold confusion_counts. split; [now rewrite !length_map |].
  apply Forall_map, Forall_map, Forall_forall. intros a _.
  now rewrite length_normalize_row, length_map.
Qed.

Lemma confusion_matrix_true_row y_true y_pred cm i a row :
  confusion_matrix_true y_true y_pred = inr cm ->
  nth_error (unique_labels y_true y_pred) i = Some a ->
  nth_error cm i = Some row ->
  (In a y_true -> (Qsum row == 1)%Q) /\
  (~ In a y_true -> Forall (fun v => v = 0%Q) row).
Proof.
  intros H Ha Hrow. apply confusion_matrix_true_inv in H. destruct H as [Hlen ->].
  unfold confusion_counts in Hrow.
  rewrite map_map, (map_nth_error _ _ _ Ha) in Hrow. inversion Hrow; subst row.
  clear Hrow.
  assert (Hsum : nat_sum (map (fun b => count_pair a b y_true y_pred)
                              (unique_labels y_true y_pred))
                 = count_true (map (fun x => (x =? a)%Z) y_true)).
  { apply row_sum_counts; [| | assumption].
    - apply increasing_NoDup, increasing_unique_labels.
    - intros y Hy. apply in_unique_labels, in_or_app. now right. }
  split; intros Hin.
  - apply normalize_row_sum. rewrite Hsum. now apply count_true_pos.
  - apply normalize_row_zero. rewrite Hsum. now apply count_true_zero.
Qed.

(** ** When the renderer gets through its cells *)

Lemma for_each_unit_ok {A} (f : A -> M unit) xs :
  snd (for_each (fun _ x => f x) xs tt) = inr tt <->
  (forall x, In x xs -> snd (f x) = inr tt).
Proof.
  induction xs as [| x xs IH].
  - simpl. split; [intros _ y [] | reflexivity].
  - rewrite snd_for_each_cons. split.
    + intros H y [<- | Hy].
      * destruct (snd (f x)) as [e | []]; [discriminate | reflexivity].
      * destruct (snd (f x)) as [e | []]; [discriminate |]. now apply IH.
    + intros H. rewrite (H x (or_introl eq_refl)). apply IH.
      intros y Hy. apply H. now right.
Qed.

Lemma for_each_unit_err {A} (f : A -> M unit) (e0 : exn) xs :
  (forall x e, snd (f x) = inl e -> e = e0) ->
  forall e, snd (for_each (fun _ x => f x) xs tt) = inl e -> e = e0.
Proof.
  intros Hf. induction xs as [| x xs IH]; intros e.
  - simpl. discriminate.
  - rewrite snd_for_each_cons.
    destruct (snd (f x)) as [e1 | []] eqn:E.
    + intros H. inversion H; subst. now apply Hf in E.
    + apply IH.
Qed.

Lemma draw_cell_ok cm i j :
  snd (draw_cell cm i j) = inr tt <-> exists v, cm_get cm j i = inr v.
Proof.
  unfold draw_cell. rewrite snd_bind. simpl.
  destruct (cm_get cm j i) as [e | v]; simpl.
  - split; [discriminate | intros [v H]; discriminate].
  - split; [intros _; now exists v | reflexivity].
Qed.

Lemma draw_cell_err cm i j e : snd (draw_cell cm i j) = inl e -> e = IndexError.
Proof.
  unfold draw_cell, cm_get. rewrite snd_bind. simpl.
  destruct (nth_error cm j) as [row |]; simpl.
  - destruct (nth_error row i); simpl; [discriminate | congruence].
  - congruence.
Qed.

Lemma cm_get_square cm m j i :
  length cm = m -> Forall (fun row => length row = m) cm ->
  (exists v, cm_get cm j i = inr v) <-> (j < m /\ i < m).
Proof.
  intros Hm Hrows. unfold cm_get.
  destruct (nth_error cm j) as [row |] eqn:Ej.
  - assert (Hj : j < m).
    { rewrite <- Hm. apply nth_error_Some. congruence. }
    assert (Hr : length row = m).
    { rewrite Forall_forall in Hrows. apply Hrows.
      eapply nth_error_In; eassumption. }
    destruct (nth_error row i) as [v |] eqn:Ei.
    + split; [| intros _; now exists v]. intros _. split; [assumption |].
      rewrite <- Hr. apply nth_error_Some. congruence.
    + split; [intros [v H]; discriminate |]. intros [_ Hi].
      apply nth_error_None in Ei. lia.
  - split; [intros [v H]; discriminate |]. intros [Hj _].
    apply nth_error_None in Ej. lia.
Qed.

Lemma draw_cells_ok cm m n :
  length cm = m -> Forall (fun row => length row = m) cm ->
  (snd (draw_cells cm n) = inr tt <-> n <= m).
Proof.
  intros Hm Hrows. unfold draw_cells. rewrite for_each_unit_ok. split.
  - intros H. destruct n as [| n]; [lia |].
    specialize (H n). rewrite for_each_unit_ok in H.
    assert (Hn : In n (seq 0 (S n))) by (apply in_seq; lia).
    specialize (H Hn n Hn). apply draw_cell_ok in H.
    apply (cm_get_square cm m n n Hm Hrows) in H. lia.
  - intros Hle i Hi. apply for_each_unit_ok. intros j Hj.
    apply in_seq in Hi, Hj. apply draw_cell_ok.
    apply (cm_get_square cm m j i Hm Hrows). lia.
Qed.

Lemma draw_cells_err cm n e : snd (draw_cells cm n) = inl e -> e = IndexError.
Proof.
  unfold draw_cells. apply for_each_unit_err. intros i e1.
  apply for_each_unit_err. intros j e2. apply draw_cell_err.
Qed.

Lemma snd_draw_confusion_matrix y_true y_pred names title path dpi cm :
  confusion_matrix_true y_true y_pred = inr cm ->
  snd (draw_confusion_matrix y_true y_pred names title path dpi)
  = match snd (draw_cells cm (length names)) with
    | inl e => inl e
    | inr _ => inr tt
    end.
Proof.
  intros H. unfold draw_confusion_matrix. rewrite H, bind_lift_inr.
  unfold plt. rewrite !bind_emit. cbn [snd]. rewrite snd_bind.
  destruct (snd (draw_cells cm (length names))) as [e | []]; [reflexivity |].
  destruct path; reflexivity.
Qed.

(** C6, as the code has it.  The matrix the renderer builds and shows
    has one row per label occurring among the true or the predicted labels.
    The row of a label with at least one true sample sums to 1.  The row of
    a label without a true sample is not undefined: the metrics library has
    replaced its 0/0 entries by zeros before the renderer uses it. *)
Theorem confusion_matrix_rows y_true y_pred cm :
  confusion_matrix_true y_true y_pred = inr cm ->
  length cm = length (unique_labels y_true y_pred) /\
  (forall i a row,
      nth_error (unique_labels y_true y_pred) i = Some a ->
      nth_error cm i = Some row ->
      (In a y_true -> (Qsum row == 1)%Q) /\
      (~ In a y_true -> Forall (fun v => v = 0%Q) row)) /\
  (forall names title path dpi,
      exists rest,
        fst (draw_confusion_matrix y_true y_pred names title path dpi)
        = Plt (Imshow cm) :: rest).
Proof.
  intros H.
  destruct (confusion_matrix_true_square _ _ _ H) as [Hm Hrows].
  split; [exact Hm |]. split.
  - intros i a row Ha Hrow. eapply confusion_matrix_true_row; eassumption.
  - intros names title path dpi. unfold draw_confusion_matrix.
    rewrite H, bind_lift_inr. unfold plt at 1. rewrite bind_emit.
    eexists. reflexivity.
Qed.

(** A split of a four-class problem in which the classes 2 and 3 occur
    neither as truth nor as prediction: the matrix has two rows, none for
    the absent classes, and the renderer raises [IndexError] at the first
    cell outside it. *)
Lemma renderer_absent_classes_unhandled :
  confusion_matrix_true [0; 1]%Z [0; 1]%Z = inr [[1; 0]; [0; 1]]%Q /\
  length label_name = 4 /\
  draw_confusion_matrix [0; 1]%Z [0; 1]%Z label_name "Confusion Matrix" None 100
  = ([Plt (Imshow [[1; 0]; [0; 1]]%Q); Plt (Title "Confusion Matrix");
      Plt (Xlabel "Predict label"); Plt (Ylabel "Truth label");
      Plt (Yticks 4 label_name); Plt (Xticks 4 label_name 45);
      Plt TightLayout; Plt Colorbar;
      Plt (Text 0 0 (100 # 100) White); Plt (Text 0 1 (0 # 100) Black)],
     inl IndexError).
Proof. repeat split. Qed.

(* ================================================================== *)
(** * Further properties of the script *)

(** ** The indices returned by [topk] *)

Lemma insert_desc_perm tie x l : Permutation (insert_desc tie x l) (x :: l).
Proof.
  induction l as [| y l IH]; simpl; [apply Permutation_refl |].
  destruct (negb (Qle_bool (snd y) (snd x))).
  - eapply Permutation_trans; [apply perm_skip, IH | apply perm_swap].
  - destruct (negb (Qle_bool (snd x) (snd y))); [apply Permutation_refl |].
    destruct (tie (fst x) (fst y)); [apply Permutation_refl |].
    eapply Permutation_trans; [apply perm_skip, IH | apply perm_swap].
Qed.

Lemma sort_desc_perm tie l : Permutation (sort_desc tie l) l.
Proof.
  induction l as [| x l IH]; simpl; [constructor |].
  eapply Permutation_trans; [apply insert_desc_perm | now apply perm_skip].
Qed.

Lemma map_fst_combine_seq {A} (row : list A) : forall s,
  map fst (combine (seq s (length row)) row) = seq s (length row).
Proof.
  induction row as [| x row IH]; intros s; simpl; [reflexivity |].
  now rewrite IH.
Qed.

Lemma sorted_indices_perm tie row :
  Permutation (map fst (sort_desc tie (combine (seq 0 (length row)) row)))
              (seq 0 (length row)).
Proof.
  rewrite <- (map_fst_combine_seq row 0) at 2.
  apply Permutation_map, sort_desc_perm.
Qed.

(** With at least two classes, the two best indices exist and differ, and
    the best of one is the first of the best two, whatever the order among
    equal scores. *)
Lemma topk_row_two tie row :
  2 <= length row ->
  exists i0 i1 : Z,
    i0 <> i1 /\ topk_row tie 2 row = [i0; i1] /\ topk_row tie 1 row = [i0].
Proof.
  intros Hlen. unfold topk_row.
  pose proof (sorted_indices_perm tie row) as Hp.
  pose proof (Permutation_length Hp) as Hl.
  pose proof (Permutation_NoDup (Permutation_sym Hp) (seq_NoDup _ _)) as Hnd.
  rewrite length_map, length_seq in Hl.
  destruct (sort_desc tie (combine (seq 0 (length row)) row)) as [| a [| b rest]];
    simpl in Hl; try lia.
  exists (Z.of_nat (fst a)), (Z.of_nat (fst b)). simpl.
  split; [| split; reflexivity].
  simpl in Hnd. inversion Hnd as [| ? ? Hnin _]; subst.
  intros E. apply Nat2Z.inj in E. apply Hnin. left. now symmetry.
Qed.

Lemma row_eq_cons p ps y ys :
  row_eq (p :: ps) (y :: ys) = (p =? y)%Z :: row_eq ps ys.
Proof. reflexivity. Qed.

Lemma wf_rows_full out b K :
  shape out = [b; K] -> wf out ->
  Forall (fun row => length row = K) (chunks K b (data out)).
Proof.
  intros Hs Hwf. apply chunks_full. unfold wf in Hwf.
  rewrite Hwf, Hs. cbn [numel fold_right]. lia.
Qed.

(** Two index rows that differ at every sample cannot both match the
    sample's label. *)
Lemma distinct_rows_hits p0 : forall p1 tgt,
  Forall2 (fun a b : Z => a <> b) p0 p1 ->
  count_true (row_eq p0 tgt) + count_true (row_eq p1 tgt) <= length tgt.
Proof.
  induction p0 as [| a p0 IH]; intros p1 tgt H.
  - inversion H; subst. unfold row_eq, count_true. simpl. lia.
  - inversion H as [| ? b' ? p1' Hab Hrest]; subst.
    destruct tgt as [| y tgt]; [unfold row_eq, count_true; simpl; lia |].
    rewrite !row_eq_cons, !count_true_cons. specialize (IH _ tgt Hrest).
    cbn [length].
    destruct (Z.eqb_spec a y), (Z.eqb_spec b' y); subst; lia.
Qed.

Lemma topk_two_distinct out b K :
  shape out = [b; K] -> wf out -> 2 <= K ->
  forall pred, topk out 2 = inr pred ->
  length pred = b /\
  Forall2 (fun a c : Z => a <> c)
          (map (fun row => nth 0 row 0%Z) pred)
          (map (fun row => nth 1 row 0%Z) pred).
Proof.
  intros Hs Hwf HK pred. unfold topk. rewrite Hs.
  destruct (K <? 2) eqn:E; [apply Nat.ltb_lt in E; lia |].
  intros H. injection H as <-.
  split; [now rewrite length_map, length_seq |].
  pose proof (wf_rows_full out b K Hs Hwf) as Hrows.
  rewrite Forall_forall in Hrows.
  assert (Hin : forall r, In r (seq 0 b) -> r < b)
    by (intros r Hr; apply in_seq in Hr; lia).
  induction (seq 0 b) as [| r rs IH]; cbn [map]; constructor.
  - assert (Hr : r < b) by (apply Hin; now left).
    assert (Hlen : length (nth r (chunks K b (data out)) []) = K).
    { apply Hrows, nth_In. now rewrite length_chunks. }
    destruct (topk_row_two (topk_tie out 2 r) (nth r (chunks K b (data out)) []))
      as (i0 & i1 & Hne & E2 & _); [lia |].
    rewrite E2. exact Hne.
  - apply IH. intros r' Hr'. apply Hin. now right.
Qed.

(** The top-2 count of a batch is at most its number of labels. *)
Lemma correct_count_top2_bound out labels K c1 c2 :
  shape out = [length labels; K] -> wf out -> 2 <= K ->
  correct_count out labels [1; 2] = inr [c1; c2] ->
  (c2 <= Qnat (length labels))%Q.
Proof.
  intros Hs Hwf HK. unfold correct_count. cbn [fold_left Nat.max].
  destruct (topk out 2) as [e | pred] eqn:Ht; [discriminate |].
  destruct (topk_two_distinct out _ K Hs Hwf HK pred Ht) as [Hlen Hd].
  rewrite Hlen. unfold expand_target. rewrite Nat.eqb_refl.
  unfold transpose. cbn [seq map]. unfold correct_k. cbn [firstn concat].
  rewrite !app_nil_r, count_true_app.
  intros H. injection H as _ <-.
  apply Qnat_le, distinct_rows_hits, Hd.
Qed.

(** [correct_count] returns one count per requested [k], and a larger [k]
    never gives a smaller count. *)
Theorem correct_count_monotone out target ks res :
  correct_count out target ks = inr res ->
  length res = length ks /\
  forall i j ki kj ci cj,
    nth_error ks i = Some ki -> nth_error ks j = Some kj ->
    nth_error res i = Some ci -> nth_error res j = Some cj ->
    ki <= kj -> (ci <= cj)%Q.
Proof.
  unfold correct_count. destruct ks as [| k0 ks]; [discriminate |].
  destruct (topk out (fold_left Nat.max ks k0)) as [e | pred]; [discriminate |].
  destruct (expand_target target (length pred)) as [e | tgt]; [discriminate |].
  set (correct := map (fun pr => row_eq pr tgt)
                      (transpose (fold_left Nat.max ks k0) pred)).
  set (F := fun k => Qnat (correct_k correct k)).
  intros H.
  assert (E : res = map F (k0 :: ks)) by (injection H as <-; reflexivity).
  clear H. subst res.
  split; [apply length_map |].
  intros i j ki kj ci cj Hi Hj Hci Hcj Hle.
  rewrite (map_nth_error F _ _ Hi) in Hci.
  rewrite (map_nth_error F _ _ Hj) in Hcj.
  injection Hci as <-. injection Hcj as <-.
  apply Qnat_le, correct_k_mono, Hle.
Qed.

(** ** Accuracies are percentages *)

Lemma count_true_le l : count_true l <= length l.
Proof. unfold count_true. apply filter_length_le. Qed.

(** The log and the outcome of [evaluate] on a split whose batches all
    pass, in terms of the accumulators. *)
Lemma evaluate_run net dl loss_fn ncrop dev stats :
  Forall2 (batch_run net loss_fn ncrop) dl stats ->
  0 < total_samples dl ->
  evaluate net dl loss_fn ncrop dev
  = (fst (for_each (evaluate_batch net loss_fn ncrop) dl init_counters)
     ++ report_head
          (100 * correct_count1 (accumulate init_counters dl stats)
           / n_samples (accumulate init_counters dl stats))
          (100 * correct_count2 (accumulate init_counters dl stats)
           / n_samples (accumulate init_counters dl stats))
          (loss_tr (accumulate init_counters dl stats)
           / n_samples (accumulate init_counters dl stats))
     ++ fst (report_tail (accumulate init_counters dl stats)),
     snd (report_tail (accumulate init_counters dl stats))).
Proof.
  intros HF Hpos. rewrite evaluate_unfold.
  pose proof (loop_run _ _ _ _ _ HF init_counters) as Hrun.
  pose proof (Forall2_length HF) as Hlen.
  destruct (for_each (evaluate_batch net loss_fn ncrop) dl init_counters)
    as [fwd res]. simpl in Hrun. subst res.
  assert (Hnz : ~ (n_samples (accumulate init_counters dl stats) == 0)%Q).
  { rewrite accumulate_init_n by assumption. now apply Qnat_nonzero. }
  unfold bind. rewrite (evaluate_report_nonzero _ Hnz). reflexivity.
Qed.

Lemma batch_hits_bound net loss_fn ncrop K dl stats :
  2 <= K ->
  Forall2 (batch_run net loss_fn ncrop) dl stats ->
  Forall2 (fun b s => shape (b_out s) = [length (snd b); K] /\ wf (b_out s))
          dl stats ->
  (0 <= Qsum (map b_c1 stats))%Q /\
  (Qsum (map b_c2 stats) <= Qnat (total_samples dl))%Q.
Proof.
  intros HK HF. induction HF as [| b s dl stats Hb _ IH]; intros HS.
  - split; apply Qle_refl.
  - inversion HS as [| ? ? ? ? [Hs Hwf] HS']; subst.
    destruct (IH HS') as [IH1 IH2]. destruct Hb as (_ & _ & Hc & _).
    pose proof (correct_count_top2_bound _ _ K _ _ Hs Hwf HK Hc) as Hb2.
    apply correct_count_top1_le_top2 in Hc. destruct Hc as [Hc0 _].
    change (Qsum (map b_c1 (s :: stats))) with (b_c1 s + Qsum (map b_c1 stats))%Q.
    change (Qsum (map b_c2 (s :: stats))) with (b_c2 s + Qsum (map b_c2 stats))%Q.
    change (total_samples (b :: dl)) with (length (snd b) + total_samples dl).
    split.
    + rewrite <- (Qplus_0_l 0). apply Qplus_le_compat; [exact Hc0 | exact IH1].
    + rewrite Qnat_add. apply Qplus_le_compat; [exact Hb2 | exact IH2].
Qed.

(** On a split whose batches are scored with one row per label, the two
    printed accuracies are percentages: 0 <= top-1 <= top-2 <= 100. *)
Theorem evaluate_accuracy_bounds net dl loss_fn ncrop dev K stats :
  Forall2 (batch_run net loss_fn ncrop) dl stats ->
  Forall2 (fun b s => shape (b_out s) = [length (snd b); K] /\ wf (b_out s))
          dl stats ->
  2 <= K ->
  0 < total_samples dl ->
  exists fwd a1 a2 l rest r,
    evaluate net dl loss_fn ncrop dev = (fwd ++ report_head a1 a2 l ++ rest, r) /\
    Forall is_forward fwd /\
    (0 <= a1)%Q /\ (a1 <= a2)%Q /\ (a2 <= 100)%Q.
Proof.
  intros HF HS HK Hpos.
  pose proof (Forall2_length HF) as Hlen.
  destruct (batch_hits_bound _ _ _ _ _ _ HK HF HS) as [H0 H100].
  pose proof (Qsum_le_pointwise b_c1 b_c2 stats (batch_run_counts _ _ _ _ _ HF))
    as H12.
  set (st := accumulate init_counters dl stats).
  assert (Hn : (n_samples st == Qnat (total_samples dl))%Q)
    by (apply accumulate_init_n; assumption).
  assert (Hnpos : (0 < n_samples st)%Q) by (rewrite Hn; now apply Qnat_pos).
  assert (Hc1 : (correct_count1 st == Qsum (map b_c1 stats))%Q)
    by (apply accumulate_init_c1; assumption).
  assert (Hc2 : (correct_count2 st == Qsum (map b_c2 stats))%Q)
    by (apply accumulate_init_c2; assumption).
  eexists _, _, _, _, _, _.
  split; [apply (evaluate_run _ _ _ _ _ _ HF Hpos) |].
  split; [apply logs_loop |]. fold st. split; [| split].
  - assert (E : (0 == 100 * 0 / n_samples st)%Q)
      by (field; intros Hz; rewrite Hz in Hnpos; now apply Qlt_irrefl in Hnpos).
    rewrite E. apply accuracy_le; [| assumption]. now rewrite Hc1.
  - apply accuracy_le; [| assumption]. now rewrite Hc1, Hc2.
  - assert (E : (100 == 100 * n_samples st / n_samples st)%Q)
      by (field; intros Hz; rewrite Hz in Hnpos; now apply Qlt_irrefl in Hnpos).
    rewrite E at 2. apply accuracy_le; [| assumption]. now rewrite Hc2, Hn.
Qed.

(** ** The log of a split that is evaluated *)

Lemma evaluate_outputs_one_forward net ncrop inputs tr out :
  evaluate_outputs net ncrop inputs = (tr, inr out) ->
  exists s, tr = [Forward s].
Proof.
  unfold evaluate_outputs, call. destruct ncrop.
  - destruct (shape inputs) as [| bs [| nc [| c [| h [| w [| ? ?]]]]]];
      try discriminate.
    destruct (view inputs _) as [e | t1]; [discriminate |].
    rewrite bind_lift_inr, bind_emit.
    destruct (net t1) as [e | o1]; [discriminate |].
    erewrite bind_ok by reflexivity.
    destruct (view o1 _) as [e | o2]; [discriminate |].
    rewrite bind_lift_inr.
    destruct (sum_dim1 o2) as [e | o3]; [discriminate |].
    rewrite bind_lift_inr. cbn. intros H. inversion H. eauto.
  - rewrite bind_emit. destruct (net inputs) as [e | o]; [discriminate |].
    cbn. intros H. inversion H. eauto.
Qed.

Lemma evaluate_batch_one_forward net loss_fn ncrop st b tr st' :
  evaluate_batch net loss_fn ncrop st b = (tr, inr st') ->
  exists s, tr = [Forward s].
Proof.
  destruct b as [inputs labels]. unfold evaluate_batch. intros H.
  apply bind_inr_inv in H. destruct H as (tr1 & out & tr2 & Ho & Hm & ->).
  apply evaluate_outputs_one_forward in Ho. destruct Ho as [s ->].
  pose proof (evaluate_metrics_no_log loss_fn st out labels) as Hn.
  rewrite Hm in Hn. simpl in Hn. subst tr2. exists s. reflexivity.
Qed.

Lemma loop_one_forward_each net loss_fn ncrop dl : forall st tr st',
  for_each (evaluate_batch net loss_fn ncrop) dl st = (tr, inr st') ->
  Forall is_forward tr /\ length tr = length dl.
Proof.
  induction dl as [| b dl IH]; intros st tr st' H.
  - simpl in H. inversion H. split; [constructor | reflexivity].
  - cbn [for_each] in H. apply bind_inr_inv in H.
    destruct H as (tr1 & st1 & tr2 & Hb & Hrest & ->).
    apply evaluate_batch_one_forward in Hb. destruct Hb as [s ->].
    apply IH in Hrest. destruct Hrest as [Hf Hl].
    split; [constructor; [exact I | assumption] | simpl; now rewrite Hl].
Qed.

Lemma report_tail_lines st tl r :
  report_tail st = (tl, inr r) ->
  exists p rc f cm,
    tl = [Print (LPrecision p); Print (LRecall rc); Print (LF1 f);
          Print (LConfusion cm)].
Proof.
  unfold report_tail, precision_score, recall_score, f1_score, micro_score,
    confusion_matrix, check_consistent_length, check_targets.
  destruct (length (y_gt st) =? length (y_pred st)); [| discriminate].
  destruct (length (y_gt st) =? 0); [discriminate |].
  rewrite !bind_lift_inr. unfold print. rewrite !bind_emit. cbn.
  intros H. inversion H. eauto.
Qed.

(** A call of [evaluate] that returns has run the network exactly once per
    batch and then printed the eight lines of the report, in this order:
    separator, top-1, top-2, loss, precision, recall, F1, confusion
    matrix. *)
Theorem evaluate_log_shape net dl loss_fn ncrop dev tr r :
  evaluate net dl loss_fn ncrop dev = (tr, inr r) ->
  exists fwd a1 a2 l p rc f cm,
    tr = fwd ++ [Print LSeparator; Print (LTop1 a1); Print (LTop2 a2);
                 Print (LLoss l); Print (LPrecision p); Print (LRecall rc);
                 Print (LF1 f); Print (LConfusion cm)] /\
    Forall is_forward fwd /\
    length fwd = length dl.
Proof.
  rewrite evaluate_unfold. intros H. apply bind_inr_inv in H.
  destruct H as (fwd & st & rep & Hloop & Hrep & ->).
  apply loop_one_forward_each in Hloop. destruct Hloop as [Hf Hl].
  destruct (Qeq_dec (n_samples st) 0) as [Hz | Hnz].
  - rewrite (evaluate_report_zero st Hz) in Hrep. discriminate.
  - rewrite (evaluate_report_nonzero st Hnz) in Hrep.
    destruct (report_tail st) as [tl rt] eqn:Ht. cbn [fst snd] in Hrep.
    inversion Hrep; subst rep rt.
    apply report_tail_lines in Ht. destruct Ht as (p & rc & f & cm & ->).
    exists fwd. eexists _, _, _, p, rc, f, cm.
    split; [reflexivity | split; assumption].
Qed.

(** ** The first failing batch ends the split *)

(** When the batches before [b] pass and [b] raises, [evaluate] ends with
    that exception right after the log of [b]: the batches after [b] are
    not looked at and no report is printed. *)
Theorem evaluate_stops_at_first_failure net loss_fn ncrop dev pre b post st e :
  snd (for_each (evaluate_batch net loss_fn ncrop) pre init_counters) = inr st ->
  snd (evaluate_batch net loss_fn ncrop st b) = inl e ->
  evaluate net (pre ++ b :: post) loss_fn ncrop dev
  = (fst (for_each (evaluate_batch net loss_fn ncrop) pre init_counters)
     ++ fst (evaluate_batch net loss_fn ncrop st b),
     inl e).
Proof.
  intros Hpre Hb. rewrite evaluate_unfold, for_each_app.
  destruct (for_each (evaluate_batch net loss_fn ncrop) pre init_counters)
    as [tr1 r1]. simpl in Hpre. subst r1.
  cbn [for_each fst].
  rewrite (bind_ok (tr1, inr st) _ tr1 st eq_refl).
  destruct (evaluate_batch net loss_fn ncrop st b) as [tr2 r2].
  simpl in Hb. subst r2. reflexivity.
Qed.

(** ** Degenerate batches *)

Lemma view_zero_product t bs nc :
  bs * nc = 0 ->
  view t [Z.of_nat bs; Z.of_nat nc; -1]%Z = inl RuntimeError.
Proof.
  intros H. unfold view.
  assert (Hk : known_product [Z.of_nat bs; Z.of_nat nc; (-1)%Z] = 0%Z).
  { unfold known_product. cbn [fold_right]. rewrite !is_infer_of_nat.
    change (is_infer (-1)) with true. cbn iota.
    rewrite Z.mul_1_r, <- Nat2Z.inj_mul, H. reflexivity. }
  rewrite Hk.
  cbn [existsb filter length]. rewrite !is_infer_of_nat.
  change (is_infer (-1)) with true. cbn [length Nat.ltb Nat.leb Nat.eqb].
  assert (H1 : (Z.of_nat bs <? -1)%Z = false) by (apply Z.ltb_ge; lia).
  assert (H2 : (Z.of_nat nc <? -1)%Z = false) by (apply Z.ltb_ge; lia).
  rewrite H1, H2. cbn [orb negb Z.ltb Z.compare andb].
  rewrite orb_false_r.
  destruct (Z.of_nat (numel (shape t)) =? 0)%Z; reflexivity.
Qed.

(** With the crop flag on, a batch without samples or without crops
    always raises: the reshape on line 97 cannot infer the class
    dimension, so the division by the crop count is only reached with a
    positive count. *)
Theorem evaluate_outputs_empty_crops net inputs bs nc c h w :
  shape inputs = [bs; nc; c; h; w] ->
  bs * nc = 0 ->
  exists tr e, evaluate_outputs net true inputs = (tr, inl e).
Proof.
  intros Hs H0. unfold evaluate_outputs, call. rewrite Hs.
  destruct (view inputs _) as [e | t1]; [eexists _, _; reflexivity |].
  rewrite bind_lift_inr, bind_emit.
  destruct (net t1) as [e | o1]; [eexists _, _; reflexivity |].
  erewrite bind_ok by reflexivity.
  rewrite (view_zero_product o1 bs nc H0). eexists _, _. reflexivity.
Qed.

(** A network with fewer than two output classes cannot be evaluated: once
    the loss is computed, [topk(2)] inside [correct_count] raises and the
    batch ends in a [RuntimeError]. *)
Theorem evaluate_batch_needs_two_classes net loss_fn ncrop st inputs labels
    tr out b k l :
  evaluate_outputs net ncrop inputs = (tr, inr out) ->
  shape out = [b; k] ->
  k < 2 ->
  loss_fn out labels = inr l ->
  evaluate_batch net loss_fn ncrop st (inputs, labels) = (tr, inl RuntimeError).
Proof.
  intros Ho Hs Hk Hl. unfold evaluate_batch.
  rewrite (bind_ok _ _ _ _ Ho). unfold evaluate_metrics.
  rewrite Hl, bind_lift_inr.
  assert (Hc : correct_count out labels [1; 2] = inl RuntimeError).
  { unfold correct_count, topk. cbn [fold_left Nat.max]. rewrite Hs.
    apply Nat.ltb_lt in Hk. rewrite Hk. reflexivity. }
  rewrite Hc. cbn. now rewrite app_nil_r.
Qed.

(** ** Start-up failures *)

Lemma dict_get_missing {V} (d : list (string * V)) key :
  (forall v, ~ In (key, v) d) -> dict_get d key = inl KeyError.
Proof.
  induction d as [| [k v] d IH]; intros H; [reflexivity |].
  simpl. destruct (String.eqb_spec k key) as [-> | Hne].
  - exfalso. apply (H v). now left.
  - apply IH. intros v' Hin. apply (H v'). now right.
Qed.

(** A checkpoint file that loads but has no ["model_state_dict"] entry
    ends the run with a [KeyError]: the model has been printed, no data is
    loaded and nothing is evaluated. *)
Theorem main_missing_state_dict w args m ckpt :
  get_model w (arch args) = inr m ->
  torch_load w (checkpoint args) = inr ckpt ->
  (forall sd, ~ In ("model_state_dict"%string, sd) ckpt) ->
  main w args = ([Print (LModel (describe w m))], inl KeyError).
Proof.
  intros Hm Hl Hk. unfold main.
  rewrite Hm, bind_lift_inr. unfold print. rewrite bind_emit.
  rewrite Hl, bind_lift_inr, (dict_get_missing ckpt _ Hk). reflexivity.
Qed.

(** ** What the renderer writes and draws *)

Lemma logs_draw_confusion_matrix_none y_true y_pred names title dpi :
  logs is_drawing (draw_confusion_matrix y_true y_pred names title None dpi).
Proof.
  unfold draw_confusion_matrix, plt.
  apply logs_bind; [auto with logs | intros cm].
  repeat (apply logs_bind; [apply logs_emit; exact I | intros _]).
  apply logs_bind; [apply logs_draw_cells | intros _]. auto with logs.
Qed.

(** The renderer writes a file only when it is given a path, and then only
    once, after every cell has been drawn: a run of it that raises has
    written nothing. *)
Theorem draw_confusion_matrix_saves y_true y_pred names title path dpi :
  saved_images (fst (draw_confusion_matrix y_true y_pred names title path dpi))
  = match path, snd (draw_confusion_matrix y_true y_pred names title path dpi) with
    | Some p, inr _ => [(p, dpi)]
    | _, _ => []
    end.
Proof.
  destruct path as [p |].
  - destruct (draw_confusion_matrix_trace y_true y_pred names title p dpi)
      as (body & Hb & [Hd | [e Hd]]); rewrite Hd; cbn [fst snd].
    + rewrite saved_images_app, (saved_images_drawing _ Hb). reflexivity.
    + apply saved_images_drawing, Hb.
  - apply saved_images_drawing, logs_draw_confusion_matrix_none.
Qed.

Lemma fst_for_each_unit {A} (f : A -> M unit) xs :
  snd (for_each (fun _ x => f x) xs tt) = inr tt ->
  fst (for_each (fun _ x => f x) xs tt) = flat_map (fun x => fst (f x)) xs.
Proof.
  induction xs as [| x xs IH]; [reflexivity |].
  rewrite snd_for_each_cons. cbn [for_each flat_map]. rewrite fst_bind.
  destruct (snd (f x)) as [e | []]; [discriminate |].
  intros H. now rewrite (IH H).
Qed.

Lemma flat_map_ext_in {A B} (f g : A -> list B) l :
  (forall x, In x l -> f x = g x) -> flat_map f l = flat_map g l.
Proof.
  induction l as [| x l IH]; intros H; [reflexivity |]. simpl.
  rewrite (H x (or_introl eq_refl)), IH; [reflexivity |].
  intros y Hy. apply H. now right.
Qed.

Lemma draw_cell_log cm i j :
  snd (draw_cell cm i j) = inr tt ->
  fst (draw_cell cm i j)
  = [Plt (Text i j (round2 (float64 (nth i (nth j cm []) 0%Q)))
               (if i =? j then White else Black))].
Proof.
  unfold draw_cell, cm_get.
  destruct (nth_error cm j) as [row |] eqn:Ej; [| discriminate].
  destruct (nth_error row i) as [v |] eqn:Ei; [| discriminate].
  intros _. rewrite bind_lift_inr.
  rewrite (nth_error_nth _ _ [] Ej), (nth_error_nth _ _ 0%Q Ei). reflexivity.
Qed.

(** When the renderer gets through, it has annotated every cell once,
    column by column: the text at column [i], row [j] is the entry
    [cm[j, i]] rounded to two decimals, white on the diagonal and black
    elsewhere. *)
Theorem draw_cells_log cm n :
  snd (draw_cells cm n) = inr tt ->
  fst (draw_cells cm n)
  = flat_map
      (fun i => map (fun j => Plt (Text i j (round2 (float64 (nth i (nth j cm []) 0%Q)))
                                        (if i =? j then White else Black)))
                    (seq 0 n))
      (seq 0 n).
Proof.
  unfold draw_cells. intros H.
  rewrite (fst_for_each_unit _ _ H).
  rewrite for_each_unit_ok in H.
  apply flat_map_ext_in.
  intros i Hi. specialize (H i Hi).
  rewrite (fst_for_each_unit _ _ H).
  rewrite for_each_unit_ok in H.
  rewrite flat_map_concat_map. 
  rewrite (map_ext_in _ (fun j => [Plt (Text i j (round2 (float64 (nth i (nth j cm []) 0%Q)))
                                          (if i =? j then White else Black))])).
  - rewrite <- flat_map_concat_map. clear. induction (seq 0 n); simpl; congruence.
  - intros j Hj. apply draw_cell_log, H, Hj.
Qed.

(** The value written into a cell differs from the matrix entry by at
    most half a hundredth. *)
Theorem round2_close x :
  (x - (1 # 200) <= round2 x /\ round2 x <= x + (1 # 200))%Q.
Proof.
  unfold round2.
  set (y := (x * 100)%Q). set (f := Qfloor y).
  pose proof (Qfloor_le y) as Hlo. pose proof (Qlt_floor y) as Hhi.
  fold f in Hlo, Hhi. rewrite inject_Z_plus in Hhi.
  change (inject_Z 1) with 1%Q in Hhi.
  unfold Qdiv. change (/ 100)%Q with (1 # 100)%Q.
  destruct (Qcompare_spec (y - inject_Z f) (1 # 2)) as [E | E | E].
  - destruct (Z.even f).
    + unfold y in *. split; lra.
    + rewrite inject_Z_plus. change (inject_Z 1) with 1%Q.
      unfold y in *. split; lra.
  - unfold y in *. split; lra.
  - rewrite inject_Z_plus. change (inject_Z 1) with 1%Q.
    unfold y in *. split; lra.
Qed.

(** ** The predicted class *)

(** The class recorded for a sample is a class of largest score in that
    sample's row: no other class of the row scores higher. *)
Theorem max_dim1_picks_a_largest out b K preds :
  shape out = [b; K] ->
  wf out ->
  0 < K ->
  max_dim1 out = inr preds ->
  length preds = b /\
  forall i, i < b ->
    exists p,
      nth_error preds i = Some (Z.of_nat p) /\ p < K /\
      forall j, j < K ->
        (nth (i * K + j) (data out) 0 <= nth (i * K + p) (data out) 0)%Q.
Proof.
  intros Hs Hwf HK Hm.
  rewrite (max_dim1_ok out b K Hs HK) in Hm. injection Hm as <-.
  split; [apply length_argmax_rows |].
  intros i Hi.
  set (row := firstn K (skipn (i * K) (data out))).
  assert (Hlen : i * K + K <= length (data out)).
  { unfold wf in Hwf. rewrite Hwf, Hs. cbn [numel fold_right]. nia. }
  assert (Hrow : length row = K) by (apply length_block; exact Hlen).
  assert (Hne : row <> []) by (intros E; rewrite E in Hrow; simpl in Hrow; lia).
  destruct (argmax_is_max row Hne) as [Hp Hmax].
  exists (argmax row). split; [| split; [lia |]].
  - unfold argmax_rows.
    assert (E : nth_error (chunks K b (data out)) i = Some row).
    { rewrite (nth_error_nth' _ []) by now rewrite length_chunks.
      now rewrite nth_chunks. }
    now rewrite (map_nth_error _ _ _ E).
  - intros j Hj. rewrite Forall_forall in Hmax.
    assert (Hin : In (nth j row 0%Q) row) by (apply nth_In; lia).
    apply Hmax in Hin.
    assert (E1 : nth j row 0%Q = nth (i * K + j) (data out) 0%Q)
      by (apply (nth_block K (i * K) (data out) j 0%Q); lia).
    assert (E2 : nth (argmax row) row 0%Q = nth (i * K + argmax row) (data out) 0%Q)
      by (apply (nth_block K (i * K) (data out) (argmax row) 0%Q); lia).
    rewrite E1, E2 in Hin. exact Hin.
Qed.

(** ** Targets that do not match the batch *)

(** A target whose length is neither the number of score rows nor 1 makes
    [correct_count] raise: [expand_as] cannot stretch it over the batch. *)
Theorem correct_count_target_mismatch out target b K ks :
  shape out = [b; K] ->
  fold_left Nat.max (tl ks) (hd 0 ks) <= K ->
  ks <> [] ->
  length target <> b ->
  length target <> 1 ->
  correct_count out target ks = inl RuntimeError.
Proof.
  intros Hs HK Hks Hb H1. unfold correct_count, topk.
  destruct ks as [| k0 ks]; [congruence |]. cbn [hd tl] in HK. rewrite Hs.
  destruct (K <? fold_left Nat.max ks k0) eqn:E;
    [apply Nat.ltb_lt in E; lia |].
  rewrite length_map, length_seq. unfold expand_target.
  destruct (length target =? b) eqn:Eb; [apply Nat.eqb_eq in Eb; lia |].
  destruct target as [| y [| y' t]]; try reflexivity.
  simpl in H1. congruence.
Qed.

Lemma topk_rows out maxk pred b K :
  shape out = [b; K] -> topk out maxk = inr pred -> length pred = b.
Proof.
  intros Hs. unfold topk. rewrite Hs.
  destruct (K <? maxk); [discriminate |].
  intros H. injection H as <-. now rewrite length_map, length_seq.
Qed.

(** A target of a single label is not rejected: it is broadcast over the
    batch, so [correct_count] returns what it returns for the target that
    repeats this label once per row of scores. *)
Theorem correct_count_single_target out y b K ks :
  shape out = [b; K] ->
  correct_count out [y] ks = correct_count out (repeat y b) ks.
Proof.
  intros Hs. unfold correct_count.
  destruct ks as [| k0 ks]; [reflexivity |].
  destruct (topk out (fold_left Nat.max ks k0)) as [e | pred] eqn:Ht;
    [reflexivity |].
  rewrite (topk_rows out _ pred b K Hs Ht).
  assert (E1 : expand_target [y] b = inr (repeat y b)).
  { unfold expand_target. cbn [length].
    destruct (1 =? b) eqn:Eb; [| reflexivity].
    apply Nat.eqb_eq in Eb. subst b. reflexivity. }
  assert (E2 : expand_target (repeat y b) b = inr (repeat y b)).
  { unfold expand_target. now rewrite repeat_length, Nat.eqb_refl. }
  rewrite E1, E2. reflexivity.
Qed.

(** ** Reshaping keeps the elements *)

Lemma numel_cons x l : numel (x :: l) = x * numel l.
Proof. reflexivity. Qed.

Lemma known_product_no_infer dims :
  Forall (fun d => (-1 <= d)%Z) dims ->
  filter is_infer dims = [] ->
  known_product dims = Z.of_nat (numel (map Z.to_nat dims)).
Proof.
  induction 1 as [| d dims Hd _ IH]; intros Hf; [reflexivity |].
  change (known_product (d :: dims))
    with (if is_infer d then known_product dims else (d * known_product dims)%Z).
  cbn [filter] in Hf. destruct (is_infer d) eqn:E; [discriminate |].
  rewrite (IH Hf). cbn [map]. rewrite numel_cons, Nat2Z.inj_mul.
  unfold is_infer in E. apply Z.eqb_neq in E. rewrite Z2Nat.id by lia.
  reflexivity.
Qed.

Lemma known_product_one_infer dims q :
  Forall (fun d => (-1 <= d)%Z) dims ->
  length (filter is_infer dims) = 1 ->
  Z.of_nat (numel (map (fun d => if is_infer d then q else Z.to_nat d) dims))
  = (known_product dims * Z.of_nat q)%Z.
Proof.
  induction 1 as [| d dims Hd Hrest IH]; intros Hf; [discriminate |].
  change (known_product (d :: dims))
    with (if is_infer d then known_product dims else (d * known_product dims)%Z).
  cbn [filter] in Hf. cbn [map]. rewrite numel_cons.
  destruct (is_infer d) eqn:E.
  - cbn [length] in Hf.
    assert (Hnil : filter is_infer dims = [])
      by (destruct (filter is_infer dims); [reflexivity | discriminate]).
    rewrite (known_product_no_infer dims Hrest Hnil).
    rewrite Nat2Z.inj_mul.
    assert (Hm : map (fun d0 => if is_infer d0 then q else Z.to_nat d0) dims
                 = map Z.to_nat dims).
    { apply map_ext_in. intros x Hx.
      destruct (is_infer x) eqn:Ex; [| reflexivity].
      assert (Hin : In x (filter is_infer dims)) by (apply filter_In; auto).
      rewrite Hnil in Hin. contradiction. }
    rewrite Hm. apply Z.mul_comm.
  - rewrite Nat2Z.inj_mul, (IH Hf).
    unfold is_infer in E. apply Z.eqb_neq in E. rewrite Z2Nat.id by lia. ring.
Qed.

Lemma existsb_negative_false dims :
  existsb (fun d => (d <? -1)%Z) dims = false ->
  Forall (fun d => (-1 <= d)%Z) dims.
Proof.
  induction dims as [| d dims IH]; intros H; constructor;
    cbn [existsb] in H; apply orb_false_iff in H; destruct H as [H1 H2].
  - apply Z.ltb_ge in H1. exact H1.
  - auto.
Qed.

(** [view] never changes the elements or their number: whenever it
    returns, the new tensor has the same elements in the same order, as
    many dimensions as were asked for, and a shape of the same size. *)
Theorem view_preserves t dims t' :
  view t dims = inr t' ->
  data t' = data t /\
  length (shape t') = length dims /\
  numel (shape t') = numel (shape t).
Proof.
  unfold view.
  destruct (existsb (fun d => (d <? -1)%Z) dims) eqn:Hneg; [discriminate |].
  apply existsb_negative_false in Hneg.
  destruct (1 <? length (filter is_infer dims)) eqn:H1; [discriminate |].
  apply Nat.ltb_ge in H1.
  destruct (length (filter is_infer dims) =? 0) eqn:H0.
  - apply Nat.eqb_eq in H0.
    assert (Hnil : filter is_infer dims = [])
      by (destruct (filter is_infer dims); [reflexivity | discriminate]).
    destruct (Z.eqb_spec (Z.of_nat (numel (shape t))) (known_product dims))
      as [En | _]; [| discriminate].
    intros H. injection H as <-. cbn [data shape].
    split; [reflexivity |]. split; [apply length_map |].
    rewrite (known_product_no_infer dims Hneg Hnil) in En. lia.
  - apply Nat.eqb_neq in H0.
    assert (Hone : length (filter is_infer dims) = 1) by lia.
    set (n := Z.of_nat (numel (shape t))). set (p := known_product dims).
    destruct ((n =? p)%Z || ((0 <? p)%Z && (n mod p =? 0)%Z))%bool eqn:Hc;
      [| discriminate].
    destruct (Z.eqb_spec p 0) as [Hp | Hp]; [discriminate |].
    intros H. injection H as <-. cbn [data shape].
    split; [reflexivity |]. split; [apply length_map |].
    assert (Hmod : (n mod p = 0)%Z).
    { apply orb_true_iff in Hc. destruct Hc as [Hc | Hc].
      - apply Z.eqb_eq in Hc. rewrite Hc. apply Z.mod_same. exact Hp.
      - apply andb_true_iff in Hc. destruct Hc as [_ Hc].
        apply Z.eqb_eq in Hc. exact Hc. }
    assert (Hpos : (0 < p)%Z).
    { apply orb_true_iff in Hc. destruct Hc as [Hc | Hc].
      - apply Z.eqb_eq in Hc. unfold n in Hc. lia.
      - apply andb_true_iff in Hc. destruct Hc as [Hc _].
        apply Z.ltb_lt in Hc. exact Hc. }
    assert (Hq : (0 <= n / p)%Z) by (apply Z.div_pos; unfold n; lia).
    pose proof (known_product_one_infer dims (Z.to_nat (n / p)) Hneg Hone) as Hk.
    fold p in Hk. rewrite Z2Nat.id in Hk by exact Hq.
    assert (Hn : (p * (n / p) = n)%Z).
    { symmetry. apply Z.div_exact; [exact Hp | exact Hmod]. }
    rewrite Hn in Hk. apply Nat2Z.inj. exact Hk.
Qed.

(** ** The printed confusion matrix *)

Lemma label_counts_total labels : forall y_true,
  NoDup labels ->
  (forall y, In y y_true -> In y labels) ->
  nat_sum (map (fun a => count_true (map (fun x => (x =? a)%Z) y_true)) labels)
  = length y_true.
Proof.
  induction y_true as [| g y_true IH]; intros Hnd Hin.
  - cbn [map]. unfold count_true. simpl. apply nat_sum_map_zero.
  - rewrite (map_ext _ (fun a => (if (g =? a)%Z then 1 else 0)
                                 + count_true (map (fun x => (x =? a)%Z) y_true)))
      by (intros a; cbn [map]; apply count_true_cons).
    rewrite nat_sum_map_add, IH; auto; [| intros y Hy; apply Hin; now right].
    rewrite nat_sum_indicator; [reflexivity | assumption | apply Hin; now left].
Qed.

(** The counts of the confusion matrix that [evaluate] prints add up to
    the number of samples. *)
Theorem confusion_matrix_total y_true y_pred cm :
  confusion_matrix y_true y_pred = inr cm ->
  nat_sum (map nat_sum cm) = length y_true.
Proof.
  unfold confusion_matrix, check_targets.
  destruct (length y_true =? length y_pred) eqn:E; [| discriminate].
  destruct (length y_true =? 0); [discriminate |].
  apply Nat.eqb_eq in E. intros H. injection H as <-.
  unfold confusion_counts. rewrite map_map.
  pose proof (increasing_NoDup _ (increasing_unique_labels y_true y_pred)) as Hnd.
  rewrite (map_ext _ (fun a => count_true (map (fun x => (x =? a)%Z) y_true))).
  - apply label_counts_total; [exact Hnd |].
    intros y Hy. apply in_unique_labels, in_or_app. now left.
  - intros a. apply row_sum_counts; [exact Hnd | | exact E].
    intros y Hy. apply in_unique_labels, in_or_app. now right.
Qed.

(** ** What the counts of [correct_count] count *)

Lemma Qle_bool_false x y : Qle_bool x y = false -> (y < x)%Q.
Proof.
  intros H. destruct (Qlt_le_dec y x) as [Hlt | Hle]; [exact Hlt |].
  apply Qle_bool_iff in Hle. congruence.
Qed.

Lemma insert_desc_sorted tie x l :
  StronglySorted by_score l -> StronglySorted by_score (insert_desc tie x l).
Proof.
  induction 1 as [| y l Hl IH Hy]; simpl; [repeat constructor |].
  assert (Hbelow : (snd y <= snd x)%Q -> Forall (by_score x) (y :: l)).
  { intros Hyx. constructor; [exact Hyx |].
    eapply Forall_impl; [| exact Hy]. unfold by_score. intros z Hz.
    eapply Qle_trans; eassumption. }
  assert (Hafter : (snd x <= snd y)%Q ->
                   StronglySorted by_score (y :: insert_desc tie x l)).
  { intros Hxy. constructor; [exact IH |].
    eapply Permutation_Forall; [apply Permutation_sym, insert_desc_perm |].
    constructor; assumption. }
  destruct (Qle_bool (snd y) (snd x)) eqn:Eyx; cbn [negb].
  - apply Qle_bool_iff in Eyx.
    destruct (Qle_bool (snd x) (snd y)) eqn:Exy; cbn [negb].
    + apply Qle_bool_iff in Exy.
      destruct (tie (fst x) (fst y)); [| auto].
      constructor; [constructor; assumption | auto].
    + constructor; [constructor; assumption | auto].
  - apply Qle_bool_false in Eyx. apply Hafter, Qlt_le_weak, Eyx.
Qed.

Lemma sort_desc_sorted tie l : StronglySorted by_score (sort_desc tie l).
Proof.
  induction l as [| x l IH]; simpl; [constructor |].
  now apply insert_desc_sorted.
Qed.

Lemma sorted_app_order {A} (R : A -> A -> Prop) l1 : forall l2,
  StronglySorted R (l1 ++ l2) ->
  forall a b, In a l1 -> In b l2 -> R a b.
Proof.
  induction l1 as [| x l1 IH]; intros l2 H a b Ha Hb; [contradiction |].
  simpl in H. inversion H as [| ? ? Hs Hx]; subst.
  destruct Ha as [<- | Ha].
  - rewrite Forall_forall in Hx. apply Hx, in_or_app. now right.
  - eapply IH; eassumption.
Qed.

Lemma combine_seq_scored row : forall s (l : list Q),
  (forall j, j < length l -> nth j l 0%Q = nth (s + j) row 0%Q) ->
  Forall (scored row) (combine (seq s (length l)) l).
Proof.
  intros s l. revert s. induction l as [| x l IH]; intros s H; simpl;
    constructor.
  - unfold scored. simpl. specialize (H 0). simpl in H.
    rewrite Nat.add_0_r in H. apply H. lia.
  - apply IH. intros j Hj. specialize (H (S j)). simpl in H.
    rewrite Nat.add_succ_r in H. apply H. lia.
Qed.

Lemma sort_desc_scored tie row :
  Forall (scored row) (sort_desc tie (combine (seq 0 (length row)) row)).
Proof.
  eapply Permutation_Forall; [apply Permutation_sym, sort_desc_perm |].
  apply combine_seq_scored. intros j Hj. reflexivity.
Qed.

Lemma filter_length_perm {A} (f : A -> bool) l l' :
  Permutation l l' -> length (filter f l) = length (filter f l').
Proof.
  induction 1 as [| x l l' _ IH | x y l | l l' l'' _ IH1 _ IH2]; simpl.
  - reflexivity.
  - destruct (f x); simpl; congruence.
  - destruct (f x), (f y); reflexivity.
  - congruence.
Qed.

Lemma filter_none {A} (f : A -> bool) l :
  (forall x, In x l -> f x = false) -> filter f l = [].
Proof.
  induction l as [| x l IH]; intros H; [reflexivity |]. simpl.
  rewrite (H x (or_introl eq_refl)). apply IH. intros y Hy. apply H. now right.
Qed.

Lemma filter_all {A} (f : A -> bool) l :
  (forall x, In x l -> f x = true) -> filter f l = l.
Proof.
  induction l as [| x l IH]; intros H; [reflexivity |]. simpl.
  rewrite (H x (or_introl eq_refl)). f_equal. apply IH.
  intros y Hy. apply H. now right.
Qed.

Lemma filter_length_lt {A} (f : A -> bool) l x :
  In x l -> f x = false -> length (filter f l) < length l.
Proof.
  induction l as [| y l IH]; intros Hin Hx; [contradiction |]. simpl.
  destruct Hin as [-> | Hin].
  - rewrite Hx. pose proof (filter_length_le f l). lia.
  - specialize (IH Hin Hx). destruct (f y); simpl; lia.
Qed.

(** Where a class can stand in the sorted order of its row. *)
Lemma topk_row_bounds tie k row y :
  k <= length row ->
  y < length row ->
  ((not_below row y <? k) = true -> In (Z.of_nat y) (topk_row tie k row)) /\
  (In (Z.of_nat y) (topk_row tie k row) -> (above row y <? k) = true).
Proof.
  intros Hk Hy. unfold topk_row.
  set (pi := sort_desc tie (combine (seq 0 (length row)) row)).
  pose proof (sort_desc_sorted tie (combine (seq 0 (length row)) row)) as Hsorted.
  pose proof (sort_desc_scored tie row) as Hscored.
  pose proof (sorted_indices_perm tie row) as Hperm.
  fold pi in Hsorted, Hscored, Hperm.
  pose proof (Permutation_NoDup (Permutation_sym Hperm) (seq_NoDup _ _)) as Hnd.
  assert (Hlen : length pi = length row).
  { rewrite <- (length_map fst), (Permutation_length Hperm). apply length_seq. }
  rewrite <- (firstn_skipn k pi) in Hsorted, Hnd, Hperm.
  rewrite Forall_forall in Hscored.
  assert (Hsc : forall p, In p pi -> snd p = nth (fst p) row 0%Q)
    by (intros p Hp; apply Hscored, Hp).
  assert (Hin1 : forall p, In p (firstn k pi) -> In p pi)
    by (intros p Hp; rewrite <- (firstn_skipn k pi); apply in_or_app; now left).
  assert (Hin2 : forall p, In p (skipn k pi) -> In p pi)
    by (intros p Hp; rewrite <- (firstn_skipn k pi); apply in_or_app; now right).
  assert (Hy_in : In y (map fst (firstn k pi ++ skipn k pi))).
  { eapply Permutation_in; [apply Permutation_sym, Hperm |]. apply in_seq. lia. }
  rewrite map_app in Hy_in, Hnd, Hperm.
  assert (Hmem : In (Z.of_nat y) (map (fun p => Z.of_nat (fst p)) (firstn k pi))
                 <-> In y (map fst (firstn k pi))).
  { rewrite <- (map_map fst Z.of_nat). split.
    - intros H. apply in_map_iff in H. destruct H as (j & Hj & Hin).
      apply Nat2Z.inj in Hj. now subst.
    - apply in_map. }
  split.
  - (* fewer than k others at least as high: y is among the first k *)
    intros Hnb. apply Nat.ltb_lt in Hnb. apply Hmem.
    apply in_app_or in Hy_in. destruct Hy_in as [H | Hlate]; [exact H |].
    exfalso.
    apply in_map_iff in Hlate. destruct Hlate as (py & Hpy & Hlate).
    unfold not_below in Hnb.
    rewrite (filter_length_perm _ _ _ (Permutation_sym Hperm)) in Hnb.
    rewrite filter_app, length_app in Hnb.
    rewrite filter_all, length_map, length_firstn in Hnb; [lia |].
    intros j Hj. apply in_map_iff in Hj. destruct Hj as (pj & Hpj & Hj).
    apply andb_true_iff. split.
    + apply negb_true_iff, Nat.eqb_neq. intros E. subst j y.
      apply NoDup_app_remove_r in Hnd as Hnd1.
      assert (Hboth : In (fst py) (map fst (firstn k pi))) by (rewrite <- E; now apply in_map).
      clear - Hnd Hboth Hlate.
      induction (map fst (firstn k pi)) as [| a l IH]; [contradiction |].
      simpl in Hnd. inversion Hnd as [| ? ? Hna Hnd']; subst.
      destruct Hboth as [-> | Hb].
      * apply Hna, in_or_app. right. now apply in_map.
      * now apply IH.
    + apply Qle_bool_iff. subst j y.
      rewrite <- (Hsc py (Hin2 _ Hlate)), <- (Hsc pj (Hin1 _ Hj)).
      apply (sorted_app_order by_score _ _ Hsorted pj py Hj Hlate).
  - (* y among the first k: fewer than k classes strictly higher *)
    intros Hin. apply Hmem in Hin. apply Nat.ltb_lt.
    apply in_map_iff in Hin. destruct Hin as (py & Hpy & Hin).
    unfold above.
    rewrite (filter_length_perm _ _ _ (Permutation_sym Hperm)).
    rewrite filter_app, length_app.
    rewrite (filter_none _ (map fst (skipn k pi))).
    + simpl. rewrite Nat.add_0_r.
      assert (Hlt : length (filter (fun j => negb (Qle_bool (nth j row 0%Q) (nth y row 0%Q)))
                                   (map fst (firstn k pi)))
                    < length (map fst (firstn k pi))).
      { apply (filter_length_lt _ _ y).
        - rewrite <- Hpy. now apply in_map.
        - apply negb_false_iff, Qle_bool_iff, Qle_refl. }
      rewrite length_map, length_firstn in Hlt. lia.
    + intros j Hj. apply in_map_iff in Hj. destruct Hj as (pj & Hpj & Hj).
      apply negb_false_iff, Qle_bool_iff. subst j y.
      rewrite <- (Hsc py (Hin1 _ Hin)), <- (Hsc pj (Hin2 _ Hj)).
      apply (sorted_app_order by_score _ _ Hsorted py pj Hin Hj).
Qed.

Lemma topk_row_class tie k row z :
  In z (topk_row tie k row) -> exists j, z = Z.of_nat j /\ j < length row.
Proof.
  unfold topk_row. intros H. apply in_map_iff in H.
  destruct H as (p & <- & Hp). exists (fst p). split; [reflexivity |].
  assert (Hin : In (fst p) (map fst (sort_desc tie (combine (seq 0 (length row)) row)))).
  { apply in_map. rewrite <- (firstn_skipn k). apply in_or_app. now left. }
  eapply Permutation_in in Hin; [| apply sorted_indices_perm].
  apply in_seq in Hin. lia.
Qed.

(** Whether the label of a sample is hit by the [k] best classes lies
    between the two score conditions. *)
Lemma hit_bounds tie k row y :
  k <= length row ->
  (surely_in_topk k row y = true ->
   existsb (Z.eqb y) (topk_row tie k row) = true) /\
  (existsb (Z.eqb y) (topk_row tie k row) = true ->
   possibly_in_topk k row y = true).
Proof.
  intros Hk. split.
  - unfold surely_in_topk, is_class. intros H.
    apply andb_true_iff in H. destruct H as [Hc Hnb].
    apply andb_true_iff in Hc. destruct Hc as [H0 Hlt].
    apply Z.leb_le in H0. apply Nat.ltb_lt in Hlt.
    apply existsb_exists. exists y. split; [| apply Z.eqb_refl].
    rewrite <- (Z2Nat.id y H0).
    now apply (topk_row_bounds tie k row (Z.to_nat y) Hk Hlt).
  - intros H. apply existsb_exists in H. destruct H as (z & Hz & E).
    apply Z.eqb_eq in E. subst z.
    destruct (topk_row_class tie k row y Hz) as (j & -> & Hj).
    unfold possibly_in_topk, is_class. rewrite Nat2Z.id.
    apply andb_true_iff. split.
    + apply andb_true_iff. split; [apply Z.leb_le; lia | now apply Nat.ltb_lt].
    + now apply (topk_row_bounds tie k row j Hk Hj).
Qed.

Lemma count_samples_cons f row rows y labels :
  count_samples f (row :: rows) (y :: labels)
  = (if f row y then 1 else 0) + count_samples f rows labels.
Proof. unfold count_samples. cbn [combine map fst snd]. apply count_true_cons. Qed.

Lemma bool_le_nat (a b : bool) :
  (a = true -> b = true) -> (if a then 1 else 0) <= (if b then 1 else 0).
Proof. destruct a, b; intros H; try lia; discriminate (H eq_refl). Qed.

(** The two counts over a batch, row by row: each row comes with its own
    order among equal scores. *)
Lemma counts_bounds K (trs : list ((nat -> nat -> bool) * list Q)) : forall labels,
  Forall (fun tr => length (snd tr) = K) trs -> 2 <= K ->
  (count_samples (surely_in_topk 1) (map snd trs) labels
   <= count_true (row_eq (map (fun tr => nth 0 (topk_row (fst tr) 2 (snd tr)) 0%Z) trs)
                         labels)
   <= count_samples (possibly_in_topk 1) (map snd trs) labels) /\
  (count_samples (surely_in_topk 2) (map snd trs) labels
   <= count_true (row_eq (map (fun tr => nth 0 (topk_row (fst tr) 2 (snd tr)) 0%Z) trs)
                         labels)
      + count_true (row_eq (map (fun tr => nth 1 (topk_row (fst tr) 2 (snd tr)) 0%Z) trs)
                           labels)
   <= count_samples (possibly_in_topk 2) (map snd trs) labels).
Proof.
  induction trs as [| [tie row] trs IH]; intros labels Hrows HK.
  - unfold count_samples, row_eq, count_true. simpl. lia.
  - destruct labels as [| y labels];
      [unfold count_samples, row_eq, count_true; simpl; lia |].
    apply Forall_cons_iff in Hrows. destruct Hrows as [Hrow Hrows].
    cbn [fst snd] in Hrow.
    destruct (IH labels Hrows HK) as [IH1 IH2].
    destruct (topk_row_two tie row) as (i0 & i1 & Hne & E2 & E1); [lia |].
    destruct (hit_bounds tie 1 row y) as [S1 P1]; [lia |].
    destruct (hit_bounds tie 2 row y) as [S2 P2]; [lia |].
    rewrite E1 in S1, P1. rewrite E2 in S2, P2. cbn [existsb] in S1, P1, S2, P2.
    rewrite !orb_false_r in *.
    cbn [map fst snd]. rewrite !row_eq_cons, !count_true_cons, !count_samples_cons.
    rewrite E2. cbn [nth].
    rewrite (Z.eqb_sym i0 y), (Z.eqb_sym i1 y).
    pose proof (bool_le_nat _ _ S1) as A1. pose proof (bool_le_nat _ _ P1) as B1.
    pose proof (bool_le_nat _ _ S2) as A2. pose proof (bool_le_nat _ _ P2) as B2.
    destruct (Z.eqb_spec y i0), (Z.eqb_spec y i1); cbn [orb] in *; lia.
Qed.

Lemma map_nth_all {A} (l : list A) d :
  map (fun r => nth r l d) (seq 0 (length l)) = l.
Proof.
  induction l as [| x l IH]; [reflexivity |]. cbn [length seq map nth].
  f_equal. rewrite <- seq_shift, map_map. exact IH.
Qed.

(** For scores with one row per label over at least two classes, the top-k
    count of [correct_count] (k = 1, 2) lies between two numbers read off
    the scores alone: the samples whose label has fewer than k other
    classes scoring at least as high, and the samples whose label has fewer
    than k classes scoring strictly higher.  Without equal scores the two
    agree; with equal scores the count depends on the order [torch.topk]
    gives them, and stays within the bounds for every such order. *)
Theorem correct_count_counts_hits out labels K c1 c2 :
  shape out = [length labels; K] ->
  wf out ->
  2 <= K ->
  correct_count out labels [1; 2] = inr [c1; c2] ->
  (Qnat (count_samples (surely_in_topk 1) (chunks K (length labels) (data out)) labels)
   <= c1)%Q /\
  (c1 <= Qnat (count_samples (possibly_in_topk 1)
                 (chunks K (length labels) (data out)) labels))%Q /\
  (Qnat (count_samples (surely_in_topk 2) (chunks K (length labels) (data out)) labels)
   <= c2)%Q /\
  (c2 <= Qnat (count_samples (possibly_in_topk 2)
                 (chunks K (length labels) (data out)) labels))%Q.
Proof.
  intros Hs Hwf HK. unfold correct_count, topk. cbn [fold_left Nat.max].
  rewrite Hs.
  destruct (K <? 2) eqn:E; [apply Nat.ltb_lt in E; lia |].
  rewrite length_map, length_seq.
  unfold expand_target. rewrite Nat.eqb_refl.
  unfold transpose. cbn [seq map]. unfold correct_k. cbn [firstn concat].
  rewrite !app_nil_r, count_true_app. repeat rewrite map_map.
  intros H. injection H as <- <-.
  set (rows := chunks K (length labels) (data out)).
  set (trs := map (fun r => (topk_tie out 2 r, nth r rows [])) (seq 0 (length labels))).
  assert (Hsnd : map snd trs = rows).
  { unfold trs. rewrite map_map. cbn [snd].
    rewrite <- (length_chunks K (length labels) (data out)). apply map_nth_all. }
  assert (Hlen : Forall (fun tr => length (snd tr) = K) trs).
  { apply Forall_forall. intros tr Htr.
    assert (Hin : In (snd tr) (map snd trs)) by now apply in_map.
    rewrite Hsnd in Hin.
    pose proof (wf_rows_full out _ K Hs Hwf) as Hrows.
    rewrite Forall_forall in Hrows. now apply Hrows. }
  destruct (counts_bounds K trs labels Hlen HK) as [[L1 U1] [L2 U2]].
  rewrite Hsnd in L1, U1, L2, U2. unfold trs in L1, U1, L2, U2.
  repeat rewrite map_map in L1. repeat rewrite map_map in U1.
  repeat rewrite map_map in L2. repeat rewrite map_map in U2.
  cbn [fst snd] in L1, U1, L2, U2.
  repeat split; apply Qnat_le; assumption.
Qed.

(** ** The three splits, evaluated and rendered *)

Lemma evaluate_returns_log net dl loss_fn ncrop dev e r :
  evaluate net dl loss_fn ncrop dev = (e, inr r) ->
  evaluation_log (length dl) e.
Proof.
  rewrite evaluate_unfold. intros H. apply bind_inr_inv in H.
  destruct H as (fwd & st & rep & Hloop & Hrep & ->).
  apply loop_one_forward_each in Hloop. destruct Hloop as [Hf Hl].
  destruct (Qeq_dec (n_samples st) 0) as [Hz | Hnz].
  - rewrite (evaluate_report_zero st Hz) in Hrep. discriminate.
  - rewrite (evaluate_report_nonzero st Hnz) in Hrep.
    destruct (report_tail st) as [tl rt] eqn:Ht. cbn [fst snd] in Hrep.
    inversion Hrep; subst rep rt.
    apply report_tail_lines in Ht. destruct Ht as (p & rc & f & cm & ->).
    exists fwd. eexists _, _, _, p, rc, f, cm.
    split; [reflexivity | split; assumption].
Qed.

Lemma draw_cells_texts cm n :
  snd (draw_cells cm n) = inr tt ->
  fst (draw_cells cm n)
  = flat_map
      (fun i => map (fun j => Plt (Text i j (round2 (float64 (nth i (nth j cm []) 0%Q)))
                                        (if i =? j then White else Black)))
                    (seq 0 n))
      (seq 0 n).
Proof.
  unfold draw_cells. intros H.
  rewrite (fst_for_each_unit _ _ H).
  rewrite for_each_unit_ok in H.
  apply flat_map_ext_in.
  intros i Hi. specialize (H i Hi).
  rewrite (fst_for_each_unit _ _ H).
  rewrite for_each_unit_ok in H.
  rewrite flat_map_concat_map.
  rewrite (map_ext_in _ (fun j => [Plt (Text i j (round2 (float64 (nth i (nth j cm []) 0%Q)))
                                          (if i =? j then White else Black))])).
  - rewrite <- flat_map_concat_map. clear. induction (seq 0 n); simpl; congruence.
  - intros j Hj. apply draw_cell_log, H, Hj.
Qed.

Lemma draw_heat_map gt pr title path d :
  draw_confusion_matrix gt pr label_name title (Some path) 300 = (d, inr tt) ->
  exists cm, confusion_matrix_true gt pr = inr cm /\ heat_map_log cm title path d.
Proof.
  unfold draw_confusion_matrix.
  destruct (confusion_matrix_true gt pr) as [e | cm]; [discriminate |].
  rewrite bind_lift_inr. unfold plt. rewrite !bind_emit.
  change (length label_name) with 4.
  pose proof (draw_cells_texts cm 4) as Hc.
  destruct (draw_cells cm 4) as [cells [e | []]]; [discriminate |].
  specialize (Hc eq_refl). cbn [fst] in Hc.
  cbn [fst snd bind emit app]. intros H. injection H as <-.
  exists cm. split; [reflexivity |]. exists cells.
  split; [reflexivity |]. rewrite Hc. cbn [seq flat_map map app length].
  split; [repeat (apply Forall_cons; [exact I |]); apply Forall_nil | reflexivity].
Qed.

Lemma evaluate_and_draw_evaluated net dl loss_fn ncrop dev title path :
  snd (evaluate_and_draw net dl loss_fn ncrop dev title path) = inr tt ->
  split_evaluated net dl loss_fn ncrop dev title path
    (fst (evaluate_and_draw net dl loss_fn ncrop dev title path)).
Proof.
  unfold evaluate_and_draw.
  destruct (evaluate net dl loss_fn ncrop dev) as [e [err | [gt pr]]] eqn:He;
    [discriminate |].
  rewrite (bind_ok _ _ _ _ eq_refl). cbn [fst snd].
  destruct (draw_confusion_matrix gt pr label_name title (Some path) 300)
    as [d [err | []]] eqn:Hd; [discriminate |].
  intros _. cbn [fst].
  destruct (draw_heat_map gt pr title path d Hd) as (cm & Hcm & Hmap).
  exists e, d, gt, pr, cm. repeat split; try assumption.
  eapply evaluate_returns_log. eassumption.
Qed.

(** C8. A run of [main] that completes has built the model of the
    requested architecture, restored the weights stored in the checkpoint
    under ["model_state_dict"], fetched the three loaders, and evaluated and
    rendered them one after the other in the order train, validation, test:
    after the print of the model come the header ["Train"] and the log of
    the training split, then a [clf], the header ["Val"] and the log of the
    validation split, then a [clf], the header ["Test"] and the log of the
    test split.  The log of a split is that of [evaluate] with the restored
    model on its loader (one forward pass per batch and the eight report
    lines) followed by that of the renderer on the returned label sequences
    (the image of their confusion matrix, title, axes, colour bar, sixteen
    cell texts) and ends with the one [savefig] of that split, so exactly
    the three named images are written, each at 300 DPI. *)
Theorem main_three_splits_in_order w args :
  snd (main w args) = inr tt ->
  exists m0 ckpt sd m tl vl sl s1 s2 s3,
    get_model w (arch args) = inr m0 /\
    torch_load w (checkpoint args) = inr ckpt /\
    dict_get ckpt "model_state_dict" = inr sd /\
    load_state_dict w m0 sd = inr m /\
    get_dataloaders w false = inr (tl, vl, sl) /\
    fst (main w args)
    = [Print (LModel (describe w m0)); Print (LText "Train")] ++ s1 ++
      [Plt Clf; Print (LText "Val")] ++ s2 ++
      [Plt Clf; Print (LText "Test")] ++ s3 /\
    split_evaluated (forward w m) tl (cross_entropy w) (Ncrop args)
      (if cuda_is_available w then Cuda0 else Cpu)
      "Confusion Matrix on Training Set"
      "Confusion Matrix on Training Set.png" s1 /\
    split_evaluated (forward w m) vl (cross_entropy w) (Ncrop args)
      (if cuda_is_available w then Cuda0 else Cpu)
      "Confusion Matrix on Val Set"
      "Confusion Matrix on Val Set.png" s2 /\
    split_evaluated (forward w m) sl (cross_entropy w) (Ncrop args)
      (if cuda_is_available w then Cuda0 else Cpu)
      "Confusion Matrix on Test Set"
      "Confusion Matrix on Test Set.png" s3 /\
    saved_images (fst (main w args)) = three_images.
Proof.
  rewrite main_setup_splits.
  pose proof (logs_setup w args) as Hlog. unfold logs in Hlog.
  destruct (setup w args) as [pre [e | [m [[tl vl] sl]]]] eqn:Hs; simpl in Hlog.
  - simpl. discriminate.
  - apply setup_ok in Hs.
    destruct Hs as (m0 & ckpt & sd & Hm0 & Hck & Hsd & Hm & Hdl & Hpre).
    rewrite (bind_ok _ _ _ _ eq_refl). cbn [fst snd].
    rewrite splits_in_order. intros Hok.
    apply in_order_ok in Hok. destruct Hok as (H1 & H2 & H3 & Htr).
    pose proof (evaluate_and_draw_split_log _ _ _ _ _ _ _ H1) as L1.
    pose proof (evaluate_and_draw_split_log _ _ _ _ _ _ _ H2) as L2.
    pose proof (evaluate_and_draw_split_log _ _ _ _ _ _ _ H3) as L3.
    apply evaluate_and_draw_evaluated in H1, H2, H3.
    exists m0, ckpt, sd, m, tl, vl, sl. eexists _, _, _.
    split; [exact Hm0 |]. split; [exact Hck |]. split; [exact Hsd |].
    split; [exact Hm |]. split; [exact Hdl |].
    split; [rewrite Htr, Hpre; reflexivity |].
    split; [exact H1 |]. split; [exact H2 |]. split; [exact H3 |].
    rewrite Htr, !saved_images_app, (saved_images_print _ Hlog).
    rewrite (split_log_saved _ _ L1), (split_log_saved _ _ L2),
      (split_log_saved _ _ L3).
    reflexivity.
Qed.

End Properties.

(* ================================================================== *)
(** * The theorems on the demo world *)

Lemma evaluate_empty_split_witness :
  total_samples [] = 0 /\
  exists tr e,
    evaluate Demo.pixel_net [] Demo.margin_loss true Cpu = (tr, inl e) /\
    Forall is_forward tr /\
    (forall st,
        snd (for_each (evaluate_batch Demo.pixel_net Demo.margin_loss true) []
                      init_counters) = inr st ->
        e = ZeroDivisionError) /\
    (@nil batch = [] -> tr = [] /\ e = ZeroDivisionError).
Proof.
  split; [reflexivity |].
  apply (evaluate_empty_split Demo.pixel_net [] Demo.margin_loss true Cpu).
  reflexivity.
Defined.

Lemma evaluate_prints_means_witness :
  exists fwd a1 a2 l rest r,
    evaluate Demo.pixel_net Demo.crops_loader Demo.margin_loss true Cpu
    = (fwd ++ report_head a1 a2 l ++ rest, r) /\
    Forall is_forward fwd /\
    Forall is_print rest /\
    (l == Qsum (map b_loss Demo.crops_stats) / Qnat (total_samples Demo.crops_loader))%Q /\
    (a1 == 100 * Qsum (map b_c1 Demo.crops_stats)
           / Qnat (total_samples Demo.crops_loader))%Q /\
    (a2 == 100 * Qsum (map b_c2 Demo.crops_stats)
           / Qnat (total_samples Demo.crops_loader))%Q.
Proof.
  apply (evaluate_prints_means Demo.pixel_net Demo.crops_loader Demo.margin_loss
           true Cpu Demo.crops_stats).
  - repeat constructor.
  - vm_compute. lia.
Defined.

Lemma evaluate_top1_le_top2_witness :
  In (Print (LTop1 (300 # 4)))
     (fst (evaluate Demo.pixel_net Demo.crops_loader Demo.margin_loss true Cpu)) /\
  In (Print (LTop2 (400 # 4)))
     (fst (evaluate Demo.pixel_net Demo.crops_loader Demo.margin_loss true Cpu)) /\
  (300 # 4 <= 400 # 4)%Q.
Proof.
  assert (H1 : In (Print (LTop1 (300 # 4)))
     (fst (evaluate Demo.pixel_net Demo.crops_loader Demo.margin_loss true Cpu)))
    by (vm_compute; auto 10).
  assert (H2 : In (Print (LTop2 (400 # 4)))
     (fst (evaluate Demo.pixel_net Demo.crops_loader Demo.margin_loss true Cpu)))
    by (vm_compute; auto 10).
  split; [exact H1 |]. split; [exact H2 |].
  exact (evaluate_top1_le_top2 Demo.pixel_net Demo.crops_loader Demo.margin_loss
           true Cpu _ _ _ _ (surjective_pairing _) H1 H2).
Defined.

Lemma evaluate_label_sequences_witness :
  exists tr gt preds,
    evaluate Demo.pixel_net Demo.crops_loader Demo.margin_loss true Cpu
    = (tr, inr (gt, concat preds)) /\
    gt = all_labels Demo.crops_loader /\
    Forall2 (batch_predictions 4)
            (combine Demo.crops_loader (map b_out Demo.crops_stats)) preds /\
    length gt = total_samples Demo.crops_loader /\
    length (concat preds) = total_samples Demo.crops_loader /\
    Forall (in_range 4) (concat preds) /\
    (Forall (in_range 4) (all_labels Demo.crops_loader) -> Forall (in_range 4) gt).
Proof.
  apply (evaluate_label_sequences Demo.pixel_net Demo.crops_loader
           Demo.margin_loss true Cpu 4 (map b_out Demo.crops_stats)).
  - repeat constructor; eexists; vm_compute; reflexivity.
  - lia.
  - vm_compute. lia.
Defined.

Lemma ncrop_requires_five_dims_witness :
  length (shape (fst Demo.plain_batch_a)) <> 5 /\
  (exists tr e,
      evaluate Demo.pixel_net ([] ++ Demo.plain_batch_a :: [Demo.plain_batch_b])
               Demo.margin_loss true Cpu = (tr, inl e) /\
      Forall is_forward tr /\
      (forall st,
          snd (for_each (evaluate_batch Demo.pixel_net Demo.margin_loss true) []
                        init_counters) = inr st ->
          e = ValueError)) /\
  Ncrop default_args = true /\
  (forall w args val test,
      Ncrop args = true ->
      get_dataloaders w false
      = inr ([] ++ Demo.plain_batch_a :: [Demo.plain_batch_b], val, test) ->
      exists tr e, main w args = (tr, inl e) /\ saved_images tr = []).
Proof.
  split; [simpl; lia |].
  apply (ncrop_requires_five_dims Demo.pixel_net Demo.margin_loss Cpu []
           (fst Demo.plain_batch_a) (snd Demo.plain_batch_a) [Demo.plain_batch_b]).
  simpl. lia.
Defined.

Lemma main_ignores_unused_flags_witness :
  main (Demo.demo_world (Demo.crops_loader, Demo.crops_loader, Demo.crops_loader))
       default_args
  = main (Demo.demo_world (Demo.crops_loader, Demo.crops_loader, Demo.crops_loader))
         (mkArgs 7 42 "elsewhere.csv" "./best_checkpoint.tar" "ResNet18" true).
Proof.
  apply (main_ignores_unused_flags
           (Demo.demo_world (Demo.crops_loader, Demo.crops_loader, Demo.crops_loader))
           default_args
           (mkArgs 7 42 "elsewhere.csv" "./best_checkpoint.tar" "ResNet18" true));
    reflexivity.
Defined.

Lemma main_three_splits_in_order_witness :
  snd (main (Demo.demo_world (Demo.crops_loader, Demo.crops_loader, Demo.crops_loader))
            default_args) = inr tt /\
  saved_images
    (fst (main (Demo.demo_world (Demo.crops_loader, Demo.crops_loader, Demo.crops_loader))
               default_args))
  = three_images.
Proof.
  assert (H : snd (main (Demo.demo_world
                           (Demo.crops_loader, Demo.crops_loader, Demo.crops_loader))
                        default_args) = inr tt)
    by (vm_compute; reflexivity).
  split; [exact H |].
  destruct (main_three_splits_in_order _ _ H)
    as (m0 & ckpt & sd & m & tl & vl & sl & s1 & s2 & s3
        & _ & _ & _ & _ & _ & _ & _ & _ & _ & Hs).
  exact Hs.
Defined.

Lemma evaluate_outputs_crop_average_witness :
  exists avg,
    evaluate_outputs Demo.pixel_net true (fst Demo.crops_batch_a)
    = ([Forward [2 * 2; 1; 2; 2]], inr avg) /\
    shape avg = [2; 4] /\
    length (data avg) = 2 * 4 /\
    (forall b j, b < 2 -> j < 4 ->
        (nth (b * 4 + j) (data avg) 0
         == crop_average 2 4 (data (fst Demo.crops_batch_a)) b j)%Q) /\
    (forall loss_fn st labels,
        evaluate_batch Demo.pixel_net loss_fn true st (fst Demo.crops_batch_a, labels)
        = (Forward [2 * 2; 1; 2; 2] :: fst (evaluate_metrics loss_fn st avg labels),
           snd (evaluate_metrics loss_fn st avg labels))).
Proof.
  apply (evaluate_outputs_crop_average Demo.pixel_net (fst Demo.crops_batch_a)
           2 2 1 2 2 4 (mkT [4; 4] (data (fst Demo.crops_batch_a)))).
  - reflexivity.
  - lia.
  - lia.
  - simpl; lia.
  - reflexivity.
  - reflexivity.
  - reflexivity.
Defined.

Lemma single_crop_equals_plain_witness :
  exists out1,
    evaluate_outputs Demo.pixel_net true
      (mkT [2; 1; 1; 2; 2] (data (fst Demo.plain_batch_a)))
    = ([Forward [2; 1; 2; 2]], inr out1) /\
    evaluate_outputs Demo.pixel_net false
      (mkT [2; 1; 2; 2] (data (fst Demo.plain_batch_a)))
    = ([Forward [2; 1; 2; 2]],
       inr (mkT [2; 4] (data (fst Demo.plain_batch_a)))) /\
    tensor_eq out1 (mkT [2; 4] (data (fst Demo.plain_batch_a))).
Proof.
  apply (single_crop_equals_plain Demo.pixel_net 2 1 2 2 4
           (data (fst Demo.plain_batch_a))
           (mkT [2; 4] (data (fst Demo.plain_batch_a)))).
  - lia.
  - simpl; lia.
  - reflexivity.
  - reflexivity.
  - reflexivity.
Defined.

Lemma confusion_matrix_rows_witness :
  confusion_matrix_true [0; 0]%Z [1; 1]%Z = inr [[0 # 2; 2 # 2]; [0; 0]]%Q /\
  length [[0 # 2; 2 # 2]; [0; 0]]%Q = length (unique_labels [0; 0]%Z [1; 1]%Z) /\
  (forall i a row,
      nth_error (unique_labels [0; 0]%Z [1; 1]%Z) i = Some a ->
      nth_error [[0 # 2; 2 # 2]; [0; 0]]%Q i = Some row ->
      (In a [0; 0]%Z -> (Qsum row == 1)%Q) /\
      (~ In a [0; 0]%Z -> Forall (fun v => v = 0%Q) row)) /\
  (forall names title path dpi,
      exists rest,
        fst (draw_confusion_matrix [0; 0]%Z [1; 1]%Z names title path dpi)
        = Plt (Imshow [[0 # 2; 2 # 2]; [0; 0]]%Q) :: rest).
Proof.
  split; [vm_compute; reflexivity |].
  apply (confusion_matrix_rows [0; 0]%Z [1; 1]%Z [[0 # 2; 2 # 2]; [0; 0]]%Q).
  vm_compute. reflexivity.
Defined.


Lemma correct_count_monotone_witness :
  correct_count (mkT [2; 4] [1; 0; 0; 0; 0; (1 # 2); (1 # 4); 0]%Q) [0; 2]%Z [1; 2; 3]
  = inr [Qnat 1; Qnat 2; Qnat 2] /\
  length [Qnat 1; Qnat 2; Qnat 2] = length [1; 2; 3] /\
  forall i j ki kj ci cj,
    nth_error [1; 2; 3] i = Some ki -> nth_error [1; 2; 3] j = Some kj ->
    nth_error [Qnat 1; Qnat 2; Qnat 2] i = Some ci ->
    nth_error [Qnat 1; Qnat 2; Qnat 2] j = Some cj ->
    ki <= kj -> (ci <= cj)%Q.
Proof.
  split; [reflexivity |].
  apply (correct_count_monotone
           (mkT [2; 4] [1; 0; 0; 0; 0; (1 # 2); (1 # 4); 0]%Q) [0; 2]%Z [1; 2; 3]).
  reflexivity.
Defined.

Lemma evaluate_accuracy_bounds_witness :
  exists fwd a1 a2 l rest r,
    evaluate Demo.pixel_net Demo.crops_loader Demo.margin_loss true Cpu
    = (fwd ++ report_head a1 a2 l ++ rest, r) /\
    Forall is_forward fwd /\
    (0 <= a1)%Q /\ (a1 <= a2)%Q /\ (a2 <= 100)%Q.
Proof.
  apply (evaluate_accuracy_bounds Demo.pixel_net Demo.crops_loader
           Demo.margin_loss true Cpu 4 Demo.crops_stats).
  - repeat constructor.
  - repeat constructor.
  - lia.
  - vm_compute. lia.
Defined.

Lemma evaluate_log_shape_witness :
  exists fwd a1 a2 l p rc f cm,
    fst (evaluate Demo.pixel_net Demo.crops_loader Demo.margin_loss true Cpu)
    = fwd ++ [Print LSeparator; Print (LTop1 a1); Print (LTop2 a2);
              Print (LLoss l); Print (LPrecision p); Print (LRecall rc);
              Print (LF1 f); Print (LConfusion cm)] /\
    Forall is_forward fwd /\
    length fwd = length Demo.crops_loader.
Proof.
  apply (evaluate_log_shape Demo.pixel_net Demo.crops_loader Demo.margin_loss
           true Cpu _
           (all_labels Demo.crops_loader,
            predictions 4 Demo.crops_loader (map b_out Demo.crops_stats))).
  vm_compute. reflexivity.
Defined.

Lemma evaluate_stops_at_first_failure_witness :
  evaluate Demo.pixel_net ([Demo.crops_batch_a] ++ Demo.plain_batch_a :: [Demo.crops_batch_b])
           Demo.margin_loss true Cpu
  = (fst (for_each (evaluate_batch Demo.pixel_net Demo.margin_loss true)
                   [Demo.crops_batch_a] init_counters)
     ++ fst (evaluate_batch Demo.pixel_net Demo.margin_loss true
               (step init_counters Demo.crops_batch_a
                     (observed_stat Demo.pixel_net Demo.margin_loss true
                        Demo.crops_batch_a))
               Demo.plain_batch_a),
     inl ValueError).
Proof.
  apply (evaluate_stops_at_first_failure Demo.pixel_net Demo.margin_loss true Cpu
           [Demo.crops_batch_a] Demo.plain_batch_a [Demo.crops_batch_b]).
  - reflexivity.
  - reflexivity.
Defined.

Lemma evaluate_outputs_empty_crops_witness :
  exists tr e,
    evaluate_outputs Demo.pixel_net true (mkT [2; 0; 1; 2; 2] []) = (tr, inl e).
Proof.
  apply (evaluate_outputs_empty_crops Demo.pixel_net (mkT [2; 0; 1; 2; 2] [])
           2 0 1 2 2); reflexivity.
Defined.

Lemma evaluate_batch_needs_two_classes_witness :
  evaluate_batch Demo.pixel_net (fun _ _ => inr 0%Q) false init_counters
    (mkT [2; 1; 1; 1] [1; 0]%Q, [0; 0]%Z)
  = ([Forward [2; 1; 1; 1]], inl RuntimeError).
Proof.
  apply (evaluate_batch_needs_two_classes Demo.pixel_net (fun _ _ => inr 0%Q)
           false init_counters (mkT [2; 1; 1; 1] [1; 0]%Q) [0; 0]%Z
           [Forward [2; 1; 1; 1]] (mkT [2; 1] [1; 0]%Q) 2 1 0%Q).
  - reflexivity.
  - reflexivity.
  - lia.
  - reflexivity.
Defined.

Lemma main_missing_state_dict_witness :
  main Demo.keyless_world default_args
  = ([Print (LModel "PixelNet")], inl KeyError).
Proof.
  apply (main_missing_state_dict Demo.keyless_world default_args tt
           [("optimizer_state_dict"%string, tt)]).
  - reflexivity.
  - reflexivity.
  - intros sd [H | []]. discriminate.
Defined.

Lemma draw_cells_log_witness :
  snd (draw_cells [[1; 0]; [(1 # 3); (2 # 3)]]%Q 2) = inr tt /\
  fst (draw_cells [[1; 0]; [(1 # 3); (2 # 3)]]%Q 2)
  = flat_map
      (fun i => map (fun j => Plt (Text i j
                                     (round2 (float64 (nth i (nth j [[1; 0]; [(1 # 3); (2 # 3)]]%Q [])
                                                  0%Q)))
                                     (if i =? j then White else Black)))
                    (seq 0 2))
      (seq 0 2).
Proof.
  split; [reflexivity |].
  apply (draw_cells_log [[1; 0]; [(1 # 3); (2 # 3)]]%Q 2). reflexivity.
Defined.

Lemma max_dim1_picks_a_largest_witness :
  length [0; 1]%Z = 2 /\
  forall i, i < 2 ->
    exists p,
      nth_error [0; 1]%Z i = Some (Z.of_nat p) /\ p < 4 /\
      forall j, j < 4 ->
        (nth (i * 4 + j) (data Demo.two_rows) 0
         <= nth (i * 4 + p) (data Demo.two_rows) 0)%Q.
Proof.
  apply (max_dim1_picks_a_largest Demo.two_rows 2 4 [0; 1]%Z).
  - reflexivity.
  - reflexivity.
  - lia.
  - reflexivity.
Defined.

Lemma correct_count_target_mismatch_witness :
  correct_count Demo.two_rows [0; 1; 2]%Z [1; 2] = inl RuntimeError.
Proof.
  apply (correct_count_target_mismatch Demo.two_rows [0; 1; 2]%Z 2 4 [1; 2]).
  - reflexivity.
  - simpl; lia.
  - discriminate.
  - simpl; lia.
  - simpl; lia.
Defined.

Lemma correct_count_single_target_witness :
  correct_count Demo.two_rows [0]%Z [1; 2]
  = correct_count Demo.two_rows (repeat 0%Z 2) [1; 2].
Proof.
  apply (correct_count_single_target Demo.two_rows 0%Z 2 4 [1; 2]).
  reflexivity.
Defined.

Lemma view_preserves_witness :
  data (mkT [4; 1; 2; 2] (data (fst Demo.crops_batch_a)))
  = data (fst Demo.crops_batch_a) /\
  length (shape (mkT [4; 1; 2; 2] (data (fst Demo.crops_batch_a)))) = length [-1; 1; 2; 2]%Z /\
  numel (shape (mkT [4; 1; 2; 2] (data (fst Demo.crops_batch_a))))
  = numel (shape (fst Demo.crops_batch_a)).
Proof.
  apply (view_preserves (fst Demo.crops_batch_a) [-1; 1; 2; 2]%Z
           (mkT [4; 1; 2; 2] (data (fst Demo.crops_batch_a)))).
  reflexivity.
Defined.

Lemma confusion_matrix_total_witness :
  nat_sum (map nat_sum [[1; 1]; [0; 1]]) = length [0; 0; 1]%Z.
Proof.
  apply (confusion_matrix_total [0; 0; 1]%Z [0; 1; 1]%Z [[1; 1]; [0; 1]]).
  reflexivity.
Defined.

Lemma correct_count_counts_hits_witness :
  (Qnat (count_samples (surely_in_topk 1)
           (chunks 4 (length [1]%Z) (data Demo.tied_row)) [1]%Z) <= Qnat 0)%Q /\
  (Qnat 0 <= Qnat (count_samples (possibly_in_topk 1)
                     (chunks 4 (length [1]%Z) (data Demo.tied_row)) [1]%Z))%Q /\
  (Qnat (count_samples (surely_in_topk 2)
           (chunks 4 (length [1]%Z) (data Demo.tied_row)) [1]%Z) <= Qnat 1)%Q /\
  (Qnat 1 <= Qnat (count_samples (possibly_in_topk 2)
                     (chunks 4 (length [1]%Z) (data Demo.tied_row)) [1]%Z))%Q.
Proof.
  apply (correct_count_counts_hits Demo.tied_row [1]%Z 4 (Qnat 0) (Qnat 1)).
  - reflexivity.
  - reflexivity.
  - lia.
  - reflexivity.
Defined.
